(** * Voxel-grid ray traversal of StaticMapping ([src/common/math.cc])

    A shallow embedding of the three traversal routines [VoxelCasting],
    [VoxelCastingBresenham] and [VoxelCastingDDA], over

    - IEEE-754 binary32 numbers, taken from the specification of
      floating-point arithmetic of the standard library ([spec_float] at
      precision 24 and maximal exponent 128), for [float];
    - 32-bit two's complement integers, written as [Z] with the wrap-around
      of every operation spelled out, for [int].  *)

From Stdlib Require Import ZArith List Bool Lia.
From Stdlib Require Import Floats.SpecFloat.
Import ListNotations.

Local Open Scope Z_scope.

(** ** 32-bit integers *)

Module Int32.

Definition min_int : Z := - 2 ^ 31.
Definition max_int : Z := 2 ^ 31 - 1.
Definition modulus : Z := 2 ^ 32.

(** The value of an [int] holding the mathematical result [z]. *)
Definition wrap (z : Z) : Z := (z + 2 ^ 31) mod 2 ^ 32 - 2 ^ 31.

Definition in_range (z : Z) : bool := (min_int <=? z) && (z <=? max_int).

Definition add (a b : Z) : Z := wrap (a + b).
Definition sub (a b : Z) : Z := wrap (a - b).
Definition neg (a : Z) : Z := wrap (- a).
(** [std::abs] on [int]: the absolute value of [INT_MIN] wraps to itself. *)
Definition abs (a : Z) : Z := wrap (Z.abs a).
(** [a << 1]. *)
Definition shl1 (a : Z) : Z := wrap (2 * a).
(** [a >> 1], the arithmetic shift. *)
Definition shr1 (a : Z) : Z := Z.shiftr a 1.

End Int32.

(** ** binary32 floating-point numbers *)

Module Float32.

Definition prec : Z := 24.
Definition emax : Z := 128.

Definition float := spec_float.

Definition add : float -> float -> float := SFadd prec emax.
Definition sub : float -> float -> float := SFsub prec emax.
Definition mul : float -> float -> float := SFmul prec emax.
Definition div : float -> float -> float := SFdiv prec emax.
Definition ltb : float -> float -> bool := SFltb.
Definition leb : float -> float -> bool := SFleb.
Definition eqb : float -> float -> bool := SFeqb.

Definition is_nan (x : float) : bool :=
  match x with S754_nan => true | _ => false end.

Definition zero : float := S754_zero false.

(** [FLT_MAX] of [<cfloat>]: (2^24 - 1) * 2^104. *)
Definition FLT_MAX : float := S754_finite false 16777215 104.

(** Conversion of an [int] to [float], rounding to nearest even. *)
Definition of_int (z : Z) : float := binary_normalize prec emax z 0 false.

(** [std::floor] on [float].  A finite number with a non-negative exponent
    is an integer already; otherwise the mantissa is shifted down, which
    rounds towards minus infinity, and the sign of a zero result is the
    sign of the argument. *)
Definition floor (x : float) : float :=
  match x with
  | S754_finite s m e =>
      if 0 <=? e then x
      else binary_normalize prec emax
             (Z.shiftr (cond_Zopp s (Zpos m)) (- e)) 0 s
  | _ => x
  end.

(** The integer part of a number, truncated towards zero; [None] for
    infinities and NaN. *)
Definition trunc (x : float) : option Z :=
  match x with
  | S754_zero _ => Some 0
  | S754_finite s m e =>
      Some (cond_Zopp s (if 0 <=? e then Z.shiftl (Zpos m) e
                         else Z.shiftr (Zpos m) (- e)))
  | _ => None
  end.

(** The nearest integer, halfway cases away from zero ([std::lround]);
    [None] for infinities and NaN. *)
Definition round_away (x : float) : option Z :=
  match x with
  | S754_zero _ => Some 0
  | S754_finite s m e =>
      Some (cond_Zopp s (if 0 <=? e then Z.shiftl (Zpos m) e
                         else Z.shiftr (Zpos m + Z.shiftl 1 (- e - 1)) (- e)))
  | _ => None
  end.

End Float32.

(** ** Conversions the C++ standard leaves open

    Converting a [float] that is NaN, infinite or out of range to [int] has no
    defined result, and [std::lround] returns an unspecified [long] there.
    The value a given platform produces is a parameter of the model. *)

Record Target : Type := mkTarget {
  cast_invalid : Z;    (* float -> int conversion of an unrepresentable value *)
  lround_invalid : Z   (* std::lround of an unrepresentable value *)
}.

(** x86-64 with SSE: the "integer indefinite" values of cvttss2si. *)
Definition x86_64 : Target :=
  {| cast_invalid := - 2 ^ 31; lround_invalid := - 2 ^ 63 |}.

Section Conversions.

Variable T : Target.

(** Implicit conversion [float -> int]. *)
Definition float_to_int (x : Float32.float) : Z :=
  match Float32.trunc x with
  | Some z => if Int32.in_range z then z else Int32.wrap (cast_invalid T)
  | None => Int32.wrap (cast_invalid T)
  end.

(** [std::lround], of result type [long] (64 bits). *)
Definition lround (x : Float32.float) : Z :=
  match Float32.round_away x with
  | Some z => if (- 2 ^ 63 <=? z) && (z <=? 2 ^ 63 - 1) then z
              else lround_invalid T
  | None => lround_invalid T
  end.

(** Narrowing of a [long] to [int]. *)
Definition long_to_int (z : Z) : Z := Int32.wrap z.

End Conversions.

(** [std::isnan] applied to an [int]: the argument is converted to [double]
    (binary64) first. *)
Definition int_to_double (z : Z) : spec_float := binary_normalize 53 1024 z 0 false.
Definition isnan_int (z : Z) : bool := Float32.is_nan (int_to_double z).

(** ** Vectors *)

Record Vector3f : Type := mkVector3f {
  fx : Float32.float; fy : Float32.float; fz : Float32.float }.

Record Vector3i : Type := mkVector3i { ix : Z; iy : Z; iz : Z }.

Definition Vector3i_eqb (a b : Vector3i) : bool :=
  (ix a =? ix b) && (iy a =? iy b) && (iz a =? iz b).

Definition Vector3f_sub (a b : Vector3f) : Vector3f :=
  mkVector3f (Float32.sub (fx a) (fx b)) (Float32.sub (fy a) (fy b))
             (Float32.sub (fz a) (fz b)).

Definition Vector3i_add (a b : Vector3i) : Vector3i :=
  mkVector3i (Int32.add (ix a) (ix b)) (Int32.add (iy a) (iy b))
             (Int32.add (iz a) (iz b)).

Definition Vector3i_sub (a b : Vector3i) : Vector3i :=
  mkVector3i (Int32.sub (ix a) (ix b)) (Int32.sub (iy a) (iy b))
             (Int32.sub (iz a) (iz b)).

(** ** Parametric traversal: [VoxelCasting] *)

Section Traversals.

Variable T : Target.

(** The index computed at lines 47-54: [std::floor] of the quotient,
    converted to [int] by the vector's constructor. *)
Definition VoxelIndex (p : Vector3f) (step_size : Float32.float) : Vector3i :=
  mkVector3i
    (float_to_int T (Float32.floor (Float32.div (fx p) step_size)))
    (float_to_int T (Float32.floor (Float32.div (fy p) step_size)))
    (float_to_int T (Float32.floor (Float32.div (fz p) step_size))).

(** [(ray[i] >= 0.) ? 1 : -1] *)
Definition step_of_ray (r : Float32.float) : Z :=
  if Float32.leb Float32.zero r then 1 else -1.

(** [tMax] of one axis: [(start != end) ? (boundary - ray_start) / ray : FLT_MAX]
    with [boundary = (current + step) * step_size]. *)
Definition tMax_init (start_i end_i step_i : Z)
           (ray_start_i ray_i step_size : Float32.float) : Float32.float :=
  let next_voxel_boundary :=
    Float32.mul (Float32.of_int (Int32.add start_i step_i)) step_size in
  if negb (start_i =? end_i)
  then Float32.div (Float32.sub next_voxel_boundary ray_start_i) ray_i
  else Float32.FLT_MAX.

(** [tDelta] of one axis: [(start != end) ? step_size / ray * step : FLT_MAX]. *)
Definition tDelta_init (start_i end_i step_i : Z)
           (ray_i step_size : Float32.float) : Float32.float :=
  if negb (start_i =? end_i)
  then Float32.mul (Float32.div step_size ray_i) (Float32.of_int step_i)
  else Float32.FLT_MAX.

(** One component of [diff] (lines 97-102). *)
Definition diff_of (current_i end_i : Z) (ray_i : Float32.float) : Z :=
  if negb (current_i =? end_i) && Float32.ltb ray_i Float32.zero
  then Int32.sub 0 1 else 0.

(** What the main loop reads but never writes. *)
Record CastEnv : Type := mkCastEnv {
  end_voxel : Vector3i;
  step_x : Z; step_y : Z; step_z : Z;
  tDeltaX : Float32.float; tDeltaY : Float32.float; tDeltaZ : Float32.float }.

(** What the main loop updates. *)
Record CastState : Type := mkCastState {
  current_voxel : Vector3i;
  tMaxX : Float32.float; tMaxY : Float32.float; tMaxZ : Float32.float }.

Definition move_x (E : CastEnv) (s : CastState) : CastState :=
  let c := current_voxel s in
  mkCastState (mkVector3i (Int32.add (ix c) (step_x E)) (iy c) (iz c))
              (Float32.add (tMaxX s) (tDeltaX E)) (tMaxY s) (tMaxZ s).

Definition move_y (E : CastEnv) (s : CastState) : CastState :=
  let c := current_voxel s in
  mkCastState (mkVector3i (ix c) (Int32.add (iy c) (step_y E)) (iz c))
              (tMaxX s) (Float32.add (tMaxY s) (tDeltaY E)) (tMaxZ s).

Definition move_z (E : CastEnv) (s : CastState) : CastState :=
  let c := current_voxel s in
  mkCastState (mkVector3i (ix c) (iy c) (Int32.add (iz c) (step_z E)))
              (tMaxX s) (tMaxY s) (Float32.add (tMaxZ s) (tDeltaZ E)).

(** The body of the [while] loop, lines 110-126. *)
Definition cast_step (E : CastEnv) (s : CastState) : CastState :=
  if Float32.ltb (tMaxX s) (tMaxY s) then
    if Float32.ltb (tMaxX s) (tMaxZ s) then move_x E s else move_z E s
  else
    if Float32.ltb (tMaxY s) (tMaxZ s) then move_y E s else move_z E s.

(** [while (end_voxel != current_voxel) { ...; push_back(current_voxel); }]:
    the voxels pushed by the loop, or [None] when the loop is still running
    after [fuel] iterations. *)
Fixpoint cast_loop (fuel : nat) (E : CastEnv) (s : CastState)
  : option (list Vector3i) :=
  if Vector3i_eqb (end_voxel E) (current_voxel s) then Some []
  else
    match fuel with
    | O => None
    | S fuel' =>
        let s' := cast_step E s in
        match cast_loop fuel' E s' with
        | Some l => Some (current_voxel s' :: l)
        | None => None
        end
    end.

Definition cast_env (ray_start ray_end : Vector3f) (step_size : Float32.float)
  : CastEnv :=
  let ray := Vector3f_sub ray_end ray_start in
  let start_voxel := VoxelIndex ray_start step_size in
  let end_voxel := VoxelIndex ray_end step_size in
  let step_x := step_of_ray (fx ray) in
  let step_y := step_of_ray (fy ray) in
  let step_z := step_of_ray (fz ray) in
  mkCastEnv end_voxel step_x step_y step_z
    (tDelta_init (ix start_voxel) (ix end_voxel) step_x (fx ray) step_size)
    (tDelta_init (iy start_voxel) (iy end_voxel) step_y (fy ray) step_size)
    (tDelta_init (iz start_voxel) (iz end_voxel) step_z (fz ray) step_size).

(** The three [tMax] values before the loop (lines 75-83). *)
Definition cast_tMax (ray_start ray_end : Vector3f) (step_size : Float32.float)
           (current : Vector3i) : CastState :=
  let ray := Vector3f_sub ray_end ray_start in
  let start_voxel := VoxelIndex ray_start step_size in
  let end_voxel := VoxelIndex ray_end step_size in
  mkCastState current
    (tMax_init (ix start_voxel) (ix end_voxel) (step_of_ray (fx ray))
               (fx ray_start) (fx ray) step_size)
    (tMax_init (iy start_voxel) (iy end_voxel) (step_of_ray (fy ray))
               (fy ray_start) (fy ray) step_size)
    (tMax_init (iz start_voxel) (iz end_voxel) (step_of_ray (fz ray))
               (fz ray_start) (fz ray) step_size).

(** [diff] and [neg_ray] of lines 95-102. *)
Definition cast_diff (ray_start ray_end : Vector3f) (step_size : Float32.float)
  : Vector3i :=
  let ray := Vector3f_sub ray_end ray_start in
  let start_voxel := VoxelIndex ray_start step_size in
  let end_voxel := VoxelIndex ray_end step_size in
  mkVector3i (diff_of (ix start_voxel) (ix end_voxel) (fx ray))
             (diff_of (iy start_voxel) (iy end_voxel) (fy ray))
             (diff_of (iz start_voxel) (iz end_voxel) (fz ray)).

Definition neg_ray (ray_start ray_end : Vector3f) (step_size : Float32.float)
  : bool :=
  let d := cast_diff ray_start ray_end step_size in
  negb ((ix d =? 0) && (iy d =? 0) && (iz d =? 0)).

Definition VoxelCasting (fuel : nat) (ray_start ray_end : Vector3f)
           (step_size : Float32.float) : option (list Vector3i) :=
  let start_voxel := VoxelIndex ray_start step_size in
  let end_voxel := VoxelIndex ray_end step_size in
  if Vector3i_eqb start_voxel end_voxel then Some [start_voxel]
  else
    let E := cast_env ray_start ray_end step_size in
    let current_voxel :=
      if neg_ray ray_start ray_end step_size
      then Vector3i_add start_voxel (cast_diff ray_start ray_end step_size)
      else start_voxel in
    let visited_voxels :=
      if neg_ray ray_start ray_end step_size
      then [start_voxel; current_voxel] else [start_voxel] in
    match cast_loop fuel E
            (cast_tMax ray_start ray_end step_size current_voxel) with
    | Some l => Some (visited_voxels ++ l)
    | None => None
    end.

(** ** Integer traversals *)

(** What the two integer routines produce: the vector they return, a failed
    [CHECK_EQ] (the process is aborted), or the [std::length_error] of a
    [reserve] whose argument is negative as an [int].  Memory is taken to be
    unbounded: no allocation fails. *)
Inductive outcome : Type :=
| Returned (visited_voxels : list Vector3i)
| CheckFailed
| LengthError.

(** [std::lround(std::floor(p[i] / step_size))] stored in an [int]
    (lines 141-143, 149-151, 205-208 and 215-218). *)
Definition lround_index (c step_size : Float32.float) : Z :=
  long_to_int (lround T (Float32.floor (Float32.div c step_size))).

Definition VoxelIndexLround (p : Vector3f) (step_size : Float32.float)
  : Vector3i :=
  mkVector3i (lround_index (fx p) step_size) (lround_index (fy p) step_size)
             (lround_index (fz p) step_size).

Definition isnan_Vector3i (v : Vector3i) : bool :=
  isnan_int (ix v) || isnan_int (iy v) || isnan_int (iz v).

(** *** Integer-error traversal: [VoxelCastingBresenham] *)

(** The variables the loop of lines 168-188 updates; [x1], [y1], [z1] hold
    the error terms there. *)
Record BresState : Type := mkBresState {
  x0 : Z; y0 : Z; z0 : Z; x1 : Z; y1 : Z; z1 : Z }.

Record BresEnv : Type := mkBresEnv {
  dx : Z; dy : Z; dz : Z; sx : Z; sy : Z; sz : Z; dm : Z }.

(** [e -= d; if (e < 0) { e += dm; c += s; }] for one axis: the new error
    term and the new coordinate. *)
Definition bres_axis (dm d s e c : Z) : Z * Z :=
  let e := Int32.sub e d in
  if e <? 0 then (Int32.add e dm, Int32.add c s) else (e, c).

(** Lines 173-187. *)
Definition bres_step (E : BresEnv) (s : BresState) : BresState :=
  let '(ex, cx) := bres_axis (dm E) (dx E) (sx E) (x1 s) (x0 s) in
  let '(ey, cy) := bres_axis (dm E) (dy E) (sy E) (y1 s) (y0 s) in
  let '(ez, cz) := bres_axis (dm E) (dz E) (sz E) (z1 s) (z0 s) in
  mkBresState cx cy cz ex ey ez.

(** [for (;;) { emplace_back(x0, y0, z0); if (i-- == 0) break; ... }] with
    [i] the number of iterations left: the voxels pushed and the state at
    the [break]. *)
Fixpoint bres_loop (i : nat) (E : BresEnv) (s : BresState)
  : list Vector3i * BresState :=
  match i with
  | O => ([mkVector3i (x0 s) (y0 s) (z0 s)], s)
  | S i' =>
      let '(l, s') := bres_loop i' E (bres_step E s) in
      (mkVector3i (x0 s) (y0 s) (z0 s) :: l, s')
  end.

Definition bres_env (start_voxel end_voxel : Vector3i) : BresEnv :=
  let dx := Int32.abs (Int32.sub (ix end_voxel) (ix start_voxel)) in
  let dy := Int32.abs (Int32.sub (iy end_voxel) (iy start_voxel)) in
  let dz := Int32.abs (Int32.sub (iz end_voxel) (iz start_voxel)) in
  mkBresEnv dx dy dz
    (if ix start_voxel <? ix end_voxel then 1 else -1)
    (if iy start_voxel <? iy end_voxel then 1 else -1)
    (if iz start_voxel <? iz end_voxel then 1 else -1)
    (Z.max dx (Z.max dy dz)).

(** Lines 156-193, from the two indices on. *)
Definition bresenham_from (start_voxel end_voxel : Vector3i) : outcome :=
  let E := bres_env start_voxel end_voxel in
  let e := Int32.shr1 (dm E) in
  if Int32.add (dm E) 1 <? 0 then LengthError
  else
    let '(visited_voxels, s) :=
      bres_loop (Z.to_nat (dm E)) E
        (mkBresState (ix start_voxel) (iy start_voxel) (iz start_voxel) e e e) in
    if Vector3i_eqb (mkVector3i (x0 s) (y0 s) (z0 s)) end_voxel
    then Returned visited_voxels else CheckFailed.

Definition VoxelCastingBresenham (ray_start ray_end : Vector3f)
           (step_size : Float32.float) : outcome :=
  let start_voxel := VoxelIndexLround ray_start step_size in
  if isnan_Vector3i start_voxel then Returned []
  else
    let end_voxel := VoxelIndexLround ray_end step_size in
    if isnan_Vector3i end_voxel then Returned []
    else bresenham_from start_voxel end_voxel.

(** *** Shared-threshold traversal: [VoxelCastingDDA] *)

Record DDAState : Type := mkDDAState { current : Vector3i; error : Vector3i }.

Record DDAEnv : Type := mkDDAEnv {
  delta : Vector3i; step : Vector3i; max_delta : Z }.

(** [e += d; if ((e << 1) >= max_delta) { c += s; e -= max_delta; }] for one
    axis: the new coordinate and the new error term. *)
Definition dda_axis (max_delta d s c e : Z) : Z * Z :=
  let e := Int32.add e d in
  if max_delta <=? Int32.shl1 e
  then (Int32.add c s, Int32.sub e max_delta) else (c, e).

(** Lines 243-263. *)
Definition dda_step (E : DDAEnv) (s : DDAState) : DDAState :=
  let m := max_delta E in
  let '(cx, ex) := dda_axis m (ix (delta E)) (ix (step E))
                            (ix (current s)) (ix (error s)) in
  let '(cy, ey) := dda_axis m (iy (delta E)) (iy (step E))
                            (iy (current s)) (iy (error s)) in
  let '(cz, ez) := dda_axis m (iz (delta E)) (iz (step E))
                            (iz (current s)) (iz (error s)) in
  mkDDAState (mkVector3i cx cy cz) (mkVector3i ex ey ez).

(** [for (int i = 0; i < max_delta; ++i) { push_back(current_voxel); ... }]
    with [n] the number of iterations left. *)
Fixpoint dda_loop (n : nat) (E : DDAEnv) (s : DDAState)
  : list Vector3i * DDAState :=
  match n with
  | O => ([], s)
  | S n' =>
      let '(l, s') := dda_loop n' E (dda_step E s) in
      (current s :: l, s')
  end.

Definition abs_of (d : Z) : Z := if d <? 0 then Int32.neg d else d.

Definition dda_env (start_voxel end_voxel : Vector3i) : DDAEnv :=
  let delta := Vector3i_sub end_voxel start_voxel in
  let step := mkVector3i (if 0 <=? ix delta then 1 else -1)
                         (if 0 <=? iy delta then 1 else -1)
                         (if 0 <=? iz delta then 1 else -1) in
  let delta := mkVector3i (abs_of (ix delta)) (abs_of (iy delta))
                          (abs_of (iz delta)) in
  let max_delta := if iy delta <? ix delta then ix delta else iy delta in
  let max_delta := if iz delta <? max_delta then max_delta else iz delta in
  mkDDAEnv delta step max_delta.

(** Lines 224-272, from the two indices on. *)
Definition dda_from (start_voxel end_voxel : Vector3i) : outcome :=
  let E := dda_env start_voxel end_voxel in
  if Int32.add (max_delta E) 1 <? 0 then LengthError
  else
    let '(l, s) :=
      dda_loop (Z.to_nat (max_delta E)) E
               (mkDDAState start_voxel (mkVector3i 0 0 0)) in
    let visited_voxels := l ++ [current s] in
    if Vector3i_eqb (current s) end_voxel
    then Returned visited_voxels else CheckFailed.

Definition VoxelCastingDDA (ray_start ray_end : Vector3f)
           (step_size : Float32.float) : outcome :=
  let start_voxel := VoxelIndexLround ray_start step_size in
  if isnan_Vector3i start_voxel then Returned []
  else
    let end_voxel := VoxelIndexLround ray_end step_size in
    if isnan_Vector3i end_voxel then Returned []
    else dda_from start_voxel end_voxel.

End Traversals.

(** ** Paths *)

(** [adjacent R l]: every two consecutive elements of [l] are related by [R]. *)
Fixpoint adjacent {A : Type} (R : A -> A -> Prop) (l : list A) : Prop :=
  match l with
  | a :: (b :: _) as t => R a b /\ adjacent R t
  | _ => True
  end.

(** The Chebyshev distance of two indices is at most one. *)
Definition chebyshev1 (a b : Vector3i) : Prop :=
  Z.abs (ix b - ix a) <= 1 /\ Z.abs (iy b - iy a) <= 1 /\ Z.abs (iz b - iz a) <= 1.

(** One coordinate stays or moves by one unit in [int] arithmetic. *)
Definition unit_move (c c' : Z) : Prop :=
  c' = c \/ c' = Int32.add c 1 \/ c' = Int32.add c (-1).

Definition unit_step (a b : Vector3i) : Prop :=
  unit_move (ix a) (ix b) /\ unit_move (iy a) (iy b) /\ unit_move (iz a) (iz b).

Definition in_range3 (v : Vector3i) : Prop :=
  Int32.in_range (ix v) = true /\ Int32.in_range (iy v) = true /\
  Int32.in_range (iz v) = true.

(** The largest of the three differences of two indices, as integers. *)
Definition max_abs_delta (a b : Vector3i) : Z :=
  Z.max (Z.abs (ix b - ix a)) (Z.max (Z.abs (iy b - iy a)) (Z.abs (iz b - iz a))).

(** Component-wise [==] of two vectors of [float]. *)
Definition Vector3f_eqb (a b : Vector3f) : bool :=
  Float32.eqb (fx a) (fx b) && Float32.eqb (fy a) (fy b) &&
  Float32.eqb (fz a) (fz b).

Definition no_nan (p : Vector3f) : Prop :=
  Float32.is_nan (fx p) = false /\ Float32.is_nan (fy p) = false /\
  Float32.is_nan (fz p) = false.

(** Vectors with integer coordinates, and the number one. *)
Definition vec (a b c : Z) : Vector3f :=
  mkVector3f (Float32.of_int a) (Float32.of_int b) (Float32.of_int c).

Definition one : Float32.float := Float32.of_int 1.

(** The positions a loop visits: [pos s], [pos (f s)], ..., [pos (f^n s)]. *)
Fixpoint trace {S A : Type} (pos : S -> A) (f : S -> S) (n : nat) (s : S)
  : list A :=
  pos s :: match n with
           | O => []
           | S n' => trace pos f n' (f s)
           end.

Definition bres_pos (s : BresState) : Vector3i := mkVector3i (x0 s) (y0 s) (z0 s).

Definition bres_init (start_voxel : Vector3i) (E : BresEnv) : BresState :=
  mkBresState (ix start_voxel) (iy start_voxel) (iz start_voxel)
              (Int32.shr1 (dm E)) (Int32.shr1 (dm E)) (Int32.shr1 (dm E)).

Definition dda_init (start_voxel : Vector3i) : DDAState :=
  mkDDAState start_voxel (mkVector3i 0 0 0).

(** The state in which [VoxelCasting] enters its loop. *)
Definition cast_start T (ray_start ray_end : Vector3f) (step_size : Float32.float)
  : CastState :=
  cast_tMax T ray_start ray_end step_size
    (if neg_ray T ray_start ray_end step_size
     then Vector3i_add (VoxelIndex T ray_start step_size)
                       (cast_diff T ray_start ray_end step_size)
     else VoxelIndex T ray_start step_size).

(** The three axes, to state a property of one coordinate once. *)
Inductive axis : Type := AxisX | AxisY | AxisZ.

Definition coord (a : axis) (v : Vector3i) : Z :=
  match a with AxisX => ix v | AxisY => iy v | AxisZ => iz v end.

Definition bres_err (a : axis) (s : BresState) : Z :=
  match a with AxisX => x1 s | AxisY => y1 s | AxisZ => z1 s end.

Definition bres_d (a : axis) (E : BresEnv) : Z :=
  match a with AxisX => dx E | AxisY => dy E | AxisZ => dz E end.

Definition bres_s (a : axis) (E : BresEnv) : Z :=
  match a with AxisX => sx E | AxisY => sy E | AxisZ => sz E end.

Definition cast_step_of (a : axis) (E : CastEnv) : Z :=
  match a with AxisX => step_x E | AxisY => step_y E | AxisZ => step_z E end.

Definition unit (s : Z) : Prop := s = 1 \/ s = -1.

Definition distinct (a b : Vector3i) : Prop := a <> b.

(** Invariant of one axis of [VoxelCastingBresenham], which started at
    coordinate [c0] with error term [e0]: after [j] iterations the axis has
    moved [k] times. *)
Definition bres_axis_inv (E : BresEnv) (a : axis) (c0 e0 j : Z) (s : BresState)
  : Prop :=
  exists k, 0 <= k <= bres_d a E /\
            coord a (bres_pos s) = c0 + bres_s a E * k /\
            bres_err a s = e0 - j * bres_d a E + dm E * k /\
            0 <= bres_err a s < dm E.

(** The same for [VoxelCastingDDA], whose error terms start at zero. *)
Definition dda_axis_inv (E : DDAEnv) (a : axis) (c0 j : Z) (s : DDAState)
  : Prop :=
  exists k, 0 <= k <= coord a (delta E) /\
            coord a (current s) = c0 + coord a (step E) * k /\
            coord a (error s) = j * coord a (delta E) - max_delta E * k /\
            - max_delta E <= 2 * coord a (error s) < max_delta E.

Definition in_int (v : Vector3i) : Prop :=
  forall a, Int32.min_int <= coord a v <= Int32.max_int.

(** ** Numbers of [float] that are integers

    [int_float x n]: [x] is the normal binary32 number of value [n], with a
    mantissa of 24 bits and an exponent between -23 and 0; these are the
    integers from 1 to 2^24 - 1. *)
Definition int_float (x : spec_float) (n : Z) : Prop :=
  exists m e, x = S754_finite false m e /\ -23 <= e <= 0 /\
              Zpos m = n * 2 ^ (- e) /\ 2 ^ 23 <= Zpos m < 2 ^ 24.

(** 1.0 and 2^24 as [float]s. *)
Definition F1c : spec_float := S754_finite false 8388608 (-23).
Definition F224 : spec_float := S754_finite false 8388608 1.

(** The ray on which [VoxelCasting] does not return: from the origin to (1, -1, 0), the
    corner of the end voxel, and what its loop reads. *)
Definition corner_env : CastEnv :=
  mkCastEnv (mkVector3i 1 (-1) 0) 1 (-1) 1 F1c F1c Float32.FLT_MAX.

(** The states the loop of [VoxelCasting] goes through on that ray: x and y
    move in turn, [tMaxX] and [tMaxY] counting up by one ([stepping_y] before
    y moves, [stepping_x] before x moves), until both reach 2^24, where
    adding one changes nothing, and y moves for ever ([stuck]). *)
Definition stepping_y (s : CastState) : Prop :=
  exists n, 1 <= n < 2 ^ 24 /\ int_float (tMaxX s) n /\ tMaxY s = tMaxX s /\
            ix (current_voxel s) = n - 1 /\ iy (current_voxel s) = - n.

Definition stepping_x (s : CastState) : Prop :=
  exists n, 1 <= n < 2 ^ 24 /\ int_float (tMaxX s) n /\
            tMaxY s = SFadd 24 128 (tMaxX s) F1c /\
            ix (current_voxel s) = n - 1 /\ iy (current_voxel s) = - n - 1.

Definition stuck (s : CastState) : Prop :=
  tMaxX s = F224 /\ tMaxY s = F224 /\ ix (current_voxel s) = 2 ^ 24 - 1.

Definition runs_away (s : CastState) : Prop :=
  tMaxZ s = Float32.FLT_MAX /\ (stepping_y s \/ stepping_x s \/ stuck s).

(** ** Further vocabulary for paths *)

(** [c] lies between [a] and [b]. *)
Definition between (a b c : Z) : Prop := Z.min a b <= c <= Z.max a b.

(** [v] lies in the box spanned by [sv] and [ev]. *)
Definition in_box (sv ev v : Vector3i) : Prop :=
  forall a, between (coord a sv) (coord a ev) (coord a v).

(** Exactly one coordinate moves, by one unit in [int] arithmetic: the two
    voxels share a face. *)
Definition face_step (u v : Vector3i) : Prop :=
  exists a s, unit s /\ coord a v = Int32.add (coord a u) s /\
              forall b, b <> a -> coord b v = coord b u.

(** The direction in which an axis is walked. *)
Definition direction (s e : Z) : Z := if s <=? e then 1 else -1.

(** [map] on the vector an integer routine returns. *)
Definition map_outcome (f : Vector3i -> Vector3i) (o : outcome) : outcome :=
  match o with
  | Returned l => Returned (map f l)
  | CheckFailed => CheckFailed
  | LengthError => LengthError
  end.

(** The differences of the indices of a ray are all zero or the largest one:
    the ray runs along an axis or along a diagonal of the grid. *)
Definition straight (sv ev : Vector3i) : Prop :=
  forall a, coord a ev = coord a sv \/
            Z.abs (coord a ev - coord a sv) = max_abs_delta sv ev.

Definition fcoord (a : axis) (v : Vector3f) : Float32.float :=
  match a with AxisX => fx v | AxisY => fy v | AxisZ => fz v end.

(** An index moved by [t], in [int] arithmetic. *)
Definition shift (t v : Vector3i) : Vector3i := Vector3i_add v t.

Definition shift_dda (t : Vector3i) (s : DDAState) : DDAState :=
  mkDDAState (shift t (current s)) (error s).

Definition shift_bres (t : Vector3i) (s : BresState) : BresState :=
  mkBresState (Int32.add (x0 s) (ix t)) (Int32.add (y0 s) (iy t))
              (Int32.add (z0 s) (iz t)) (x1 s) (y1 s) (z1 s).

(** A step size that is zero (of either sign) or NaN. *)
Definition degenerate (step_size : Float32.float) : bool :=
  match step_size with
  | S754_zero _ | S754_nan => true
  | _ => false
  end.

(** The largest of the three differences of two indices, each computed in
    [int] arithmetic. *)
Definition max_abs_int_delta (a b : Vector3i) : Z :=
  Z.max (Z.abs (Int32.sub (ix b) (ix a)))
        (Z.max (Z.abs (Int32.sub (iy b) (iy a)))
               (Z.abs (Int32.sub (iz b) (iz a)))).

(** ** The voxel index of the specification

    [index[a] = floor(point[a] / step_size)], the two scalars being [float]s
    and the quotient the [float] their division gives.  [floorZ x] is the
    floor of the number [x], the largest integer not above it, as an integer
    of any size; infinities and NaN have none. *)
Definition floorZ (x : Float32.float) : option Z :=
  match x with
  | S754_zero _ => Some 0
  | S754_finite s m e =>
      Some (if 0 <=? e then cond_Zopp s (Zpos m) * 2 ^ e
            else cond_Zopp s (Zpos m) / 2 ^ (- e))
  | _ => None
  end.

(** The index follows the words of the specification, not the code: it is a
    triple of integers of any size. *)
Definition SpecVoxelIndex (p : Vector3f) (step_size : Float32.float)
  : option Vector3i :=
  match floorZ (Float32.div (fx p) step_size),
        floorZ (Float32.div (fy p) step_size),
        floorZ (Float32.div (fz p) step_size) with
  | Some x, Some y, Some z => Some (mkVector3i x y z)
  | _, _, _ => None
  end.

(** [v] is the voxel index of [p], and each of its coordinates fits an
    [int]. *)
Definition voxel_of (p : Vector3f) (step_size : Float32.float) (v : Vector3i)
  : Prop :=
  SpecVoxelIndex p step_size = Some v /\ in_range3 v.

(** A mantissa of at most 24 bits, as every result of an operation has. *)
Definition canonical (q : Float32.float) : Prop :=
  match q with S754_finite _ m _ => Zpos m < 2 ^ 24 | _ => True end.

(** The range of the [long] that [std::lround] returns. *)
Definition fits_long (z : Z) : bool := (- 2 ^ 63 <=? z) && (z <=? 2 ^ 63 - 1).

(** No coordinate of [v] is [INT_MIN] or [INT_MAX]. *)
Definition interior (v : Vector3i) : Prop :=
  forall a, Int32.min_int < coord a v < Int32.max_int.

(** On every axis on which the coordinate of [u] is neither [INT_MIN] nor
    [INT_MAX], [u] and [v] differ by at most one in absolute value. *)
Definition unit_inside (u v : Vector3i) : Prop :=
  forall a, Int32.min_int < coord a u < Int32.max_int ->
            Z.abs (coord a v - coord a u) <= 1.

(** Exactly one coordinate differs, by one in absolute value: the two voxels
    share a face. *)
Definition shares_face (u v : Vector3i) : Prop :=
  exists a, Z.abs (coord a v - coord a u) = 1 /\
            forall b, b <> a -> coord b v = coord b u.

(** What the loop of [VoxelCastingDDA] reads on the ray from index (0,0,0) to
    index (2^30,0,0), and the states it goes through there: the doubled
    error term of x does not fit an [int], so x never moves and its error
    term runs through 2^30, -2^31, -2^30 and 0. *)
Definition billion_env : DDAEnv :=
  mkDDAEnv (mkVector3i 1073741824 0 0) (mkVector3i 1 1 1) 1073741824.

Definition billion_stuck (s : DDAState) : Prop :=
  current s = mkVector3i 0 0 0 /\
  (error s = mkVector3i 0 0 0 \/ error s = mkVector3i 1073741824 0 0 \/
   error s = mkVector3i (-2147483648) 0 0 \/
   error s = mkVector3i (-1073741824) 0 0).


(** * Properties *)

(** ** Arithmetic of [int] *)

Lemma wrap_range z : Int32.min_int <= Int32.wrap z <= Int32.max_int.
Proof.
  unfold Int32.wrap, Int32.min_int, Int32.max_int.
  pose proof (Z.mod_pos_bound (z + 2 ^ 31) (2 ^ 32) ltac:(lia)). lia.
Qed.

Lemma in_range_spec z :
  Int32.in_range z = true <-> Int32.min_int <= z <= Int32.max_int.
Proof. unfold Int32.in_range. rewrite andb_true_iff, !Z.leb_le. tauto. Qed.

Lemma wrap_in_range z : Int32.in_range (Int32.wrap z) = true.
Proof. apply in_range_spec, wrap_range. Qed.

Lemma wrap_small z :
  Int32.min_int <= z <= Int32.max_int -> Int32.wrap z = z.
Proof.
  unfold Int32.wrap, Int32.min_int, Int32.max_int. intros H.
  rewrite Z.mod_small by lia. lia.
Qed.

Lemma wrap_eqm z : exists k, Int32.wrap z = z + k * 2 ^ 32.
Proof.
  unfold Int32.wrap. exists (- ((z + 2 ^ 31) / 2 ^ 32)).
  pose proof (Z.div_mod (z + 2 ^ 31) (2 ^ 32) ltac:(lia)). lia.
Qed.

Lemma wrap_unique a b k :
  Int32.min_int <= b <= Int32.max_int -> b = a + k * 2 ^ 32 -> Int32.wrap a = b.
Proof.
  intros Hb ->. destruct (wrap_eqm a) as [j Hj].
  pose proof (wrap_range a) as Hr. unfold Int32.min_int, Int32.max_int in *.
  assert (j = k) by nia. subst j. exact Hj.
Qed.

Lemma wrap_wrap_add a b : Int32.wrap (Int32.wrap a + b) = Int32.wrap (a + b).
Proof.
  destruct (wrap_eqm a) as [j Hj]. destruct (wrap_eqm (a + b)) as [k Hk].
  apply wrap_unique with (k := k - j).
  - apply wrap_range.
  - lia.
Qed.

Lemma add_unit_neq c s : s = 1 \/ s = -1 -> Int32.add c s <> c.
Proof.
  intros Hs E. unfold Int32.add in E.
  destruct (wrap_eqm (c + s)) as [k Hk]. rewrite E in Hk. lia.
Qed.

Lemma Vector3i_eqb_eq a b : Vector3i_eqb a b = true <-> a = b.
Proof.
  unfold Vector3i_eqb. rewrite !andb_true_iff, !Z.eqb_eq.
  destruct a, b; simpl. split.
  - intros [[-> ->] ->]. reflexivity.
  - intros E. injection E. auto.
Qed.

Lemma Vector3i_eqb_refl a : Vector3i_eqb a a = true.
Proof. apply Vector3i_eqb_eq. reflexivity. Qed.

Lemma Vector3i_eta v : mkVector3i (ix v) (iy v) (iz v) = v.
Proof. destruct v. reflexivity. Qed.

(** ** Rounding never produces NaN *)

Lemma iter_pos_invariant {A : Type} (P : A -> Prop) (f : A -> A) :
  (forall x, P x -> P (f x)) -> forall p x, P x -> P (iter_pos f p x).
Proof.
  intros Hf. induction p as [p IH | p IH |]; simpl; intros x Hx; auto.
Qed.

Lemma shr_1_nonneg mrs : 0 <= shr_m mrs -> 0 <= shr_m (shr_1 mrs).
Proof.
  destruct mrs as [m r s]. simpl.
  destruct m as [| [p | p |] | p]; simpl; lia.
Qed.

Lemma shr_nonneg mrs e n : 0 <= shr_m mrs -> 0 <= shr_m (fst (shr mrs e n)).
Proof.
  intros H. destruct n; simpl; auto.
  apply (iter_pos_invariant (fun r => 0 <= shr_m r)); auto using shr_1_nonneg.
Qed.

Lemma shr_fexp_nonneg prec emax m e l :
  0 <= m -> 0 <= shr_m (fst (shr_fexp prec emax m e l)).
Proof.
  intros H. unfold shr_fexp. apply shr_nonneg.
  destruct l as [| []]; simpl; exact H.
Qed.

Lemma round_nearest_even_nonneg m l : 0 <= m -> 0 <= round_nearest_even m l.
Proof.
  intros H. destruct l as [| []]; simpl; try lia.
  destruct (Z.even m); lia.
Qed.

Lemma binary_round_aux_not_nan prec emax s m e l :
  0 <= m -> Float32.is_nan (binary_round_aux prec emax s m e l) = false.
Proof.
  intros H. unfold binary_round_aux.
  pose proof (shr_fexp_nonneg prec emax m e l H) as H1.
  destruct (shr_fexp prec emax m e l) as [mrs' e']. simpl in H1.
  pose proof (shr_fexp_nonneg prec emax _ e' loc_Exact
                (round_nearest_even_nonneg _ (loc_of_shr_record mrs') H1)) as H2.
  destruct (shr_fexp prec emax _ e' loc_Exact) as [mrs'' e'']. simpl in H2.
  destruct (shr_m mrs'') as [| p | p]; try reflexivity; try lia.
  destruct (e'' <=? emax - prec); reflexivity.
Qed.

Lemma binary_normalize_not_nan prec emax z e sz :
  Float32.is_nan (binary_normalize prec emax z e sz) = false.
Proof.
  destruct z as [| m | m]; simpl; try reflexivity;
    unfold binary_round; destruct (shl_align _ _ _) as [mz ez];
    apply binary_round_aux_not_nan; lia.
Qed.

(** An [int] is never NaN: the guards of lines 144, 152, 209 and 219 are never
    taken. *)
Lemma isnan_int_false z : isnan_int z = false.
Proof. apply binary_normalize_not_nan. Qed.

Lemma isnan_Vector3i_false v : isnan_Vector3i v = false.
Proof. unfold isnan_Vector3i. rewrite !isnan_int_false. reflexivity. Qed.

Lemma VoxelCastingBresenham_eq T ray_start ray_end step_size :
  VoxelCastingBresenham T ray_start ray_end step_size =
  bresenham_from (VoxelIndexLround T ray_start step_size)
                 (VoxelIndexLround T ray_end step_size).
Proof.
  unfold VoxelCastingBresenham. rewrite !isnan_Vector3i_false. reflexivity.
Qed.

Lemma VoxelCastingDDA_eq T ray_start ray_end step_size :
  VoxelCastingDDA T ray_start ray_end step_size =
  dda_from (VoxelIndexLround T ray_start step_size)
           (VoxelIndexLround T ray_end step_size).
Proof.
  unfold VoxelCastingDDA. rewrite !isnan_Vector3i_false. reflexivity.
Qed.

(** ** The loops as traces *)

Lemma adjacent_cons_hd {A : Type} (R : A -> A -> Prop) a l :
  (forall b, hd_error l = Some b -> R a b) -> adjacent R l -> adjacent R (a :: l).
Proof. destruct l as [| b l]; simpl; auto. Qed.

Lemma adjacent_cons_inv {A : Type} (R : A -> A -> Prop) a b l :
  adjacent R (a :: b :: l) -> R a b /\ adjacent R (b :: l).
Proof. simpl. auto. Qed.

Section Trace.

Context {S A : Type} (pos : S -> A) (f : S -> S).

Lemma trace_length n s : length (trace pos f n s) = Datatypes.S n.
Proof. revert s. induction n; intros s; simpl; auto. Qed.

Lemma trace_hd n s : hd_error (trace pos f n s) = Some (pos s).
Proof. destruct n; reflexivity. Qed.

Lemma trace_last n s d : last (trace pos f n s) d = pos (Nat.iter n f s).
Proof.
  revert s. induction n as [| n IH]; intros s.
  - reflexivity.
  - rewrite Nat.iter_succ_r, <- IH. simpl. destruct n; reflexivity.
Qed.

Lemma trace_adjacent (Inv : S -> Prop) (R : A -> A -> Prop) :
  (forall s, Inv s -> Inv (f s) /\ R (pos s) (pos (f s))) ->
  forall n s, Inv s -> adjacent R (trace pos f n s).
Proof.
  intros Hf. induction n as [| n IH]; intros s Hs.
  - simpl. exact I.
  - destruct (Hf s Hs) as [Hs' HR].
    change (trace pos f (Datatypes.S n) s) with (pos s :: trace pos f n (f s)).
    apply adjacent_cons_hd; [| apply IH; exact Hs'].
    intros b Hb. rewrite trace_hd in Hb. injection Hb as <-. exact HR.
Qed.

Lemma adjacent_cons_trace (R : A -> A -> Prop) a n s :
  R a (pos s) -> adjacent R (trace pos f n s) ->
  adjacent R (a :: trace pos f n s).
Proof.
  intros H1 H2. apply adjacent_cons_hd; [| exact H2].
  intros b Hb. rewrite trace_hd in Hb. injection Hb as <-. exact H1.
Qed.

End Trace.

Lemma bres_loop_trace i E s :
  bres_loop i E s = (trace bres_pos (bres_step E) i s, Nat.iter i (bres_step E) s).
Proof.
  revert s. induction i as [| i IH]; intros s.
  - reflexivity.
  - rewrite Nat.iter_succ_r. simpl. rewrite IH. reflexivity.
Qed.

Lemma dda_loop_trace n E s :
  fst (dda_loop n E s) ++ [current (snd (dda_loop n E s))] =
    trace current (dda_step E) n s /\
  snd (dda_loop n E s) = Nat.iter n (dda_step E) s.
Proof.
  revert s. induction n as [| n IH]; intros s.
  - split; reflexivity.
  - rewrite Nat.iter_succ_r. simpl dda_loop.
    destruct (IH (dda_step E s)) as [IH1 IH2].
    destruct (dda_loop n E (dda_step E s)) as [l s']. simpl in *.
    rewrite IH1, IH2. split; reflexivity.
Qed.

Lemma cast_loop_trace fuel E s l :
  cast_loop fuel E s = Some l ->
  exists n, current_voxel s :: l = trace current_voxel (cast_step E) n s /\
            current_voxel (Nat.iter n (cast_step E) s) = end_voxel E.
Proof.
  revert s l. induction fuel as [| fuel IH]; intros s l; simpl.
  - destruct (Vector3i_eqb (end_voxel E) (current_voxel s)) eqn:He; [| discriminate].
    intros [= <-]. exists O. apply Vector3i_eqb_eq in He. split; simpl; auto.
  - destruct (Vector3i_eqb (end_voxel E) (current_voxel s)) eqn:He.
    + intros [= <-]. exists O. apply Vector3i_eqb_eq in He. split; simpl; auto.
    + destruct (cast_loop fuel E (cast_step E s)) as [l' |] eqn:Hl; [| discriminate].
      intros [= <-]. destruct (IH _ _ Hl) as [n [H1 H2]].
      exists (Datatypes.S n). rewrite Nat.iter_succ_r. split; [| exact H2].
      simpl. rewrite H1. reflexivity.
Qed.

(** ** What a returned vector is *)

Lemma bresenham_from_Returned start_voxel end_voxel l :
  bresenham_from start_voxel end_voxel = Returned l ->
  let E := bres_env start_voxel end_voxel in
  let n := Z.to_nat (dm E) in
  0 <= Int32.add (dm E) 1 /\
  l = trace bres_pos (bres_step E) n (bres_init start_voxel E) /\
  bres_pos (Nat.iter n (bres_step E) (bres_init start_voxel E)) = end_voxel.
Proof.
  unfold bresenham_from. fold (bres_init start_voxel (bres_env start_voxel end_voxel)).
  destruct (Int32.add _ 1 <? 0) eqn:Hr; [discriminate |].
  rewrite bres_loop_trace. fold bres_pos.
  destruct (Vector3i_eqb _ end_voxel) eqn:He; [| discriminate].
  intros [= <-]. apply Vector3i_eqb_eq in He. apply Z.ltb_ge in Hr. auto.
Qed.

Lemma dda_from_Returned start_voxel end_voxel l :
  dda_from start_voxel end_voxel = Returned l ->
  let E := dda_env start_voxel end_voxel in
  let n := Z.to_nat (max_delta E) in
  0 <= Int32.add (max_delta E) 1 /\
  l = trace current (dda_step E) n (dda_init start_voxel) /\
  current (Nat.iter n (dda_step E) (dda_init start_voxel)) = end_voxel.
Proof.
  unfold dda_from. fold (dda_init start_voxel).
  destruct (Int32.add _ 1 <? 0) eqn:Hr; [discriminate |].
  destruct (dda_loop_trace (Z.to_nat (max_delta (dda_env start_voxel end_voxel)))
              (dda_env start_voxel end_voxel) (dda_init start_voxel)) as [H1 H2].
  destruct (dda_loop _ _ _) as [l' s']. simpl in H1, H2.
  destruct (Vector3i_eqb (current s') end_voxel) eqn:He; [| discriminate].
  intros [= <-]. apply Vector3i_eqb_eq in He. apply Z.ltb_ge in Hr.
  subst s'. auto.
Qed.

Lemma VoxelCasting_Some T fuel ray_start ray_end step_size path :
  VoxelCasting T fuel ray_start ray_end step_size = Some path ->
  let start_voxel := VoxelIndex T ray_start step_size in
  let end_voxel := VoxelIndex T ray_end step_size in
  let E := cast_env T ray_start ray_end step_size in
  let s := cast_start T ray_start ray_end step_size in
  (start_voxel = end_voxel /\ path = [start_voxel]) \/
  (start_voxel <> end_voxel /\
   exists n,
     current_voxel (Nat.iter n (cast_step E) s) = end_voxel /\
     path = (if neg_ray T ray_start ray_end step_size
             then start_voxel :: trace current_voxel (cast_step E) n s
             else trace current_voxel (cast_step E) n s)).
Proof.
  unfold VoxelCasting. fold (cast_start T ray_start ray_end step_size).
  destruct (Vector3i_eqb _ _) eqn:He.
  - intros [= <-]. apply Vector3i_eqb_eq in He. left. auto.
  - destruct (cast_loop _ _ _) as [l |] eqn:Hl; [| discriminate].
    intros [= <-]. right. split.
    + intros E. rewrite E, Vector3i_eqb_refl in He. discriminate.
    + destruct (cast_loop_trace _ _ _ _ Hl) as [n [H1 H2]]. exists n.
      split; [exact H2 |]. rewrite <- H1. unfold cast_start, cast_tMax.
      destruct (neg_ray T ray_start ray_end step_size); reflexivity.
Qed.

Lemma last_cons_trace {S A : Type} (pos : S -> A) f n s a d :
  last (a :: trace pos f n s) d = last (trace pos f n s) d.
Proof. destruct n; reflexivity. Qed.

Lemma current_cast_start T ray_start ray_end step_size :
  neg_ray T ray_start ray_end step_size = false ->
  current_voxel (cast_start T ray_start ray_end step_size) =
  VoxelIndex T ray_start step_size.
Proof. unfold cast_start. intros ->. reflexivity. Qed.

(** ** First and last element, as the routines compute them *)

(** Whenever one of the three routines returns a path, the first element of
    the path is the index the routine has computed for [ray_start] and the
    last element is the index it has computed for [ray_end]. *)
Lemma returned_path_code_endpoints T ray_start ray_end step_size :
  (forall fuel path d,
      VoxelCasting T fuel ray_start ray_end step_size = Some path ->
      hd_error path = Some (VoxelIndex T ray_start step_size) /\
      last path d = VoxelIndex T ray_end step_size) /\
  (forall path d,
      VoxelCastingBresenham T ray_start ray_end step_size = Returned path ->
      hd_error path = Some (VoxelIndexLround T ray_start step_size) /\
      last path d = VoxelIndexLround T ray_end step_size) /\
  (forall path d,
      VoxelCastingDDA T ray_start ray_end step_size = Returned path ->
      hd_error path = Some (VoxelIndexLround T ray_start step_size) /\
      last path d = VoxelIndexLround T ray_end step_size).
Proof.
  split; [| split].
  - intros fuel path d H. apply VoxelCasting_Some in H.
    destruct H as [[He ->] | [_ [n [Hn ->]]]].
    + simpl. rewrite He. auto.
    + destruct (neg_ray T ray_start ray_end step_size) eqn:Hneg.
      * rewrite last_cons_trace, trace_last. auto.
      * rewrite trace_hd, trace_last, current_cast_start by exact Hneg. auto.
  - intros path d H. rewrite VoxelCastingBresenham_eq in H.
    apply bresenham_from_Returned in H. destruct H as [_ [-> He]].
    rewrite trace_hd, trace_last, He. split; [| reflexivity].
    unfold bres_pos, bres_init. cbn [x0 y0 z0]. rewrite Vector3i_eta. reflexivity.
  - intros path d H. rewrite VoxelCastingDDA_eq in H.
    apply dda_from_Returned in H. destruct H as [_ [-> He]].
    rewrite trace_hd, trace_last, He. auto.
Qed.

(** ** The NaN guards *)

(** C3.  The guards of the two integer routines call [std::isnan] on the
    indices, which are [int]s already, so they are never taken: on no input,
    a NaN coordinate included, does [VoxelCastingBresenham] or
    [VoxelCastingDDA] return the empty path. *)
Theorem nan_guard_never_returns_empty T ray_start ray_end step_size :
  VoxelCastingBresenham T ray_start ray_end step_size <> Returned [] /\
  VoxelCastingDDA T ray_start ray_end step_size <> Returned [].
Proof.
  split; intros H.
  - rewrite VoxelCastingBresenham_eq in H. apply bresenham_from_Returned in H.
    destruct H as [_ [H _]]. apply (f_equal (@length _)) in H.
    rewrite trace_length in H. discriminate.
  - rewrite VoxelCastingDDA_eq in H. apply dda_from_Returned in H.
    destruct H as [_ [H _]]. apply (f_equal (@length _)) in H.
    rewrite trace_length in H. discriminate.
Qed.

(** On x86-64, where [std::lround] of NaN is [LONG_MIN], whose low 32 bits
    are zero, a ray that starts at (NaN, 0, 0) is traversed from voxel
    (0, 0, 0). *)
Example nan_start_on_x86_64 :
  VoxelCastingBresenham x86_64 (mkVector3f S754_nan Float32.zero Float32.zero)
                        (vec 2 0 0) one
  = Returned [mkVector3i 0 0 0; mkVector3i 1 0 0; mkVector3i 2 0 0] /\
  VoxelCastingDDA x86_64 (mkVector3f S754_nan Float32.zero Float32.zero)
                  (vec 2 0 0) one
  = Returned [mkVector3i 0 0 0; mkVector3i 1 0 0; mkVector3i 2 0 0].
Proof. split; vm_compute; reflexivity. Qed.

(** ** Fuel *)

(** A loop that has stopped within [fuel] iterations gives the same path with
    more fuel. *)
Lemma cast_loop_more_fuel E fuel : forall k s l,
  cast_loop fuel E s = Some l -> cast_loop (fuel + k) E s = Some l.
Proof.
  induction fuel as [| fuel IH]; intros k s l; simpl.
  - destruct (Vector3i_eqb (end_voxel E) (current_voxel s)) eqn:He;
      [| discriminate].
    intros [= <-]. destruct k; simpl; rewrite He; reflexivity.
  - destruct (Vector3i_eqb (end_voxel E) (current_voxel s)); [auto |].
    destruct (cast_loop fuel E (cast_step E s)) as [l' |] eqn:Hl;
      [| discriminate].
    intros [= <-]. rewrite (IH k _ _ Hl). reflexivity.
Qed.

Lemma VoxelCasting_more_fuel T fuel k ray_start ray_end step_size path :
  VoxelCasting T fuel ray_start ray_end step_size = Some path ->
  VoxelCasting T (fuel + k) ray_start ray_end step_size = Some path.
Proof.
  unfold VoxelCasting.
  destruct (Vector3i_eqb _ _); [auto |].
  destruct (cast_loop fuel _ _) as [l |] eqn:Hl; [| discriminate].
  intros [= <-]. rewrite (cast_loop_more_fuel _ _ k _ _ Hl). reflexivity.
Qed.

(** ** Scenario A *)

(** C7.  On the ray from (0,0,0) to (3,0,0) with step size 1 each of the
    three routines returns (0,0,0), (1,0,0), (2,0,0), (3,0,0); the loop of
    [VoxelCasting] needs three iterations. *)
Theorem scenario_A T fuel :
  VoxelCasting T (3 + fuel) (vec 0 0 0) (vec 3 0 0) one
  = Some [mkVector3i 0 0 0; mkVector3i 1 0 0; mkVector3i 2 0 0; mkVector3i 3 0 0] /\
  VoxelCastingBresenham T (vec 0 0 0) (vec 3 0 0) one
  = Returned [mkVector3i 0 0 0; mkVector3i 1 0 0; mkVector3i 2 0 0; mkVector3i 3 0 0] /\
  VoxelCastingDDA T (vec 0 0 0) (vec 3 0 0) one
  = Returned [mkVector3i 0 0 0; mkVector3i 1 0 0; mkVector3i 2 0 0; mkVector3i 3 0 0].
Proof.
  split; [| split]; [| vm_compute; reflexivity | vm_compute; reflexivity].
  apply VoxelCasting_more_fuel. vm_compute. reflexivity.
Qed.

(** ** The two integer routines disagree *)

(** C10.  On the ray from (0,0,0) to (2,1,0) with step size 1 the two integer
    routines return paths with the same first and last element and different
    second elements: [VoxelCastingBresenham] starts its error terms at
    [dm >> 1] and moves y in the second iteration only, [VoxelCastingDDA]
    starts them at zero and moves y in the first. *)
Theorem bresenham_and_dda_differ T :
  exists ray_start ray_end step_size p q,
    no_nan ray_start /\ no_nan ray_end /\
    Float32.ltb Float32.zero step_size = true /\
    VoxelCastingBresenham T ray_start ray_end step_size = Returned p /\
    VoxelCastingDDA T ray_start ray_end step_size = Returned q /\
    hd_error p = hd_error q /\
    (forall d, last p d = last q d) /\
    nth_error p 1 = Some (mkVector3i 1 0 0) /\
    nth_error q 1 = Some (mkVector3i 1 1 0) /\
    p <> q.
Proof.
  exists (vec 0 0 0), (vec 2 1 0), one,
    [mkVector3i 0 0 0; mkVector3i 1 0 0; mkVector3i 2 1 0],
    [mkVector3i 0 0 0; mkVector3i 1 1 0; mkVector3i 2 1 0].
  split; [vm_compute; auto |]. split; [vm_compute; auto |].
  split; [vm_compute; reflexivity |]. split; [vm_compute; reflexivity |].
  split; [vm_compute; reflexivity |]. split; [reflexivity |].
  split; [intros d; reflexivity |]. split; [reflexivity |].
  split; [reflexivity | intros H; discriminate H].
Qed.

(** ** Equal end points *)

Lemma SFeqb_true a b :
  SFeqb a b = true ->
  a = b \/ exists sa sb, a = S754_zero sa /\ b = S754_zero sb.
Proof.
  unfold SFeqb.
  destruct a as [sa | sa | | sa ma ea], b as [sb | sb | | sb mb eb];
    simpl; intros H; try discriminate H;
    try (right; eauto; fail);
    try (destruct sa; discriminate H);
    try (destruct sb; discriminate H).
  - destruct sa, sb; try discriminate H; auto.
  - destruct sa, sb; try discriminate H;
      destruct (Z.compare ea eb) eqn:He; try discriminate H;
      destruct (Pos.compare_cont Eq ma mb) eqn:Hm; try discriminate H;
      apply Z.compare_eq in He; apply Pos.compare_eq in Hm; subst; auto.
Qed.

Lemma floor_div_zero sa sb s :
  Float32.trunc (Float32.floor (Float32.div (S754_zero sa) s)) =
  Float32.trunc (Float32.floor (Float32.div (S754_zero sb) s)) /\
  Float32.round_away (Float32.floor (Float32.div (S754_zero sa) s)) =
  Float32.round_away (Float32.floor (Float32.div (S754_zero sb) s)).
Proof. destruct s; simpl; auto. Qed.

Lemma eqb_float_index T a b s :
  Float32.eqb a b = true ->
  float_to_int T (Float32.floor (Float32.div a s)) =
  float_to_int T (Float32.floor (Float32.div b s)) /\
  lround_index T a s = lround_index T b s.
Proof.
  intros H. apply SFeqb_true in H. destruct H as [-> | [sa [sb [-> ->]]]].
  - auto.
  - unfold lround_index, lround, float_to_int.
    destruct (floor_div_zero sa sb s) as [-> ->]. auto.
Qed.

Lemma eqb_VoxelIndex T a b s :
  Vector3f_eqb a b = true ->
  VoxelIndex T a s = VoxelIndex T b s /\
  VoxelIndexLround T a s = VoxelIndexLround T b s.
Proof.
  unfold Vector3f_eqb. rewrite !andb_true_iff. intros [[Hx Hy] Hz].
  unfold VoxelIndex, VoxelIndexLround.
  destruct (eqb_float_index T _ _ s Hx) as [-> ->].
  destruct (eqb_float_index T _ _ s Hy) as [-> ->].
  destruct (eqb_float_index T _ _ s Hz) as [-> ->]. auto.
Qed.

Lemma sub_diag a : Int32.sub a a = 0.
Proof. unfold Int32.sub. rewrite Z.sub_diag. reflexivity. Qed.

Lemma bresenham_from_diag v : bresenham_from v v = Returned [v].
Proof.
  unfold bresenham_from, bres_env. cbn [dm]. rewrite !sub_diag.
  change (Int32.abs 0) with 0. cbn [Z.max Z.compare].
  change (Int32.add 0 1 <? 0) with false. cbn [Z.to_nat bres_loop x0 y0 z0].
  rewrite Vector3i_eta, Vector3i_eqb_refl. reflexivity.
Qed.

Lemma dda_from_diag v : dda_from v v = Returned [v].
Proof.
  unfold dda_from, dda_env, Vector3i_sub. cbn [ix iy iz max_delta].
  rewrite !sub_diag. cbn. rewrite Vector3i_eqb_refl. reflexivity.
Qed.

(** When [ray_start == ray_end] (component-wise, as [float]s) each of the
    three routines returns the one-element path that holds the index it has
    computed for [ray_start]; [VoxelCasting] does so without entering its
    loop. *)
Lemma equal_endpoints_one_voxel T fuel ray_start ray_end step_size :
  Vector3f_eqb ray_start ray_end = true ->
  VoxelCasting T fuel ray_start ray_end step_size
  = Some [VoxelIndex T ray_start step_size] /\
  VoxelCastingBresenham T ray_start ray_end step_size
  = Returned [VoxelIndexLround T ray_start step_size] /\
  VoxelCastingDDA T ray_start ray_end step_size
  = Returned [VoxelIndexLround T ray_start step_size].
Proof.
  intros H. destruct (eqb_VoxelIndex T _ _ step_size H) as [H1 H2].
  split; [| split].
  - unfold VoxelCasting. rewrite <- H1, Vector3i_eqb_refl. reflexivity.
  - rewrite VoxelCastingBresenham_eq, <- H2. apply bresenham_from_diag.
  - rewrite VoxelCastingDDA_eq, <- H2. apply dda_from_diag.
Qed.

(** ** Coordinates *)

Lemma coord_neq a u v : coord a u <> coord a v -> u <> v.
Proof. intros H E. apply H. rewrite E. reflexivity. Qed.

Lemma unit_step_coord u v :
  (forall a, unit_move (coord a u) (coord a v)) <-> unit_step u v.
Proof.
  unfold unit_step. split.
  - intros H. exact (conj (H AxisX) (conj (H AxisY) (H AxisZ))).
  - intros [Hx [Hy Hz]] []; assumption.
Qed.

Lemma float_to_int_range T x : Int32.in_range (float_to_int T x) = true.
Proof.
  unfold float_to_int. destruct (Float32.trunc x) as [z |].
  - destruct (Int32.in_range z) eqn:E; [exact E | apply wrap_in_range].
  - apply wrap_in_range.
Qed.

Lemma VoxelIndex_range T p s a :
  Int32.min_int <= coord a (VoxelIndex T p s) <= Int32.max_int.
Proof. apply in_range_spec. destruct a; apply float_to_int_range. Qed.

Lemma VoxelIndexLround_range T p s a :
  Int32.min_int <= coord a (VoxelIndexLround T p s) <= Int32.max_int.
Proof. destruct a; apply wrap_range. Qed.

Lemma unit_move_add c s : unit s -> unit_move c (Int32.add c s).
Proof. intros [-> | ->]; unfold unit_move; auto. Qed.

Lemma unit_move_refl c : unit_move c c.
Proof. left. reflexivity. Qed.

(** ** Steps of the three loops *)

Lemma bres_step_coord a E s :
  coord a (bres_pos (bres_step E s)) =
    snd (bres_axis (dm E) (bres_d a E) (bres_s a E) (bres_err a s)
                   (coord a (bres_pos s))) /\
  bres_err a (bres_step E s) =
    fst (bres_axis (dm E) (bres_d a E) (bres_s a E) (bres_err a s)
                   (coord a (bres_pos s))).
Proof.
  unfold bres_step.
  destruct (bres_axis (dm E) (dx E) (sx E) (x1 s) (x0 s)) as [ex cx] eqn:Hx.
  destruct (bres_axis (dm E) (dy E) (sy E) (y1 s) (y0 s)) as [ey cy] eqn:Hy.
  destruct (bres_axis (dm E) (dz E) (sz E) (z1 s) (z0 s)) as [ez cz] eqn:Hz.
  destruct a; simpl; rewrite ?Hx, ?Hy, ?Hz; auto.
Qed.

Lemma dda_step_coord a E s :
  coord a (current (dda_step E s)) =
    fst (dda_axis (max_delta E) (coord a (delta E)) (coord a (step E))
                  (coord a (current s)) (coord a (error s))) /\
  coord a (error (dda_step E s)) =
    snd (dda_axis (max_delta E) (coord a (delta E)) (coord a (step E))
                  (coord a (current s)) (coord a (error s))).
Proof.
  unfold dda_step.
  destruct (dda_axis (max_delta E) (ix (delta E)) (ix (step E))
                     (ix (current s)) (ix (error s))) as [cx ex] eqn:Hx.
  destruct (dda_axis (max_delta E) (iy (delta E)) (iy (step E))
                     (iy (current s)) (iy (error s))) as [cy ey] eqn:Hy.
  destruct (dda_axis (max_delta E) (iz (delta E)) (iz (step E))
                     (iz (current s)) (iz (error s))) as [cz ez] eqn:Hz.
  destruct a; simpl; rewrite ?Hx, ?Hy, ?Hz; auto.
Qed.

Lemma bres_axis_unit_move dm d s e c :
  unit s -> unit_move c (snd (bres_axis dm d s e c)).
Proof.
  intros Hs. unfold bres_axis. destruct (Int32.sub e d <? 0); simpl.
  - apply unit_move_add, Hs.
  - apply unit_move_refl.
Qed.

Lemma dda_axis_unit_move m d s c e :
  unit s -> unit_move c (fst (dda_axis m d s c e)).
Proof.
  intros Hs. unfold dda_axis. destruct (m <=? Int32.shl1 (Int32.add e d)); simpl.
  - apply unit_move_add, Hs.
  - apply unit_move_refl.
Qed.

Lemma bres_env_unit a sv ev : unit (bres_s a (bres_env sv ev)).
Proof.
  unfold unit. destruct a; simpl;
    match goal with |- context [if ?b then _ else _] => destruct b end; auto.
Qed.

Lemma dda_env_unit a sv ev : unit (coord a (step (dda_env sv ev))).
Proof.
  unfold unit. destruct a; simpl;
    match goal with |- context [if ?b then _ else _] => destruct b end; auto.
Qed.

Lemma cast_env_unit T a rs re st : unit (cast_step_of a (cast_env T rs re st)).
Proof.
  unfold unit. destruct a; simpl; unfold step_of_ray;
    match goal with |- context [if ?b then _ else _] => destruct b end; auto.
Qed.

(** One iteration of the loop of [VoxelCasting] moves exactly one coordinate,
    by the step of its axis. *)
Lemma cast_step_moves E s :
  exists a,
    coord a (current_voxel (cast_step E s)) =
      Int32.add (coord a (current_voxel s)) (cast_step_of a E) /\
    forall b, b <> a ->
      coord b (current_voxel (cast_step E s)) = coord b (current_voxel s).
Proof.
  unfold cast_step.
  destruct (Float32.ltb (tMaxX s) (tMaxY s));
    [ destruct (Float32.ltb (tMaxX s) (tMaxZ s))
    | destruct (Float32.ltb (tMaxY s) (tMaxZ s)) ];
    [ exists AxisX | exists AxisZ | exists AxisY | exists AxisZ ];
    (split; [reflexivity | intros [] Hb; try reflexivity; congruence]).
Qed.

(** ** Unit steps *)

Lemma adjacent_nth {A : Type} (R : A -> A -> Prop) l :
  adjacent R l ->
  forall i a b, nth_error l i = Some a -> nth_error l (S i) = Some b -> R a b.
Proof.
  induction l as [| x l IH]; intros H i a b Ha Hb.
  - destruct i; discriminate.
  - destruct l as [| y l]; [destruct i; discriminate |].
    apply adjacent_cons_inv in H. destruct H as [Hxy Hl].
    destruct i as [| i].
    + simpl in Ha, Hb. congruence.
    + exact (IH Hl i a b Ha Hb).
Qed.

Lemma bres_step_unit_step sv ev s :
  unit_step (bres_pos s) (bres_pos (bres_step (bres_env sv ev) s)).
Proof.
  apply unit_step_coord. intros a.
  rewrite (proj1 (bres_step_coord a _ s)).
  apply bres_axis_unit_move, bres_env_unit.
Qed.

Lemma dda_step_unit_step sv ev s :
  unit_step (current s) (current (dda_step (dda_env sv ev) s)).
Proof.
  apply unit_step_coord. intros a.
  rewrite (proj1 (dda_step_coord a _ s)).
  apply dda_axis_unit_move, dda_env_unit.
Qed.

Lemma axis_eq_dec (a b : axis) : {a = b} + {a <> b}.
Proof. decide equality. Qed.

Lemma cast_step_unit_step T rs re st s :
  unit_step (current_voxel s) (current_voxel (cast_step (cast_env T rs re st) s)).
Proof.
  apply unit_step_coord. intros b.
  destruct (cast_step_moves (cast_env T rs re st) s) as [a [Ha Hb]].
  destruct (axis_eq_dec b a) as [-> | Hne].
  - rewrite Ha. apply unit_move_add, cast_env_unit.
  - rewrite (Hb b Hne). apply unit_move_refl.
Qed.

Lemma diff_of_cases c e r : diff_of c e r = 0 \/ diff_of c e r = -1.
Proof. unfold diff_of. destruct (_ && _); auto. Qed.

Lemma unit_move_diff T x d :
  d = 0 \/ d = -1 ->
  unit_move (float_to_int T x) (Int32.add (float_to_int T x) d).
Proof.
  intros [-> | ->].
  - left. unfold Int32.add. rewrite Z.add_0_r. apply wrap_small.
    apply in_range_spec, float_to_int_range.
  - right. right. reflexivity.
Qed.

Lemma correction_unit_step T rs re st :
  unit_step (VoxelIndex T rs st)
            (Vector3i_add (VoxelIndex T rs st) (cast_diff T rs re st)).
Proof.
  unfold unit_step, Vector3i_add, cast_diff. cbn [ix iy iz VoxelIndex].
  repeat split; apply unit_move_diff; auto using diff_of_cases.
Qed.

(** In every path one of the three routines returns, each coordinate of an
    element is the coordinate of the element before it, or that coordinate
    plus or minus one in [int] arithmetic. *)
Lemma returned_path_unit_moves T ray_start ray_end step_size :
  (forall fuel path,
      VoxelCasting T fuel ray_start ray_end step_size = Some path ->
      adjacent unit_step path) /\
  (forall path,
      VoxelCastingBresenham T ray_start ray_end step_size = Returned path ->
      adjacent unit_step path) /\
  (forall path,
      VoxelCastingDDA T ray_start ray_end step_size = Returned path ->
      adjacent unit_step path).
Proof.
  split; [| split].
  - intros fuel path H. apply VoxelCasting_Some in H.
    destruct H as [[_ ->] | [_ [n [_ ->]]]]; [exact I |].
    assert (Ht : adjacent unit_step
                   (trace current_voxel
                      (cast_step (cast_env T ray_start ray_end step_size)) n
                      (cast_start T ray_start ray_end step_size))).
    { apply (trace_adjacent _ _ (fun _ => True)); [| exact I].
      intros s _. split; [exact I | apply cast_step_unit_step]. }
    destruct (neg_ray T ray_start ray_end step_size) eqn:Hneg; [| exact Ht].
    apply adjacent_cons_trace; [| exact Ht].
    unfold cast_start. rewrite Hneg. apply correction_unit_step.
  - intros path H. rewrite VoxelCastingBresenham_eq in H.
    apply bresenham_from_Returned in H. destruct H as [_ [-> _]].
    apply (trace_adjacent _ _ (fun _ => True)); [| exact I].
    intros s _. split; [exact I | apply bres_step_unit_step].
  - intros path H. rewrite VoxelCastingDDA_eq in H.
    apply dda_from_Returned in H. destruct H as [_ [-> _]].
    apply (trace_adjacent _ _ (fun _ => True)); [| exact I].
    intros s _. split; [exact I | apply dda_step_unit_step].
Qed.

(** ** No repeated element *)

Lemma abs_wrap_cases z :
  0 <= Int32.abs (Int32.wrap z) <= Int32.max_int \/
  Int32.abs (Int32.wrap z) = Int32.min_int.
Proof.
  pose proof (wrap_range z) as Hr. unfold Int32.abs.
  unfold Int32.min_int, Int32.max_int in *.
  destruct (Z.eq_dec (Int32.wrap z) (- 2 ^ 31)) as [E | NE].
  - right. rewrite E. reflexivity.
  - left. rewrite wrap_small; unfold Int32.min_int, Int32.max_int; lia.
Qed.

Lemma bres_d_cases a sv ev :
  0 <= bres_d a (bres_env sv ev) <= Int32.max_int \/
  bres_d a (bres_env sv ev) = Int32.min_int.
Proof. destruct a; apply abs_wrap_cases. Qed.

Lemma add_one_nonneg m :
  Int32.min_int <= m <= Int32.max_int -> 0 <= Int32.add m 1 ->
  -1 <= m <= Int32.max_int - 1.
Proof.
  unfold Int32.add, Int32.min_int, Int32.max_int. intros Hm H.
  destruct (Z.eq_dec m (2 ^ 31 - 1)) as [-> | NE].
  - exfalso. revert H. vm_compute. intros H. apply H. reflexivity.
  - rewrite wrap_small in H; unfold Int32.min_int, Int32.max_int; lia.
Qed.

Lemma bres_env_dm sv ev :
  let E := bres_env sv ev in
  0 <= Int32.add (dm E) 1 ->
  0 <= dm E <= Int32.max_int - 1 /\ exists a, bres_d a E = dm E.
Proof.
  intros E H.
  assert (Hex : exists a, bres_d a E = dm E).
  { unfold E, bres_env. cbn [dm bres_d dx dy dz].
    set (u := Int32.abs _). set (v := Int32.abs _). set (w := Int32.abs _).
    destruct (Z.max_spec v w) as [[_ Hvw] | [_ Hvw]];
      destruct (Z.max_spec u (Z.max v w)) as [[_ Hu] | [_ Hu]];
      rewrite Hu; rewrite ?Hvw;
      first [ now exists AxisX | now exists AxisY | now exists AxisZ ]. }
  split; [| exact Hex]. destruct Hex as [a Ha].
  pose proof (bres_d_cases a sv ev) as Hc. fold E in Hc. rewrite Ha in Hc.
  unfold Int32.min_int, Int32.max_int in *.
  destruct Hc as [Hc | Hc].
  - pose proof (add_one_nonneg (dm E)) as Hn.
    unfold Int32.min_int, Int32.max_int in Hn. lia.
  - exfalso. rewrite Hc in H. revert H. vm_compute. intros H. apply H. reflexivity.
Qed.

Lemma bres_axis_dominant m s e c :
  0 <= e < m -> m <= Int32.max_int ->
  bres_axis m m s e c = (e, Int32.add c s).
Proof.
  intros He Hm. unfold bres_axis, Int32.sub, Int32.add.
  unfold Int32.max_int in Hm.
  rewrite (wrap_small (e - m)) by (unfold Int32.min_int, Int32.max_int; lia).
  destruct (e - m <? 0) eqn:Hlt; [| apply Z.ltb_ge in Hlt; lia].
  rewrite wrap_small by (unfold Int32.min_int, Int32.max_int; lia).
  f_equal. lia.
Qed.

Lemma shr1_half m : 1 <= m -> 0 <= Int32.shr1 m < m.
Proof.
  intros Hm. unfold Int32.shr1. rewrite Z.shiftr_div_pow2 by lia.
  change (2 ^ 1) with 2. split.
  - apply Z.div_pos; lia.
  - apply Z.div_lt_upper_bound; lia.
Qed.

Lemma bres_trace_distinct sv ev :
  let E := bres_env sv ev in
  0 <= Int32.add (dm E) 1 ->
  adjacent distinct
    (trace bres_pos (bres_step E) (Z.to_nat (dm E)) (bres_init sv E)).
Proof.
  intros E H. destruct (bres_env_dm sv ev H) as [Hdm [a Ha]]. fold E in Hdm, Ha.
  destruct (Z.eq_dec (dm E) 0) as [Hz | Hnz].
  - rewrite Hz. exact I.
  - apply (trace_adjacent _ _ (fun s => 0 <= bres_err a s < dm E)).
    + intros s Hs.
      destruct (bres_step_coord a E s) as [Hc He].
      rewrite Ha, bres_axis_dominant in Hc, He
        by (unfold Int32.max_int in *; lia).
      simpl in Hc, He. split; [rewrite He; exact Hs |].
      apply (coord_neq a). rewrite Hc. intros Heq. symmetry in Heq.
      revert Heq. apply add_unit_neq, bres_env_unit.
    + assert (Hi : bres_err a (bres_init sv E) = Int32.shr1 (dm E))
        by (destruct a; reflexivity).
      rewrite Hi. apply shr1_half. lia.
Qed.

Lemma abs_of_wrap_cases z :
  0 <= abs_of (Int32.wrap z) <= Int32.max_int \/
  abs_of (Int32.wrap z) = Int32.min_int.
Proof.
  pose proof (wrap_range z) as Hr. unfold abs_of, Int32.neg.
  unfold Int32.min_int, Int32.max_int in *.
  destruct (Int32.wrap z <? 0) eqn:Hlt.
  - apply Z.ltb_lt in Hlt.
    destruct (Z.eq_dec (Int32.wrap z) (- 2 ^ 31)) as [E | NE].
    + right. rewrite E. reflexivity.
    + left. rewrite wrap_small; unfold Int32.min_int, Int32.max_int; lia.
  - apply Z.ltb_ge in Hlt. left. lia.
Qed.

Lemma dda_delta_cases a sv ev :
  0 <= coord a (delta (dda_env sv ev)) <= Int32.max_int \/
  coord a (delta (dda_env sv ev)) = Int32.min_int.
Proof. destruct a; apply abs_of_wrap_cases. Qed.

Lemma dda_env_max_delta sv ev :
  let E := dda_env sv ev in
  0 <= Int32.add (max_delta E) 1 ->
  0 <= max_delta E <= Int32.max_int - 1 /\
  (exists a, coord a (delta E) = max_delta E) /\
  (forall a, coord a (delta E) <= max_delta E).
Proof.
  intros E H.
  assert (Hex : (exists a, coord a (delta E) = max_delta E) /\
                (forall a, coord a (delta E) <= max_delta E)).
  { unfold E, dda_env. cbn [max_delta delta coord ix iy iz].
    set (u := abs_of _). set (v := abs_of _). set (w := abs_of _).
    destruct (v <? u) eqn:Hvu;
      [apply Z.ltb_lt in Hvu | apply Z.ltb_ge in Hvu];
      match goal with |- context [?x <? ?y] => destruct (x <? y) eqn:Hw end;
      [apply Z.ltb_lt in Hw | apply Z.ltb_ge in Hw
      |apply Z.ltb_lt in Hw | apply Z.ltb_ge in Hw];
      (split; [ first [ now exists AxisX | now exists AxisY | now exists AxisZ ]
              | intros []; simpl; lia ]). }
  split; [| exact Hex]. destruct Hex as [[a Ha] _].
  pose proof (dda_delta_cases a sv ev) as Hc. fold E in Hc. rewrite Ha in Hc.
  unfold Int32.min_int, Int32.max_int in *.
  destruct Hc as [Hc | Hc].
  - pose proof (add_one_nonneg (max_delta E)) as Hn.
    unfold Int32.min_int, Int32.max_int in Hn. lia.
  - exfalso. rewrite Hc in H. revert H. vm_compute. intros H. apply H. reflexivity.
Qed.

(** The end index lies [delta] unit steps from the start index, in [int]
    arithmetic. *)
Lemma dda_env_target a sv ev :
  let E := dda_env sv ev in
  Int32.min_int <= coord a ev <= Int32.max_int ->
  0 <= coord a (delta E) ->
  coord a ev = Int32.wrap (coord a sv + coord a (step E) * coord a (delta E)).
Proof.
  intros E Hev Hd.
  assert (G : forall s e : Z,
             Int32.min_int <= e <= Int32.max_int ->
             0 <= abs_of (Int32.sub e s) ->
             e = Int32.wrap (s + (if 0 <=? Int32.sub e s then 1 else -1)
                                 * abs_of (Int32.sub e s))).
  { intros s e He Ha. unfold Int32.sub in *. unfold abs_of, Int32.neg in *.
    destruct (wrap_eqm (e - s)) as [k Hk]. pose proof (wrap_range (e - s)) as Hr.
    unfold Int32.min_int, Int32.max_int in *. symmetry.
    destruct (0 <=? Int32.wrap (e - s)) eqn:H0;
      [apply Z.leb_le in H0 | apply Z.leb_gt in H0].
    - destruct (Int32.wrap (e - s) <? 0) eqn:H1;
        [apply Z.ltb_lt in H1; lia |].
      apply wrap_unique with (k := - k);
        unfold Int32.min_int, Int32.max_int; lia.
    - destruct (Int32.wrap (e - s) <? 0) eqn:H1;
        [| apply Z.ltb_ge in H1; lia].
      destruct (Z.eq_dec (Int32.wrap (e - s)) (- 2 ^ 31)) as [E0 | NE].
      + exfalso. rewrite E0 in Ha. revert Ha. vm_compute. intros Ha.
        apply Ha. reflexivity.
      + rewrite (wrap_small (- Int32.wrap (e - s)))
          by (unfold Int32.min_int, Int32.max_int; lia).
        apply wrap_unique with (k := - k);
          unfold Int32.min_int, Int32.max_int; lia. }
  destruct a; apply G; assumption.
Qed.

Lemma dda_count a E :
  unit (coord a (step E)) ->
  forall n s,
    Int32.min_int <= coord a (current s) <= Int32.max_int ->
    exists k,
      0 <= k <= Z.of_nat n /\
      coord a (current (Nat.iter n (dda_step E) s)) =
        Int32.wrap (coord a (current s) + coord a (step E) * k) /\
      (k = Z.of_nat n -> adjacent distinct (trace current (dda_step E) n s)).
Proof.
  intros Hu. induction n as [| n IH]; intros s Hs.
  - exists 0. split; [lia |]. split; [| intros _; exact I].
    simpl. rewrite Z.mul_0_r, Z.add_0_r, wrap_small by exact Hs. reflexivity.
  - rewrite Nat.iter_succ_r.
    change (trace current (dda_step E) (S n) s)
      with (current s :: trace current (dda_step E) n (dda_step E s)).
    pose proof (proj1 (dda_step_coord a E s)) as Hc.
    unfold dda_axis in Hc.
    destruct (max_delta E <=? _) in Hc; simpl in Hc.
    + assert (Hs' : Int32.min_int <= coord a (current (dda_step E s))
                    <= Int32.max_int) by (rewrite Hc; apply wrap_range).
      destruct (IH _ Hs') as [k [Hk [Hfin Hadj]]].
      exists (k + 1). split; [lia |]. split.
      * rewrite Hfin, Hc. unfold Int32.add. rewrite wrap_wrap_add.
        f_equal. lia.
      * intros Hkn. apply adjacent_cons_hd; [| apply Hadj; lia].
        intros b Hb. rewrite trace_hd in Hb. injection Hb as <-.
        apply (coord_neq a). rewrite Hc. intros Heq. symmetry in Heq.
        revert Heq. apply add_unit_neq, Hu.
    + assert (Hs' : Int32.min_int <= coord a (current (dda_step E s))
                    <= Int32.max_int) by (rewrite Hc; exact Hs).
      destruct (IH _ Hs') as [k [Hk [Hfin Hadj]]].
      exists k. split; [lia |]. split.
      * rewrite Hfin, Hc. reflexivity.
      * intros Hkn. lia.
Qed.

Lemma dda_trace_distinct sv ev :
  let E := dda_env sv ev in
  let n := Z.to_nat (max_delta E) in
  (forall a, Int32.min_int <= coord a sv <= Int32.max_int) ->
  (forall a, Int32.min_int <= coord a ev <= Int32.max_int) ->
  0 <= Int32.add (max_delta E) 1 ->
  current (Nat.iter n (dda_step E) (dda_init sv)) = ev ->
  adjacent distinct (trace current (dda_step E) n (dda_init sv)).
Proof.
  intros E n Hsv Hev H Hfin.
  destruct (dda_env_max_delta sv ev H) as [Hm [[a Ha] _]]. fold E in Hm, Ha.
  destruct (dda_count a E (dda_env_unit a sv ev) n (dda_init sv) (Hsv a))
    as [k [Hk [Hc Hadj]]].
  apply Hadj. unfold n in *. clear n. rewrite Hfin in Hc.
  pose proof (dda_env_target a sv ev (Hev a)) as Ht. fold E in Ht.
  rewrite Ht in Hc by lia. rewrite Ha in Hc.
  change (coord a (current (dda_init sv))) with (coord a sv) in Hc.
  rewrite Z2Nat.id in * by lia.
  pose proof (dda_env_unit a sv ev) as Hu. fold E in Hu.
  destruct (wrap_eqm (coord a sv + coord a (step E) * max_delta E)) as [i Hi].
  destruct (wrap_eqm (coord a sv + coord a (step E) * k)) as [j Hj].
  unfold Int32.max_int in *.
  destruct Hu as [Hu | Hu]; rewrite Hu in *; lia.
Qed.

Lemma cast_step_distinct T rs re st s :
  distinct (current_voxel s) (current_voxel (cast_step (cast_env T rs re st) s)).
Proof.
  destruct (cast_step_moves (cast_env T rs re st) s) as [a [Ha _]].
  apply (coord_neq a). rewrite Ha. intros Heq. symmetry in Heq.
  revert Heq. apply add_unit_neq, cast_env_unit.
Qed.

Lemma correction_distinct T rs re st :
  neg_ray T rs re st = true ->
  distinct (VoxelIndex T rs st)
           (Vector3i_add (VoxelIndex T rs st) (cast_diff T rs re st)).
Proof.
  unfold neg_ray. intros H. apply negb_true_iff in H.
  assert (Hex : exists a, coord a (cast_diff T rs re st) = -1).
  { unfold cast_diff in *. cbn [ix iy iz] in H.
    destruct (diff_of_cases (ix (VoxelIndex T rs st)) (ix (VoxelIndex T re st))
                (fx (Vector3f_sub re rs))) as [Hx | Hx];
      [| exists AxisX; exact Hx].
    destruct (diff_of_cases (iy (VoxelIndex T rs st)) (iy (VoxelIndex T re st))
                (fy (Vector3f_sub re rs))) as [Hy | Hy];
      [| exists AxisY; exact Hy].
    destruct (diff_of_cases (iz (VoxelIndex T rs st)) (iz (VoxelIndex T re st))
                (fz (Vector3f_sub re rs))) as [Hz | Hz];
      [| exists AxisZ; exact Hz].
    rewrite Hx, Hy, Hz in H. discriminate. }
  destruct Hex as [a Ha]. apply (coord_neq a).
  assert (Hc : coord a (Vector3i_add (VoxelIndex T rs st) (cast_diff T rs re st))
               = Int32.add (coord a (VoxelIndex T rs st)) (-1))
    by (rewrite <- Ha; destruct a; reflexivity).
  rewrite Hc. intros Heq. symmetry in Heq. revert Heq.
  apply add_unit_neq. auto.
Qed.

(** C8.  No path returned by one of the three routines holds the same index
    twice in a row. *)
Theorem returned_path_no_repetition T ray_start ray_end step_size :
  (forall fuel path,
      VoxelCasting T fuel ray_start ray_end step_size = Some path ->
      adjacent distinct path) /\
  (forall path,
      VoxelCastingBresenham T ray_start ray_end step_size = Returned path ->
      adjacent distinct path) /\
  (forall path,
      VoxelCastingDDA T ray_start ray_end step_size = Returned path ->
      adjacent distinct path).
Proof.
  split; [| split].
  - intros fuel path H. apply VoxelCasting_Some in H.
    destruct H as [[_ ->] | [_ [n [_ ->]]]]; [exact I |].
    assert (Ht : adjacent distinct
                   (trace current_voxel
                      (cast_step (cast_env T ray_start ray_end step_size)) n
                      (cast_start T ray_start ray_end step_size))).
    { apply (trace_adjacent _ _ (fun _ => True)); [| exact I].
      intros s _. split; [exact I | apply cast_step_distinct]. }
    destruct (neg_ray T ray_start ray_end step_size) eqn:Hneg; [| exact Ht].
    apply adjacent_cons_trace; [| exact Ht].
    unfold cast_start. rewrite Hneg. apply correction_distinct, Hneg.
  - intros path H. rewrite VoxelCastingBresenham_eq in H.
    apply bresenham_from_Returned in H. destruct H as [H [-> _]].
    apply bres_trace_distinct, H.
  - intros path H. rewrite VoxelCastingDDA_eq in H.
    apply dda_from_Returned in H. destruct H as [H [-> Hfin]].
    apply dda_trace_distinct; auto using VoxelIndexLround_range.
Qed.

Lemma returned_path_no_repetition_witness :
  adjacent distinct
    [mkVector3i 0 0 0; mkVector3i 1 0 0; mkVector3i 1 1 0; mkVector3i 2 1 0] /\
  adjacent distinct [mkVector3i 0 0 0; mkVector3i 1 0 0; mkVector3i 2 1 0] /\
  adjacent distinct [mkVector3i 0 0 0; mkVector3i 1 1 0; mkVector3i 2 1 0].
Proof.
  destruct (returned_path_no_repetition x86_64 (vec 0 0 0) (vec 2 1 0) one)
    as [H1 [H2 H3]].
  split; [| split].
  - apply (H1 4%nat). vm_compute. reflexivity.
  - apply H2. vm_compute. reflexivity.
  - apply H3. vm_compute. reflexivity.
Defined.

(** ** The integer routines on rays of moderate length *)

Section BresenhamAxis.

Variables (E : BresEnv) (a : axis) (c0 e0 : Z).

Hypothesis Hm : 1 <= dm E <= Int32.max_int - 1.
Hypothesis Hd : 0 <= bres_d a E <= dm E.
Hypothesis Hsg : unit (bres_s a E).
Hypothesis Hc0 : Int32.min_int <= c0 <= Int32.max_int.
Hypothesis Hc1 : Int32.min_int <= c0 + bres_s a E * bres_d a E <= Int32.max_int.
Hypothesis He0 : 0 <= e0 < dm E.

Lemma bres_axis_inv_step j s :
  0 <= j < dm E ->
  bres_axis_inv E a c0 e0 j s -> bres_axis_inv E a c0 e0 (j + 1) (bres_step E s).
Proof.
  intros Hj [k [Hk [Hc [He Hr]]]].
  destruct (bres_step_coord a E s) as [Hc' He'].
  unfold bres_axis in Hc', He'.
  unfold Int32.max_int, Int32.min_int in *.
  assert (Hsub : Int32.sub (bres_err a s) (bres_d a E)
                 = bres_err a s - bres_d a E).
  { apply wrap_small. unfold Int32.max_int, Int32.min_int. lia. }
  rewrite Hsub in Hc', He'.
  destruct (bres_err a s - bres_d a E <? 0) eqn:Hlt; simpl in Hc', He';
    [apply Z.ltb_lt in Hlt | apply Z.ltb_ge in Hlt].
  - assert (Hk1 : k + 1 <= bres_d a E) by nia.
    exists (k + 1). rewrite Hc', He'. unfold Int32.add.
    rewrite !wrap_small
      by (unfold Int32.max_int, Int32.min_int; destruct Hsg as [U | U];
          rewrite U in *; lia).
    repeat split; lia.
  - exists k. rewrite Hc', He'. repeat split; lia.
Qed.

Lemma bres_axis_run i : forall j s,
  0 <= j -> Z.of_nat i + j = dm E -> bres_axis_inv E a c0 e0 j s ->
  coord a (bres_pos (Nat.iter i (bres_step E) s)) = c0 + bres_s a E * bres_d a E.
Proof.
  induction i as [| i IH]; intros j s Hj Hij Hinv.
  - destruct Hinv as [k [Hk [Hc [He Hr]]]]. simpl. rewrite Hc.
    assert (k = bres_d a E) by nia. subst k. reflexivity.
  - rewrite Nat.iter_succ_r. apply (IH (j + 1)); [lia | lia |].
    apply bres_axis_inv_step; [lia | exact Hinv].
Qed.

End BresenhamAxis.

Section DDAAxis.

Variables (E : DDAEnv) (a : axis) (c0 : Z).

Hypothesis Hm : 1 <= max_delta E /\ 3 * max_delta E <= Int32.max_int.
Hypothesis Hd : 0 <= coord a (delta E) <= max_delta E.
Hypothesis Hsg : unit (coord a (step E)).
Hypothesis Hc0 : Int32.min_int <= c0 <= Int32.max_int.
Hypothesis Hc1 :
  Int32.min_int <= c0 + coord a (step E) * coord a (delta E) <= Int32.max_int.

Lemma dda_axis_inv_step j s :
  0 <= j < max_delta E ->
  dda_axis_inv E a c0 j s -> dda_axis_inv E a c0 (j + 1) (dda_step E s).
Proof.
  intros Hj [k [Hk [Hc [He Hr]]]].
  destruct (dda_step_coord a E s) as [Hc' He'].
  unfold dda_axis in Hc', He'.
  unfold Int32.max_int, Int32.min_int in *.
  assert (Hadd : Int32.add (coord a (error s)) (coord a (delta E))
                 = coord a (error s) + coord a (delta E)).
  { apply wrap_small. unfold Int32.max_int, Int32.min_int. lia. }
  rewrite Hadd in Hc', He'.
  assert (Hshl : Int32.shl1 (coord a (error s) + coord a (delta E))
                 = 2 * (coord a (error s) + coord a (delta E))).
  { apply wrap_small. unfold Int32.max_int, Int32.min_int. lia. }
  rewrite Hshl in Hc', He'.
  destruct (max_delta E <=? 2 * (coord a (error s) + coord a (delta E)))
    eqn:Hle; simpl in Hc', He';
    [apply Z.leb_le in Hle | apply Z.leb_gt in Hle].
  - assert (Hk1 : k + 1 <= coord a (delta E)) by nia.
    exists (k + 1). rewrite Hc', He'. unfold Int32.add, Int32.sub.
    rewrite !wrap_small
      by (unfold Int32.max_int, Int32.min_int; destruct Hsg as [U | U];
          rewrite U in *; lia).
    repeat split; lia.
  - exists k. rewrite Hc', He'. repeat split; lia.
Qed.

Lemma dda_axis_run i : forall j s,
  0 <= j -> Z.of_nat i + j = max_delta E -> dda_axis_inv E a c0 j s ->
  coord a (current (Nat.iter i (dda_step E) s)) =
  c0 + coord a (step E) * coord a (delta E).
Proof.
  induction i as [| i IH]; intros j s Hj Hij Hinv.
  - destruct Hinv as [k [Hk [Hc [He Hr]]]]. simpl. rewrite Hc.
    assert (k = coord a (delta E)) by nia. subst k. reflexivity.
  - rewrite Nat.iter_succ_r. apply (IH (j + 1)); [lia | lia |].
    apply dda_axis_inv_step; [lia | exact Hinv].
Qed.

End DDAAxis.

Lemma coord_ext u v : (forall a, coord a u = coord a v) -> u = v.
Proof.
  intros H. destruct u, v.
  pose proof (H AxisX). pose proof (H AxisY). pose proof (H AxisZ).
  simpl in *. congruence.
Qed.

Lemma max_abs_delta_coord a sv ev :
  Z.abs (coord a ev - coord a sv) <= max_abs_delta sv ev.
Proof. unfold max_abs_delta. destruct a; simpl; lia. Qed.

Lemma bres_env_in_range sv ev :
  in_int sv -> in_int ev -> max_abs_delta sv ev <= Int32.max_int - 1 ->
  let E := bres_env sv ev in
  (forall a, bres_d a E = Z.abs (coord a ev - coord a sv) /\
             coord a sv + bres_s a E * bres_d a E = coord a ev) /\
  dm E = max_abs_delta sv ev.
Proof.
  intros Hsv Hev Hb E.
  assert (G : forall s e, Int32.min_int <= s <= Int32.max_int ->
                          Int32.min_int <= e <= Int32.max_int ->
                          Z.abs (e - s) <= Int32.max_int - 1 ->
                          Int32.abs (Int32.sub e s) = Z.abs (e - s) /\
                          s + (if s <? e then 1 else -1) * Z.abs (e - s) = e).
  { intros s e Hs He Hd. unfold Int32.abs, Int32.sub.
    unfold Int32.min_int, Int32.max_int in *.
    rewrite (wrap_small (e - s)) by (unfold Int32.min_int, Int32.max_int; lia).
    rewrite wrap_small by (unfold Int32.min_int, Int32.max_int; lia).
    split; [reflexivity |].
    destruct (s <? e) eqn:Hlt; [apply Z.ltb_lt in Hlt | apply Z.ltb_ge in Hlt]; lia. }
  assert (Ha : forall a, bres_d a E = Z.abs (coord a ev - coord a sv) /\
                         coord a sv + bres_s a E * bres_d a E = coord a ev).
  { intros a. pose proof (max_abs_delta_coord a sv ev) as Hle.
    destruct (G (coord a sv) (coord a ev) (Hsv a) (Hev a) ltac:(lia)) as [G1 G2].
    assert (Hd : bres_d a E = Int32.abs (Int32.sub (coord a ev) (coord a sv)))
      by (destruct a; reflexivity).
    assert (Hs : bres_s a E = if coord a sv <? coord a ev then 1 else -1)
      by (destruct a; reflexivity).
    rewrite Hs, Hd, G1. auto. }
  split; [exact Ha |].
  change (dm E) with (Z.max (bres_d AxisX E) (Z.max (bres_d AxisY E) (bres_d AxisZ E))).
  rewrite (proj1 (Ha AxisX)), (proj1 (Ha AxisY)), (proj1 (Ha AxisZ)). reflexivity.
Qed.

Lemma bresenham_from_in_range sv ev :
  in_int sv -> in_int ev -> max_abs_delta sv ev <= Int32.max_int - 1 ->
  bresenham_from sv ev =
  Returned (trace bres_pos (bres_step (bres_env sv ev))
                  (Z.to_nat (max_abs_delta sv ev))
                  (bres_init sv (bres_env sv ev))).
Proof.
  intros Hsv Hev Hb.
  destruct (bres_env_in_range sv ev Hsv Hev Hb) as [Ha Hdm].
  set (E := bres_env sv ev) in *.
  assert (H0 : 0 <= dm E)
    by (rewrite Hdm; pose proof (max_abs_delta_coord AxisX sv ev); lia).
  assert (Hfin : bres_pos (Nat.iter (Z.to_nat (dm E)) (bres_step E) (bres_init sv E))
                 = ev).
  { apply coord_ext. intros a. destruct (Ha a) as [Hd Hs].
    pose proof (max_abs_delta_coord a sv ev) as Hle.
    assert (Hi : coord a (bres_pos (bres_init sv E)) = coord a sv)
      by (destruct a; reflexivity).
    assert (Hi' : bres_err a (bres_init sv E) = Int32.shr1 (dm E))
      by (destruct a; reflexivity).
    destruct (Z.eq_dec (dm E) 0) as [Hz | Hnz].
    - rewrite Hz. simpl Nat.iter. rewrite Hi. lia.
    - pose proof (shr1_half (dm E) ltac:(lia)) as Hhalf.
      rewrite <- Hs.
      apply (bres_axis_run E a (coord a sv) (Int32.shr1 (dm E))) with (j := 0).
      + lia.
      + lia.
      + apply bres_env_unit.
      + apply Hsv.
      + rewrite Hs. apply Hev.
      + exact Hhalf.
      + lia.
      + rewrite Z2Nat.id; lia.
      + exists 0. rewrite Hi, Hi'. split; [lia |]. split; [lia |].
        split; [lia | exact Hhalf]. }
  unfold bresenham_from. fold E. fold (bres_init sv E).
  assert (Hadd : Int32.add (dm E) 1 = dm E + 1).
  { apply wrap_small. unfold Int32.min_int, Int32.max_int in *. lia. }
  rewrite Hadd. destruct (dm E + 1 <? 0) eqn:Hlt;
    [apply Z.ltb_lt in Hlt; lia |].
  rewrite bres_loop_trace. unfold bres_pos in Hfin. rewrite Hfin.
  rewrite Vector3i_eqb_refl, Hdm. reflexivity.
Qed.

Lemma if_max u v w :
  (if w <? (if v <? u then u else v) then (if v <? u then u else v) else w)
  = Z.max u (Z.max v w).
Proof.
  destruct (v <? u) eqn:H1; [apply Z.ltb_lt in H1 | apply Z.ltb_ge in H1];
    match goal with |- context [?x <? ?y] => destruct (x <? y) eqn:H2 end;
    [apply Z.ltb_lt in H2 | apply Z.ltb_ge in H2
    |apply Z.ltb_lt in H2 | apply Z.ltb_ge in H2]; lia.
Qed.

Lemma dda_env_in_range sv ev :
  in_int sv -> in_int ev -> 3 * max_abs_delta sv ev <= Int32.max_int ->
  let E := dda_env sv ev in
  (forall a, coord a (delta E) = Z.abs (coord a ev - coord a sv) /\
             coord a sv + coord a (step E) * coord a (delta E) = coord a ev) /\
  max_delta E = max_abs_delta sv ev.
Proof.
  intros Hsv Hev Hb E.
  assert (G : forall s e, Int32.min_int <= s <= Int32.max_int ->
                          Int32.min_int <= e <= Int32.max_int ->
                          3 * Z.abs (e - s) <= Int32.max_int ->
                          abs_of (Int32.sub e s) = Z.abs (e - s) /\
                          s + (if 0 <=? Int32.sub e s then 1 else -1)
                              * Z.abs (e - s) = e).
  { intros s e Hs He Hd. unfold abs_of, Int32.neg, Int32.sub.
    unfold Int32.min_int, Int32.max_int in *.
    rewrite (wrap_small (e - s)) by (unfold Int32.min_int, Int32.max_int; lia).
    destruct (e - s <? 0) eqn:Hlt;
      [apply Z.ltb_lt in Hlt | apply Z.ltb_ge in Hlt];
      destruct (0 <=? e - s) eqn:Hle;
      try apply Z.leb_le in Hle; try apply Z.leb_gt in Hle; try lia.
    rewrite wrap_small by (unfold Int32.min_int, Int32.max_int; lia). lia. }
  assert (Ha : forall a, coord a (delta E) = Z.abs (coord a ev - coord a sv) /\
                         coord a sv + coord a (step E) * coord a (delta E)
                         = coord a ev).
  { intros a. pose proof (max_abs_delta_coord a sv ev) as Hle.
    destruct (G (coord a sv) (coord a ev) (Hsv a) (Hev a) ltac:(lia)) as [G1 G2].
    assert (Hd : coord a (delta E)
                 = abs_of (Int32.sub (coord a ev) (coord a sv)))
      by (destruct a; reflexivity).
    assert (Hs : coord a (step E)
                 = if 0 <=? Int32.sub (coord a ev) (coord a sv) then 1 else -1)
      by (destruct a; reflexivity).
    rewrite Hs, Hd, G1. auto. }
  split; [exact Ha |].
  assert (Hmax : max_delta E =
                 Z.max (coord AxisX (delta E))
                       (Z.max (coord AxisY (delta E)) (coord AxisZ (delta E)))).
  { unfold E, dda_env. cbn [max_delta delta coord ix iy iz]. apply if_max. }
  rewrite Hmax, (proj1 (Ha AxisX)), (proj1 (Ha AxisY)), (proj1 (Ha AxisZ)).
  reflexivity.
Qed.

Lemma dda_from_in_range sv ev :
  in_int sv -> in_int ev -> 3 * max_abs_delta sv ev <= Int32.max_int ->
  dda_from sv ev =
  Returned (trace current (dda_step (dda_env sv ev))
                  (Z.to_nat (max_abs_delta sv ev)) (dda_init sv)).
Proof.
  intros Hsv Hev Hb.
  destruct (dda_env_in_range sv ev Hsv Hev Hb) as [Ha Hmd].
  set (E := dda_env sv ev) in *.
  assert (H0 : 0 <= max_delta E)
    by (rewrite Hmd; pose proof (max_abs_delta_coord AxisX sv ev); lia).
  assert (Hfin : current (Nat.iter (Z.to_nat (max_delta E)) (dda_step E) (dda_init sv))
                 = ev).
  { apply coord_ext. intros a. destruct (Ha a) as [Hd Hs].
    pose proof (max_abs_delta_coord a sv ev) as Hle.
    assert (Hi' : coord a (error (dda_init sv)) = 0)
      by (destruct a; reflexivity).
    destruct (Z.eq_dec (max_delta E) 0) as [Hz | Hnz].
    - rewrite Hz. simpl Nat.iter.
      change (current (dda_init sv)) with sv. lia.
    - rewrite <- Hs.
      apply (dda_axis_run E a (coord a sv)) with (j := 0).
      + lia.
      + lia.
      + apply dda_env_unit.
      + apply Hsv.
      + rewrite Hs. apply Hev.
      + lia.
      + rewrite Z2Nat.id; lia.
      + exists 0. change (current (dda_init sv)) with sv. rewrite Hi'.
        split; [lia |]. split; [lia |]. split; lia. }
  unfold dda_from. fold E. fold (dda_init sv).
  assert (Hadd : Int32.add (max_delta E) 1 = max_delta E + 1).
  { apply wrap_small. unfold Int32.min_int, Int32.max_int in *. lia. }
  rewrite Hadd. destruct (max_delta E + 1 <? 0) eqn:Hlt;
    [apply Z.ltb_lt in Hlt; lia |].
  destruct (dda_loop_trace (Z.to_nat (max_delta E)) E (dda_init sv)) as [H1 H2].
  destruct (dda_loop _ _ _) as [l' s']. cbn [fst snd] in H1, H2.
  rewrite H1, H2, Hfin, Vector3i_eqb_refl, Hmd. reflexivity.
Qed.

Lemma bresenham_from_last sv ev path d :
  bresenham_from sv ev = Returned path -> last path d = ev.
Proof.
  intros H. apply bresenham_from_Returned in H. destruct H as [_ [-> Hfin]].
  rewrite trace_last. exact Hfin.
Qed.

Lemma dda_from_last sv ev path d :
  dda_from sv ev = Returned path -> last path d = ev.
Proof.
  intros H. apply dda_from_Returned in H. destruct H as [_ [-> Hfin]].
  rewrite trace_last. exact Hfin.
Qed.

(** X13.  When the two indices a routine has computed differ by at most
    2147483646 on every axis, [VoxelCastingBresenham] passes its [CHECK_EQ]
    and returns a path that ends at the end index; when they differ by at
    most 715827882 (a third of [INT_MAX], so that the doubled error term fits
    an [int]) so does [VoxelCastingDDA]. *)
Theorem check_passes_on_moderate_rays T ray_start ray_end step_size :
  let start_voxel := VoxelIndexLround T ray_start step_size in
  let end_voxel := VoxelIndexLround T ray_end step_size in
  (max_abs_delta start_voxel end_voxel <= 2147483646 ->
   exists path,
     VoxelCastingBresenham T ray_start ray_end step_size = Returned path /\
     forall d, last path d = end_voxel) /\
  (max_abs_delta start_voxel end_voxel <= 715827882 ->
   exists path,
     VoxelCastingDDA T ray_start ray_end step_size = Returned path /\
     forall d, last path d = end_voxel).
Proof.
  intros sv ev.
  assert (Hsv : in_int sv) by (intros a; apply VoxelIndexLround_range).
  assert (Hev : in_int ev) by (intros a; apply VoxelIndexLround_range).
  split; intros Hb.
  - pose proof (bresenham_from_in_range sv ev Hsv Hev Hb) as H.
    eexists. split.
    + rewrite VoxelCastingBresenham_eq. exact H.
    + intros d. exact (bresenham_from_last sv ev _ d H).
  - assert (Hb' : 3 * max_abs_delta sv ev <= Int32.max_int)
      by (unfold Int32.max_int; lia).
    pose proof (dda_from_in_range sv ev Hsv Hev Hb') as H.
    eexists. split.
    + rewrite VoxelCastingDDA_eq. exact H.
    + intros d. exact (dda_from_last sv ev _ d H).
Qed.

(** Scenario C, the ray from (0,0,0) to (2,2,2). *)
Lemma check_passes_on_moderate_rays_witness :
  (exists path,
      VoxelCastingBresenham x86_64 (vec 0 0 0) (vec 2 2 2) one = Returned path /\
      forall d, last path d = mkVector3i 2 2 2) /\
  (exists path,
      VoxelCastingDDA x86_64 (vec 0 0 0) (vec 2 2 2) one = Returned path /\
      forall d, last path d = mkVector3i 2 2 2).
Proof.
  pose proof (check_passes_on_moderate_rays x86_64 (vec 0 0 0) (vec 2 2 2) one)
    as [HB HD].
  split; [apply HB | apply HD]; vm_compute; intros H; discriminate H.
Defined.

(** ** Arithmetic of [float] on integers *)

Lemma digits2_pos_size p : digits2_pos p = Pos.size p.
Proof. induction p; simpl; congruence. Qed.

Lemma Zdigits2_log2 p : Zdigits2 (Zpos p) = Z.log2 (Zpos p) + 1.
Proof.
  simpl. rewrite digits2_pos_size. destruct p; simpl; try reflexivity;
    rewrite Pos.add_1_r; reflexivity.
Qed.

Lemma iter_pos_nat {A : Type} (f : A -> A) p x :
  iter_pos f p x = Nat.iter (Pos.to_nat p) f x.
Proof.
  revert x. induction p as [p IH | p IH |]; intros x.
  - rewrite Pos2Nat.inj_xI. cbn [iter_pos]. rewrite !IH.
    replace (S (2 * Pos.to_nat p)) with (Pos.to_nat p + S (Pos.to_nat p))%nat by lia.
    rewrite Nat.iter_add, Nat.iter_succ_r. reflexivity.
  - rewrite Pos2Nat.inj_xO. cbn [iter_pos]. rewrite !IH.
    replace (2 * Pos.to_nat p)%nat with (Pos.to_nat p + Pos.to_nat p)%nat by lia.
    rewrite Nat.iter_add. reflexivity.
  - reflexivity.
Qed.

Lemma shr_1_double z :
  0 < z -> shr_1 (Build_shr_record (2 * z) false false)
           = Build_shr_record z false false.
Proof. destruct z; try lia. intros _. reflexivity. Qed.

Lemma shr_nat_exact k : forall z,
  0 < z ->
  Nat.iter k shr_1 (Build_shr_record (z * 2 ^ Z.of_nat k) false false)
  = Build_shr_record z false false.
Proof.
  induction k as [| k IH]; intros z Hz.
  - simpl. rewrite Z.mul_1_r. reflexivity.
  - rewrite Nat.iter_succ_r.
    replace (z * 2 ^ Z.of_nat (S k)) with (2 * (z * 2 ^ Z.of_nat k))
      by (rewrite Nat2Z.inj_succ, Z.pow_succ_r by lia; ring).
    rewrite shr_1_double by (apply Z.mul_pos_pos; [lia | apply Z.pow_pos_nonneg; lia]).
    apply IH, Hz.
Qed.

Lemma shr_exact z e k :
  0 < z -> 0 <= k ->
  shr (Build_shr_record (z * 2 ^ k) false false) e k
  = (Build_shr_record z false false, e + k).
Proof.
  intros Hz Hk. destruct k as [| p | p]; try lia.
  - simpl. rewrite Z.mul_1_r, Z.add_0_r. reflexivity.
  - unfold shr. rewrite iter_pos_nat.
    rewrite <- (positive_nat_Z p) at 1. rewrite shr_nat_exact by exact Hz.
    reflexivity.
Qed.

Lemma log2_bounds N :
  1 <= N < 2 ^ 24 ->
  0 <= Z.log2 N <= 23 /\ 2 ^ Z.log2 N <= N < 2 ^ (Z.log2 N + 1).
Proof.
  intros H. pose proof (Z.log2_spec N ltac:(lia)) as Hs.
  pose proof (Z.log2_nonneg N) as H0.
  rewrite <- Z.add_1_r in Hs. split; [| exact Hs]. split; [exact H0 |].
  destruct (Z.le_gt_cases (Z.log2 N) 23) as [Hle | Hgt]; [exact Hle |].
  exfalso. assert (2 ^ 24 <= 2 ^ Z.log2 N) by (apply Z.pow_le_mono_r; lia). lia.
Qed.

Lemma normalize_exact N :
  1 <= N < 2 ^ 24 ->
  int_float (binary_normalize 24 128 (N * 2 ^ 23) (-23) false) N.
Proof.
  intros HN. destruct (log2_bounds N HN) as [HL [Hlo Hhi]].
  set (L := Z.log2 N) in *.
  assert (Hz : 0 < N * 2 ^ (23 - L))
    by (apply Z.mul_pos_pos; [lia | apply Z.pow_pos_nonneg; lia]).
  assert (Hsplit : N * 2 ^ 23 = N * 2 ^ (23 - L) * 2 ^ L).
  { rewrite <- Z.mul_assoc, <- Z.pow_add_r by lia. f_equal. f_equal. lia. }
  assert (Hlog : Z.log2 (N * 2 ^ 23) = 23 + L)
    by (apply Z.log2_mul_pow2; lia).
  assert (Hlog' : Z.log2 (N * 2 ^ (23 - L)) = 23).
  { rewrite Z.log2_mul_pow2 by lia. fold L. lia. }
  destruct (N * 2 ^ 23) as [| P |] eqn:HP; try lia.
  destruct (N * 2 ^ (23 - L)) as [| Q |] eqn:HQ; try lia.
  cbn [binary_normalize]. unfold binary_round.
  assert (Hd : Zpos (digits2_pos P) = L + 24).
  { change (Zpos (digits2_pos P)) with (Zdigits2 (Zpos P)).
    rewrite Zdigits2_log2, Hlog. lia. }
  assert (Hd' : Zpos (digits2_pos Q) = 24).
  { change (Zpos (digits2_pos Q)) with (Zdigits2 (Zpos Q)).
    rewrite Zdigits2_log2, Hlog'. lia. }
  rewrite Hd.
  assert (Hf : fexp 24 128 (L + 24 + -23) = L - 23) by (unfold fexp, emin; lia).
  rewrite Hf.
  assert (Hsh : shl_align P (-23) (L - 23) = (P, -23)).
  { unfold shl_align. destruct (L - 23 - -23) eqn:E; try reflexivity. lia. }
  rewrite Hsh. unfold binary_round_aux, shr_fexp.
  cbn [Zdigits2 shr_record_of_loc]. rewrite Hd, Hf.
  replace (L - 23 - -23) with L by lia.
  rewrite Hsplit, shr_exact by lia.
  cbn [shr_m loc_of_shr_record round_nearest_even Zdigits2].
  rewrite Hd'.
  replace (fexp 24 128 (24 + (-23 + L)) - (-23 + L)) with 0
    by (unfold fexp, emin; lia).
  cbn [shr shr_m shr_record_of_loc].
  replace (-23 + L <=? 128 - 24) with true by (symmetry; apply Z.leb_le; lia).
  exists Q, (-23 + L). split; [reflexivity |]. split; [lia |].
  split.
  - rewrite <- HQ. f_equal. f_equal. lia.
  - rewrite <- HQ.
    assert (H23 : 2 ^ 23 = 2 ^ (23 - L) * 2 ^ L)
      by (rewrite <- Z.pow_add_r by lia; f_equal; lia).
    assert (H24 : 2 ^ 24 = 2 ^ (23 - L) * 2 ^ (L + 1))
      by (rewrite <- Z.pow_add_r by lia; f_equal; lia).
    assert (0 < 2 ^ (23 - L)) by (apply Z.pow_pos_nonneg; lia).
    rewrite H23, H24. nia.
Qed.

Lemma nat_iter_xO k m : Zpos (Nat.iter k xO m) = Zpos m * 2 ^ Z.of_nat k.
Proof.
  induction k as [| k IH].
  - simpl. lia.
  - rewrite Nat2Z.inj_succ, Z.pow_succ_r by lia.
    change (Nat.iter (S k) xO m) with (xO (Nat.iter k xO m)).
    rewrite Pos2Z.inj_xO, IH. ring.
Qed.

Lemma pos_iter_xO m d : Zpos (Pos.iter xO m d) = Zpos m * 2 ^ Zpos d.
Proof.
  rewrite Pos2Nat.inj_iter. fold (Nat.iter (Pos.to_nat d) xO m).
  rewrite nat_iter_xO, positive_nat_Z. reflexivity.
Qed.

Lemma shl_align_value m e e' :
  e' <= e -> Zpos (fst (shl_align m e e')) = Zpos m * 2 ^ (e - e').
Proof.
  intros H. unfold shl_align. destruct (e' - e) as [| d | d] eqn:E; try lia.
  - replace (e - e') with 0 by lia. simpl. lia.
  - cbn [fst]. rewrite pos_iter_xO. f_equal. f_equal. lia.
Qed.

Lemma add_one_normalize x n :
  int_float x n ->
  SFadd 24 128 x F1c = binary_normalize 24 128 ((n + 1) * 2 ^ 23) (-23) false.
Proof.
  intros [m [e [-> [He [Hm Hr]]]]]. unfold F1c, SFadd.
  rewrite Z.min_r by lia.
  change (fst (shl_align 8388608 (-23) (-23))) with 8388608%positive.
  cbn [cond_Zopp]. rewrite shl_align_value by lia.
  f_equal. rewrite Hm, <- Z.mul_assoc, <- Z.pow_add_r by lia.
  replace (- e + (e - -23)) with 23 by lia. lia.
Qed.

Lemma int_float_add_one x n :
  int_float x n -> 1 <= n -> n + 1 < 2 ^ 24 ->
  int_float (SFadd 24 128 x F1c) (n + 1).
Proof.
  intros Hx H1 H2. rewrite (add_one_normalize x n Hx).
  apply normalize_exact. lia.
Qed.

Lemma int_float_exp_le x n y k :
  int_float x n -> int_float y k -> 0 < n <= k ->
  exists m e m' e',
    x = S754_finite false m e /\ y = S754_finite false m' e' /\ e <= e' /\
    (e = e' -> (n < k -> (m < m')%positive) /\ (n = k -> m = m')).
Proof.
  intros [m [e [-> [He [Hm Hr]]]]] [m' [e' [-> [He' [Hm' Hr']]]]] Hnk.
  exists m, e, m', e'. split; [reflexivity |]. split; [reflexivity |].
  assert (Hle : e <= e').
  { destruct (Z.le_gt_cases e e') as [H | H]; [exact H | exfalso].
    assert (Hp : 2 ^ (- e') = 2 ^ (- e) * 2 ^ (e - e'))
      by (rewrite <- Z.pow_add_r by lia; f_equal; lia).
    assert (Hq : 2 ^ 1 <= 2 ^ (e - e')) by (apply Z.pow_le_mono_r; lia).
    assert (0 < 2 ^ (- e)) by (apply Z.pow_pos_nonneg; lia).
    change (2 ^ 1) with 2 in Hq. change (2 ^ 24) with (2 * 2 ^ 23) in *.
    rewrite Hp in Hm'. nia. }
  split; [exact Hle |]. intros ->.
  assert (0 < 2 ^ (- e')) by (apply Z.pow_pos_nonneg; lia).
  split.
  - intros Hlt. apply Pos2Z.pos_lt_pos. nia.
  - intros ->. apply Pos2Z.inj. lia.
Qed.

Lemma int_float_unique x y n :
  0 < n -> int_float x n -> int_float y n -> x = y.
Proof.
  intros Hn Hx Hy.
  destruct (int_float_exp_le x n y n Hx Hy ltac:(lia))
    as [m [e [m' [e' [-> [-> [H1 H2]]]]]]].
  destruct (int_float_exp_le _ n _ n Hy Hx ltac:(lia))
    as [m1 [e1 [m1' [e1' [E1 [E2 [H3 _]]]]]]].
  injection E1 as <- <-. injection E2 as <- <-.
  assert (e = e') by lia. subst e'.
  destruct (H2 eq_refl) as [_ Hm]. rewrite (Hm eq_refl). reflexivity.
Qed.

Lemma SFltb_int_float_lt x n y k :
  int_float x n -> int_float y k -> 0 < n < k -> SFltb x y = true.
Proof.
  intros Hx Hy Hnk.
  destruct (int_float_exp_le x n y k Hx Hy ltac:(lia))
    as [m [e [m' [e' [-> [-> [H1 H2]]]]]]].
  unfold SFltb, SFcompare.
  destruct (Z.compare_spec e e') as [E | E | E]; [| reflexivity | lia].
  destruct (H2 E) as [Hlt _]. specialize (Hlt ltac:(lia)).
  apply Pos.compare_lt_iff in Hlt. unfold Pos.compare in Hlt. rewrite Hlt.
  reflexivity.
Qed.

Lemma SFltb_int_float_irrefl x n : int_float x n -> SFltb x x = false.
Proof.
  intros [m [e [-> _]]]. unfold SFltb, SFcompare.
  rewrite Z.compare_refl. fold (Pos.compare m m). rewrite Pos.compare_refl.
  reflexivity.
Qed.

Lemma SFltb_int_float_FLT_MAX x n :
  int_float x n -> SFltb x (S754_finite false 16777215 104) = true.
Proof.
  intros [m [e [-> [He _]]]]. unfold SFltb, SFcompare.
  destruct (Z.compare_spec e 104); [lia | reflexivity | lia].
Qed.

Lemma int_float_1 : int_float F1c 1.
Proof. exists 8388608%positive, (-23). repeat split; try lia; reflexivity. Qed.

Lemma int_float_max : int_float (S754_finite false 16777215 0) (2 ^ 24 - 1).
Proof. exists 16777215%positive, 0. repeat split; try lia; reflexivity. Qed.

(** ** A ray on which [VoxelCasting] does not terminate *)

Lemma Vector3i_eqb_false a b : a <> b -> Vector3i_eqb a b = false.
Proof.
  intros H. destruct (Vector3i_eqb a b) eqn:E; [| reflexivity].
  apply Vector3i_eqb_eq in E. contradiction.
Qed.

Lemma stepping_y_step s :
  tMaxZ s = Float32.FLT_MAX -> stepping_y s ->
  stepping_x (cast_step corner_env s) /\
  tMaxZ (cast_step corner_env s) = Float32.FLT_MAX /\
  current_voxel s <> end_voxel corner_env.
Proof.
  intros HZ [n [Hn [Hx [HY [Hix Hiy]]]]].
  assert (Hstep : cast_step corner_env s = move_y corner_env s).
  { unfold cast_step, Float32.ltb. rewrite HY, HZ.
    rewrite (SFltb_int_float_irrefl _ _ Hx).
    unfold Float32.FLT_MAX. rewrite (SFltb_int_float_FLT_MAX _ _ Hx).
    reflexivity. }
  rewrite Hstep. split; [| split].
  - exists n. cbn [move_y tMaxX tMaxY current_voxel ix iy tDeltaY step_y corner_env].
    unfold Float32.add. rewrite HY, Hix, Hiy. unfold Int32.add.
    rewrite wrap_small by (unfold Int32.min_int, Int32.max_int; lia).
    repeat split; try lia; assumption.
  - exact HZ.
  - intros E. rewrite E in Hix, Hiy. cbn in Hix, Hiy. lia.
Qed.

Lemma stepping_x_step s :
  tMaxZ s = Float32.FLT_MAX -> stepping_x s ->
  (stepping_y (cast_step corner_env s) \/ stuck (cast_step corner_env s)) /\
  tMaxZ (cast_step corner_env s) = Float32.FLT_MAX /\
  current_voxel s <> end_voxel corner_env.
Proof.
  intros HZ [n [Hn [Hx [HY [Hix Hiy]]]]].
  assert (Hend : current_voxel s <> end_voxel corner_env).
  { intros E. rewrite E in Hix, Hiy. cbn in Hix, Hiy. lia. }
  assert (Hlt : SFltb (tMaxX s) (tMaxY s) = true /\
                (n + 1 < 2 ^ 24 -> int_float (tMaxY s) (n + 1)) /\
                (n + 1 = 2 ^ 24 -> tMaxY s = F224)).
  { rewrite HY. destruct (Z.eq_dec (n + 1) (2 ^ 24)) as [E | NE].
    - assert (En : n = 2 ^ 24 - 1) by lia. subst n.
      rewrite (int_float_unique _ _ (2 ^ 24 - 1) ltac:(lia) Hx int_float_max).
      split; [reflexivity |]. split; [lia | intros _; reflexivity].
    - pose proof (int_float_add_one _ _ Hx ltac:(lia) ltac:(lia)) as Hy.
      split; [| split; [intros _; exact Hy | lia]].
      apply (SFltb_int_float_lt _ n _ (n + 1) Hx Hy). lia. }
  destruct Hlt as [Hlt [Hy1 Hy2]].
  assert (Hstep : cast_step corner_env s = move_x corner_env s).
  { unfold cast_step, Float32.ltb. rewrite Hlt, HZ.
    unfold Float32.FLT_MAX. rewrite (SFltb_int_float_FLT_MAX _ _ Hx).
    reflexivity. }
  rewrite Hstep. split; [| split; [exact HZ | exact Hend]].
  assert (Hix' : Int32.add (ix (current_voxel s)) 1 = n).
  { rewrite Hix. unfold Int32.add.
    rewrite wrap_small by (unfold Int32.min_int, Int32.max_int; lia). lia. }
  destruct (Z.eq_dec (n + 1) (2 ^ 24)) as [E | NE].
  - right. unfold stuck.
    cbn [move_x tMaxX tMaxY current_voxel ix iy tDeltaX step_x corner_env].
    change (Float32.add (tMaxX s) F1c) with (SFadd 24 128 (tMaxX s) F1c).
    rewrite <- HY, Hix', (Hy2 E). repeat split. lia.
  - left. exists (n + 1).
    cbn [move_x tMaxX tMaxY current_voxel ix iy tDeltaX step_x corner_env].
    change (Float32.add (tMaxX s) F1c) with (SFadd 24 128 (tMaxX s) F1c).
    rewrite <- HY, Hix', Hiy.
    repeat split; try lia. apply Hy1. lia.
Qed.

Lemma stuck_step s :
  tMaxZ s = Float32.FLT_MAX -> stuck s ->
  stuck (cast_step corner_env s) /\
  tMaxZ (cast_step corner_env s) = Float32.FLT_MAX /\
  current_voxel s <> end_voxel corner_env.
Proof.
  intros HZ [HX [HY Hix]].
  assert (Hstep : cast_step corner_env s = move_y corner_env s).
  { unfold cast_step. rewrite HX, HY, HZ. reflexivity. }
  rewrite Hstep. split; [| split].
  - unfold stuck.
    cbn [move_y tMaxX tMaxY current_voxel ix iy tDeltaY step_y corner_env].
    rewrite HX, HY, Hix. repeat split.
  - exact HZ.
  - intros E. rewrite E in Hix. cbn in Hix. lia.
Qed.

Lemma runs_away_step s :
  runs_away s ->
  runs_away (cast_step corner_env s) /\ current_voxel s <> end_voxel corner_env.
Proof.
  intros [HZ [H | [H | H]]].
  - destruct (stepping_y_step s HZ H) as [H1 [H2 H3]].
    split; [split; auto | exact H3].
  - destruct (stepping_x_step s HZ H) as [H1 [H2 H3]].
    split; [split; [exact H2 | tauto] | exact H3].
  - destruct (stuck_step s HZ H) as [H1 [H2 H3]].
    split; [split; auto | exact H3].
Qed.

Lemma runs_away_for_ever fuel : forall s,
  runs_away s -> cast_loop fuel corner_env s = None.
Proof.
  induction fuel as [| fuel IH]; intros s Hs;
    destruct (runs_away_step s Hs) as [Hs' Hne]; simpl;
    rewrite Vector3i_eqb_false by (intros E; apply Hne; symmetry; exact E).
  - reflexivity.
  - rewrite (IH _ Hs'). reflexivity.
Qed.

(** C6.  The ray from (0, 0, 0) to (1, -1, 0) with step size 1 goes in the
    negative y direction and ends on the corner of its end voxel (1, -1, 0).
    The correction before the loop moves y to -1 at once; [tMaxY], which is
    the distance to the far border of the start voxel, is 1 like [tMaxX], so
    the first iteration moves y again, to -2, and the end voxel is never
    reached: for no amount of fuel does [VoxelCasting] return.  Entered at the
    uncorrected index, the same loop stops after two iterations. *)
Theorem VoxelCasting_diverges T :
  exists ray_start ray_end step_size,
    no_nan ray_start /\ no_nan ray_end /\
    Float32.ltb Float32.zero step_size = true /\
    Float32.ltb (fy (Vector3f_sub ray_end ray_start)) Float32.zero = true /\
    (forall fuel, VoxelCasting T fuel ray_start ray_end step_size = None) /\
    cast_loop 2 (cast_env T ray_start ray_end step_size)
              (cast_tMax T ray_start ray_end step_size
                         (VoxelIndex T ray_start step_size))
    = Some [mkVector3i 0 (-1) 0; mkVector3i 1 (-1) 0].
Proof.
  exists (vec 0 0 0), (vec 1 (-1) 0), one.
  split; [vm_compute; auto |]. split; [vm_compute; auto |].
  split; [vm_compute; reflexivity |]. split; [vm_compute; reflexivity |].
  split; [| vm_compute; reflexivity].
  intros fuel.
  assert (HE : cast_env T (vec 0 0 0) (vec 1 (-1) 0) one = corner_env)
    by (vm_compute; reflexivity).
  assert (Hs : cast_start T (vec 0 0 0) (vec 1 (-1) 0) one
               = mkCastState (mkVector3i 0 (-1) 0) F1c F1c Float32.FLT_MAX)
    by (vm_compute; reflexivity).
  assert (Hne : Vector3i_eqb (VoxelIndex T (vec 0 0 0) one)
                             (VoxelIndex T (vec 1 (-1) 0) one) = false)
    by (vm_compute; reflexivity).
  unfold VoxelCasting. fold (cast_start T (vec 0 0 0) (vec 1 (-1) 0) one).
  rewrite Hne, HE, Hs, runs_away_for_ever; [reflexivity |].
  split; [reflexivity |]. left. exists 1.
  split; [lia |]. split; [exact int_float_1 |]. repeat split.
Qed.

(** * Further properties of the three routines *)

(** ** Elements of a trace *)

Lemma trace_map_seq {S A : Type} (pos : S -> A) (f : S -> S) n : forall s,
  trace pos f n s = map (fun j => pos (Nat.iter j f s)) (seq 0 (Datatypes.S n)).
Proof.
  induction n as [| n IH]; intros s.
  - reflexivity.
  - change (trace pos f (Datatypes.S n) s) with (pos s :: trace pos f n (f s)).
    rewrite IH. change (seq 0 (Datatypes.S (Datatypes.S n)))
      with (0%nat :: seq 1 (Datatypes.S n)).
    rewrite <- seq_shift.
    change (map (fun j => pos (Nat.iter j f s))
                (0%nat :: map Datatypes.S (seq 0 (Datatypes.S n))))
      with (pos s :: map (fun j => pos (Nat.iter j f s))
                         (map Datatypes.S (seq 0 (Datatypes.S n)))).
    rewrite map_map. f_equal.
    apply map_ext. intros j. rewrite Nat.iter_succ_r. reflexivity.
Qed.

Lemma trace_nth_error {S A : Type} (pos : S -> A) (f : S -> S) n s j v :
  nth_error (trace pos f n s) j = Some v ->
  (j <= n)%nat /\ v = pos (Nat.iter j f s).
Proof.
  intros H.
  assert (Hj : (j < Datatypes.S n)%nat).
  { rewrite <- (trace_length pos f n s). apply nth_error_Some. congruence. }
  split; [lia |].
  rewrite trace_map_seq in H.
  rewrite (nth_error_map (fun j => pos (Nat.iter j f s))) in H.
  rewrite nth_error_seq in H.
  destruct (j <? Datatypes.S n)%nat eqn:E; [| apply Nat.ltb_ge in E; lia].
  simpl in H. congruence.
Qed.

Lemma trace_Forall {S A : Type} (pos : S -> A) (f : S -> S) (P : A -> Prop) n s :
  (forall j, (j <= n)%nat -> P (pos (Nat.iter j f s))) ->
  Forall P (trace pos f n s).
Proof.
  intros H. rewrite trace_map_seq. apply Forall_map, Forall_forall.
  intros j Hj. apply in_seq in Hj. apply H. lia.
Qed.

(** ** Where the integer routines are after [j] iterations *)

Lemma bres_axis_inv_at E a c0 e0 s0 :
  1 <= dm E <= Int32.max_int - 1 ->
  0 <= bres_d a E <= dm E ->
  unit (bres_s a E) ->
  Int32.min_int <= c0 <= Int32.max_int ->
  Int32.min_int <= c0 + bres_s a E * bres_d a E <= Int32.max_int ->
  0 <= e0 < dm E ->
  bres_axis_inv E a c0 e0 0 s0 ->
  forall j, Z.of_nat j <= dm E ->
            bres_axis_inv E a c0 e0 (Z.of_nat j) (Nat.iter j (bres_step E) s0).
Proof.
  intros Hm Hd Hs Hc0 Hc1 He0 H0. induction j as [| j IH]; intros Hj.
  - exact H0.
  - rewrite Nat2Z.inj_succ, <- Z.add_1_r.
    change (Nat.iter (S j) (bres_step E) s0)
      with (bres_step E (Nat.iter j (bres_step E) s0)).
    apply bres_axis_inv_step; try assumption; try lia. apply IH. lia.
Qed.

Lemma dda_axis_inv_at E a c0 s0 :
  1 <= max_delta E /\ 3 * max_delta E <= Int32.max_int ->
  0 <= coord a (delta E) <= max_delta E ->
  unit (coord a (step E)) ->
  Int32.min_int <= c0 <= Int32.max_int ->
  Int32.min_int <= c0 + coord a (step E) * coord a (delta E) <= Int32.max_int ->
  dda_axis_inv E a c0 0 s0 ->
  forall j, Z.of_nat j <= max_delta E ->
            dda_axis_inv E a c0 (Z.of_nat j) (Nat.iter j (dda_step E) s0).
Proof.
  intros Hm Hd Hs Hc0 Hc1 H0. induction j as [| j IH]; intros Hj.
  - exact H0.
  - rewrite Nat2Z.inj_succ, <- Z.add_1_r.
    change (Nat.iter (S j) (dda_step E) s0)
      with (dda_step E (Nat.iter j (dda_step E) s0)).
    apply dda_axis_inv_step; try assumption; try lia. apply IH. lia.
Qed.

Lemma direction_unit s e : unit (direction s e).
Proof. unfold unit, direction. destruct (s <=? e); auto. Qed.

Lemma direction_abs s e : s + direction s e * Z.abs (e - s) = e.
Proof.
  unfold direction. destruct (s <=? e) eqn:H;
    [apply Z.leb_le in H | apply Z.leb_gt in H]; lia.
Qed.

(** After [j] iterations on a ray of moderate length, an axis has moved [k]
    times towards the end index, and [k = j] on an axis of largest
    difference. *)
Lemma bres_position sv ev a j :
  in_int sv -> in_int ev -> max_abs_delta sv ev <= Int32.max_int - 1 ->
  Z.of_nat j <= max_abs_delta sv ev ->
  exists k,
    0 <= k <= Z.abs (coord a ev - coord a sv) /\
    coord a (bres_pos (Nat.iter j (bres_step (bres_env sv ev))
                                (bres_init sv (bres_env sv ev)))) =
      coord a sv + direction (coord a sv) (coord a ev) * k /\
    (Z.abs (coord a ev - coord a sv) = max_abs_delta sv ev -> k = Z.of_nat j).
Proof.
  intros Hsv Hev Hb Hj.
  destruct (bres_env_in_range sv ev Hsv Hev Hb) as [Ha Hdm].
  set (E := bres_env sv ev) in *. destruct (Ha a) as [Hd Hs].
  pose proof (max_abs_delta_coord a sv ev) as Hle.
  assert (Hi : coord a (bres_pos (bres_init sv E)) = coord a sv)
    by (destruct a; reflexivity).
  assert (Hi' : bres_err a (bres_init sv E) = Int32.shr1 (dm E))
    by (destruct a; reflexivity).
  destruct (Z.eq_dec (dm E) 0) as [Hz | Hnz].
  - assert (j = 0%nat) by lia. subst j. exists 0. simpl Nat.iter.
    rewrite Hi. split; [lia |]. split; lia.
  - pose proof (shr1_half (dm E) ltac:(lia)) as Hhalf.
    assert (H0 : bres_axis_inv E a (coord a sv) (Int32.shr1 (dm E)) 0
                               (bres_init sv E)).
    { exists 0. rewrite Hi, Hi'. split; [lia |]. split; [lia |].
      split; [lia | exact Hhalf]. }
    pose proof (bres_axis_inv_at E a (coord a sv) (Int32.shr1 (dm E))
                  (bres_init sv E) ltac:(lia) ltac:(lia) (bres_env_unit a sv ev)
                  (Hsv a) ltac:(rewrite Hs; apply Hev) Hhalf H0 j ltac:(lia))
      as [k [Hk [Hc [He Hr]]]].
    exists k. rewrite Hd in Hk. split; [exact Hk |]. split.
    + rewrite Hc. f_equal.
      assert (Hsd : bres_s a E = if coord a sv <? coord a ev then 1 else -1)
        by (destruct a; reflexivity).
      rewrite Hsd. unfold direction.
      destruct (coord a sv <? coord a ev) eqn:H1;
        destruct (coord a sv <=? coord a ev) eqn:H2;
        try apply Z.ltb_lt in H1; try apply Z.ltb_ge in H1;
        try apply Z.leb_le in H2; try apply Z.leb_gt in H2; lia.
    + intros Hmax. rewrite Hd, Hmax, <- Hdm in He. nia.
Qed.

Lemma dda_position sv ev a j :
  in_int sv -> in_int ev -> 3 * max_abs_delta sv ev <= Int32.max_int ->
  Z.of_nat j <= max_abs_delta sv ev ->
  exists k,
    0 <= k <= Z.abs (coord a ev - coord a sv) /\
    coord a (current (Nat.iter j (dda_step (dda_env sv ev)) (dda_init sv))) =
      coord a sv + direction (coord a sv) (coord a ev) * k /\
    (Z.abs (coord a ev - coord a sv) = max_abs_delta sv ev -> k = Z.of_nat j).
Proof.
  intros Hsv Hev Hb Hj.
  destruct (dda_env_in_range sv ev Hsv Hev Hb) as [Ha Hmd].
  set (E := dda_env sv ev) in *. destruct (Ha a) as [Hd Hs].
  pose proof (max_abs_delta_coord a sv ev) as Hle.
  assert (Hi' : coord a (error (dda_init sv)) = 0) by (destruct a; reflexivity).
  destruct (Z.eq_dec (max_delta E) 0) as [Hz | Hnz].
  - assert (j = 0%nat) by lia. subst j. exists 0. simpl Nat.iter.
    change (current (dda_init sv)) with sv. split; [lia |]. split; lia.
  - assert (H0 : dda_axis_inv E a (coord a sv) 0 (dda_init sv)).
    { exists 0. change (current (dda_init sv)) with sv. rewrite Hi'.
      split; [lia |]. split; [lia |]. split; lia. }
    pose proof (dda_axis_inv_at E a (coord a sv) (dda_init sv)
                  ltac:(lia) ltac:(lia) (dda_env_unit a sv ev)
                  (Hsv a) ltac:(rewrite Hs; apply Hev) H0 j ltac:(lia))
      as [k [Hk [Hc [He Hr]]]].
    exists k. rewrite Hd in Hk. split; [exact Hk |]. split.
    + rewrite Hc.
      destruct (Z.eq_dec k 0) as [-> | Hk0]; [lia |]. f_equal. f_equal.
      pose proof (direction_abs (coord a sv) (coord a ev)) as Hdir.
      pose proof (direction_unit (coord a sv) (coord a ev)) as Hu.
      pose proof (dda_env_unit a sv ev) as Hu'. fold E in Hu'.
      rewrite Hd in Hs. unfold unit in *. lia.
    + intros Hmax. rewrite Hd, Hmax, <- Hmd in He. nia.
Qed.

Lemma adjacent_Forall {A : Type} (R Q : A -> A -> Prop) (P : A -> Prop) l :
  (forall a b, R a b -> P a -> P b -> Q a b) ->
  adjacent R l -> Forall P l -> adjacent Q l.
Proof.
  intros H. induction l as [| a l IH]; intros HR HP; [exact I |].
  destruct l as [| b l]; [exact I |].
  apply adjacent_cons_inv in HR. destruct HR as [Hab HR].
  inversion HP as [| ? ? Pa HP']. subst.
  inversion HP' as [| ? ? Pb _]. subst.
  split; [apply H; assumption | apply IH; assumption].
Qed.

Lemma bres_returned_in_range T ray_start ray_end step_size path :
  let sv := VoxelIndexLround T ray_start step_size in
  let ev := VoxelIndexLround T ray_end step_size in
  max_abs_delta sv ev <= 2147483646 ->
  VoxelCastingBresenham T ray_start ray_end step_size = Returned path ->
  path = trace bres_pos (bres_step (bres_env sv ev))
               (Z.to_nat (max_abs_delta sv ev)) (bres_init sv (bres_env sv ev)).
Proof.
  intros sv ev Hb H. rewrite VoxelCastingBresenham_eq in H.
  rewrite bresenham_from_in_range in H.
  - injection H as <-. reflexivity.
  - intros a. apply VoxelIndexLround_range.
  - intros a. apply VoxelIndexLround_range.
  - exact Hb.
Qed.

Lemma dda_returned_in_range T ray_start ray_end step_size path :
  let sv := VoxelIndexLround T ray_start step_size in
  let ev := VoxelIndexLround T ray_end step_size in
  max_abs_delta sv ev <= 715827882 ->
  VoxelCastingDDA T ray_start ray_end step_size = Returned path ->
  path = trace current (dda_step (dda_env sv ev))
               (Z.to_nat (max_abs_delta sv ev)) (dda_init sv).
Proof.
  intros sv ev Hb H. rewrite VoxelCastingDDA_eq in H.
  rewrite dda_from_in_range in H.
  - injection H as <-. reflexivity.
  - intros a. apply VoxelIndexLround_range.
  - intros a. apply VoxelIndexLround_range.
  - fold sv ev. unfold Int32.max_int. lia.
Qed.

Lemma max_abs_delta_nonneg sv ev : 0 <= max_abs_delta sv ev.
Proof. pose proof (max_abs_delta_coord AxisX sv ev). lia. Qed.

Lemma between_direction s e k :
  0 <= k <= Z.abs (e - s) -> between s e (s + direction s e * k).
Proof.
  unfold between, direction. intros Hk.
  destruct (s <=? e) eqn:H; [apply Z.leb_le in H | apply Z.leb_gt in H]; lia.
Qed.

(** ** The returned path stays between the two indices *)

Lemma bres_trace_in_box sv ev :
  in_int sv -> in_int ev -> max_abs_delta sv ev <= Int32.max_int - 1 ->
  Forall (in_box sv ev)
         (trace bres_pos (bres_step (bres_env sv ev))
                (Z.to_nat (max_abs_delta sv ev)) (bres_init sv (bres_env sv ev))).
Proof.
  intros Hsv Hev Hb. pose proof (max_abs_delta_nonneg sv ev) as H0.
  apply trace_Forall. intros j Hj a.
  destruct (bres_position sv ev a j Hsv Hev Hb ltac:(lia)) as [k [Hk [Hc _]]].
  rewrite Hc. apply between_direction, Hk.
Qed.

Lemma dda_trace_in_box sv ev :
  in_int sv -> in_int ev -> 3 * max_abs_delta sv ev <= Int32.max_int ->
  Forall (in_box sv ev)
         (trace current (dda_step (dda_env sv ev))
                (Z.to_nat (max_abs_delta sv ev)) (dda_init sv)).
Proof.
  intros Hsv Hev Hb. pose proof (max_abs_delta_nonneg sv ev) as H0.
  apply trace_Forall. intros j Hj a.
  destruct (dda_position sv ev a j Hsv Hev Hb ltac:(lia)) as [k [Hk [Hc _]]].
  rewrite Hc. apply between_direction, Hk.
Qed.

(** X1.  On a ray of moderate length (indices at most 2147483646 apart for
    [VoxelCastingBresenham], 715827882 for [VoxelCastingDDA]) every element of
    the returned path lies, on every axis, between the start index and the
    end index; an axis on which the two indices agree never moves. *)
Theorem integer_paths_stay_in_box T ray_start ray_end step_size :
  let sv := VoxelIndexLround T ray_start step_size in
  let ev := VoxelIndexLround T ray_end step_size in
  (max_abs_delta sv ev <= 2147483646 ->
   forall path,
     VoxelCastingBresenham T ray_start ray_end step_size = Returned path ->
     Forall (in_box sv ev) path) /\
  (max_abs_delta sv ev <= 715827882 ->
   forall path,
     VoxelCastingDDA T ray_start ray_end step_size = Returned path ->
     Forall (in_box sv ev) path).
Proof.
  intros sv ev.
  assert (Hsv : in_int sv) by (intros a; apply VoxelIndexLround_range).
  assert (Hev : in_int ev) by (intros a; apply VoxelIndexLround_range).
  split; intros Hb path H.
  - rewrite (bres_returned_in_range T _ _ _ path Hb H).
    apply (bres_trace_in_box sv ev Hsv Hev). exact Hb.
  - rewrite (dda_returned_in_range T _ _ _ path Hb H).
    apply (dda_trace_in_box sv ev Hsv Hev). unfold Int32.max_int. lia.
Qed.

Lemma integer_paths_stay_in_box_witness :
  Forall (in_box (mkVector3i 0 0 0) (mkVector3i 2 1 0))
         [mkVector3i 0 0 0; mkVector3i 1 0 0; mkVector3i 2 1 0] /\
  Forall (in_box (mkVector3i 0 0 0) (mkVector3i 2 1 0))
         [mkVector3i 0 0 0; mkVector3i 1 1 0; mkVector3i 2 1 0].
Proof.
  pose proof (integer_paths_stay_in_box x86_64 (vec 0 0 0) (vec 2 1 0) one)
    as [HB HD].
  split.
  - apply HB; [vm_compute; intros H; discriminate H | vm_compute; reflexivity].
  - apply HD; [vm_compute; intros H; discriminate H | vm_compute; reflexivity].
Defined.

(** ** Unit steps in absolute value on rays of moderate length *)

Lemma unit_move_between lo hi c c' :
  hi - lo <= 2147483646 ->
  lo <= c <= hi -> lo <= c' <= hi -> unit_move c c' -> Z.abs (c' - c) <= 1.
Proof.
  unfold unit_move, Int32.add. intros Hw Hc Hc' [-> | [-> | ->]].
  - lia.
  - destruct (wrap_eqm (c + 1)) as [k Hk]. rewrite Hk in *. lia.
  - destruct (wrap_eqm (c + -1)) as [k Hk]. rewrite Hk in *. lia.
Qed.

Lemma unit_step_in_box sv ev u v :
  max_abs_delta sv ev <= 2147483646 ->
  unit_step u v -> in_box sv ev u -> in_box sv ev v -> chebyshev1 u v.
Proof.
  intros Hb Hs Hu Hv. pose proof (proj2 (unit_step_coord u v) Hs) as Hs'.
  clear Hs. rename Hs' into Hs.
  assert (G : forall a, Z.abs (coord a v - coord a u) <= 1).
  { intros a. pose proof (max_abs_delta_coord a sv ev) as Hle.
    apply (unit_move_between (Z.min (coord a sv) (coord a ev))
                             (Z.max (coord a sv) (coord a ev))).
    - lia.
    - specialize (Hu a). unfold between in *. lia.
    - specialize (Hv a). unfold between in *. lia.
    - apply Hs. }
  exact (conj (G AxisX) (conj (G AxisY) (G AxisZ))).
Qed.

(** X2.  On a ray of moderate length any two consecutive elements of the path
    an integer routine returns differ by at most one in absolute value on
    every axis. *)
Theorem integer_paths_chebyshev T ray_start ray_end step_size :
  let sv := VoxelIndexLround T ray_start step_size in
  let ev := VoxelIndexLround T ray_end step_size in
  (max_abs_delta sv ev <= 2147483646 ->
   forall path,
     VoxelCastingBresenham T ray_start ray_end step_size = Returned path ->
     adjacent chebyshev1 path) /\
  (max_abs_delta sv ev <= 715827882 ->
   forall path,
     VoxelCastingDDA T ray_start ray_end step_size = Returned path ->
     adjacent chebyshev1 path).
Proof.
  intros sv ev.
  assert (Hsv : in_int sv) by (intros a; apply VoxelIndexLround_range).
  assert (Hev : in_int ev) by (intros a; apply VoxelIndexLround_range).
  split; intros Hb path H.
  - rewrite (bres_returned_in_range T _ _ _ path Hb H).
    apply (adjacent_Forall unit_step chebyshev1 (in_box sv ev)).
    + intros u v. apply unit_step_in_box. exact Hb.
    + apply (trace_adjacent _ _ (fun _ => True)); [| exact I].
      intros s _. split; [exact I | apply bres_step_unit_step].
    + apply (bres_trace_in_box sv ev Hsv Hev). exact Hb.
  - rewrite (dda_returned_in_range T _ _ _ path Hb H).
    apply (adjacent_Forall unit_step chebyshev1 (in_box sv ev)).
    + intros u v. apply unit_step_in_box. lia.
    + apply (trace_adjacent _ _ (fun _ => True)); [| exact I].
      intros s _. split; [exact I | apply dda_step_unit_step].
    + apply (dda_trace_in_box sv ev Hsv Hev). unfold Int32.max_int. lia.
Qed.

Lemma integer_paths_chebyshev_witness :
  adjacent chebyshev1 [mkVector3i 0 0 0; mkVector3i 1 0 0; mkVector3i 2 1 0] /\
  adjacent chebyshev1 [mkVector3i 0 0 0; mkVector3i 1 1 0; mkVector3i 2 1 0].
Proof.
  pose proof (integer_paths_chebyshev x86_64 (vec 0 0 0) (vec 2 1 0) one)
    as [HB HD].
  split.
  - apply HB; [vm_compute; intros H; discriminate H | vm_compute; reflexivity].
  - apply HD; [vm_compute; intros H; discriminate H | vm_compute; reflexivity].
Defined.

(** ** One voxel for each slice along the dominant axis *)

(** X3.  On a ray of moderate length, on an axis where the two indices differ
    most, the element at position [j] of the returned path has coordinate
    start index plus or minus [j]: the path crosses every slice of that axis
    exactly once. *)
Theorem integer_paths_dominant_axis T ray_start ray_end step_size a :
  let sv := VoxelIndexLround T ray_start step_size in
  let ev := VoxelIndexLround T ray_end step_size in
  Z.abs (coord a ev - coord a sv) = max_abs_delta sv ev ->
  (max_abs_delta sv ev <= 2147483646 ->
   forall path j v,
     VoxelCastingBresenham T ray_start ray_end step_size = Returned path ->
     nth_error path j = Some v ->
     coord a v = coord a sv + direction (coord a sv) (coord a ev) * Z.of_nat j) /\
  (max_abs_delta sv ev <= 715827882 ->
   forall path j v,
     VoxelCastingDDA T ray_start ray_end step_size = Returned path ->
     nth_error path j = Some v ->
     coord a v = coord a sv + direction (coord a sv) (coord a ev) * Z.of_nat j).
Proof.
  intros sv ev.
  assert (Hsv : in_int sv) by (intros b; apply VoxelIndexLround_range).
  assert (Hev : in_int ev) by (intros b; apply VoxelIndexLround_range).
  pose proof (max_abs_delta_nonneg sv ev) as H0.
  unfold sv, ev in *. clear sv ev. intros Hmax.
  split; intros Hb path j v H Hn.
  - rewrite (bres_returned_in_range T _ _ _ path Hb H) in Hn.
    apply trace_nth_error in Hn. destruct Hn as [Hj ->].
    destruct (bres_position _ _ a j Hsv Hev Hb ltac:(lia)) as [k [Hk [Hc Hd]]].
    rewrite Hc, (Hd Hmax). reflexivity.
  - rewrite (dda_returned_in_range T _ _ _ path Hb H) in Hn.
    apply trace_nth_error in Hn. destruct Hn as [Hj ->].
    destruct (dda_position _ _ a j Hsv Hev
                ltac:(unfold Int32.max_int; lia) ltac:(lia)) as [k [Hk [Hc Hd]]].
    rewrite Hc, (Hd Hmax). reflexivity.
Qed.

Lemma integer_paths_dominant_axis_witness :
  coord AxisX (mkVector3i 2 1 0) = 0 + 1 * 2 /\
  coord AxisX (mkVector3i 1 1 0) = 0 + 1 * 1.
Proof.
  pose proof (integer_paths_dominant_axis x86_64 (vec 0 0 0) (vec 2 1 0) one
                AxisX ltac:(vm_compute; reflexivity)) as [HB HD].
  split.
  - apply (HB ltac:(vm_compute; intros H; discriminate H)
              [mkVector3i 0 0 0; mkVector3i 1 0 0; mkVector3i 2 1 0] 2%nat);
      vm_compute; reflexivity.
  - apply (HD ltac:(vm_compute; intros H; discriminate H)
              [mkVector3i 0 0 0; mkVector3i 1 1 0; mkVector3i 2 1 0] 1%nat);
      vm_compute; reflexivity.
Defined.

(** ** Rays along an axis or a diagonal *)

(** X4.  When every difference of the two indices is zero or the largest one
    (the ray runs along an axis, or along a diagonal of a plane or of the
    grid) and the indices are at most 715827882 apart, the two integer
    routines return the same path. *)
Theorem integer_routines_agree_on_straight_rays T ray_start ray_end step_size :
  let sv := VoxelIndexLround T ray_start step_size in
  let ev := VoxelIndexLround T ray_end step_size in
  straight sv ev -> max_abs_delta sv ev <= 715827882 ->
  exists path,
    VoxelCastingBresenham T ray_start ray_end step_size = Returned path /\
    VoxelCastingDDA T ray_start ray_end step_size = Returned path.
Proof.
  intros sv ev.
  assert (Hsv : in_int sv) by (intros b; apply VoxelIndexLround_range).
  assert (Hev : in_int ev) by (intros b; apply VoxelIndexLround_range).
  pose proof (max_abs_delta_nonneg sv ev) as H0.
  intros Hst Hb.
  assert (HbB : max_abs_delta sv ev <= Int32.max_int - 1)
    by (unfold Int32.max_int; lia).
  assert (HbD : 3 * max_abs_delta sv ev <= Int32.max_int)
    by (unfold Int32.max_int; lia).
  eexists. split.
  - rewrite VoxelCastingBresenham_eq. fold sv ev.
    apply (bresenham_from_in_range sv ev Hsv Hev HbB).
  - rewrite VoxelCastingDDA_eq. fold sv ev.
    rewrite (dda_from_in_range sv ev Hsv Hev HbD). f_equal.
    rewrite !trace_map_seq. apply map_ext_in. intros j Hj.
    apply in_seq in Hj. apply coord_ext. intros a.
    destruct (bres_position sv ev a j Hsv Hev HbB ltac:(lia))
      as [k [Hk [Hc Hd]]].
    destruct (dda_position sv ev a j Hsv Hev HbD ltac:(lia))
      as [k' [Hk' [Hc' Hd']]].
    rewrite Hc, Hc'. destruct (Hst a) as [E | E].
    + assert (k = 0) by lia. assert (k' = 0) by lia. subst. reflexivity.
    + rewrite (Hd E), (Hd' E). reflexivity.
Qed.

(** Scenario C: the diagonal from (0,0,0) to (2,2,2). *)
Lemma integer_routines_agree_on_straight_rays_witness :
  exists path,
    VoxelCastingBresenham x86_64 (vec 0 0 0) (vec 2 2 2) one = Returned path /\
    VoxelCastingDDA x86_64 (vec 0 0 0) (vec 2 2 2) one = Returned path.
Proof.
  apply integer_routines_agree_on_straight_rays.
  - intros a. right. destruct a; vm_compute; reflexivity.
  - vm_compute. intros H. discriminate H.
Defined.

(** ** One-element paths *)

Lemma bres_env_diag v : dm (bres_env v v) = 0.
Proof. unfold bres_env. cbn [dm]. rewrite !sub_diag. reflexivity. Qed.

Lemma dda_env_diag v : max_delta (dda_env v v) = 0.
Proof.
  unfold dda_env, Vector3i_sub. cbn [max_delta ix iy iz]. rewrite !sub_diag.
  reflexivity.
Qed.

(** X5.  A returned path has exactly one element if and only if the start
    index and the end index are the same voxel: a ray that leaves its voxel is
    never reported as a single voxel. *)
Theorem one_element_path_iff T ray_start ray_end step_size :
  (forall fuel path,
      VoxelCasting T fuel ray_start ray_end step_size = Some path ->
      (length path = 1%nat <->
       VoxelIndex T ray_start step_size = VoxelIndex T ray_end step_size)) /\
  (forall path,
      VoxelCastingBresenham T ray_start ray_end step_size = Returned path ->
      (length path = 1%nat <->
       VoxelIndexLround T ray_start step_size
       = VoxelIndexLround T ray_end step_size)) /\
  (forall path,
      VoxelCastingDDA T ray_start ray_end step_size = Returned path ->
      (length path = 1%nat <->
       VoxelIndexLround T ray_start step_size
       = VoxelIndexLround T ray_end step_size)).
Proof.
  split; [| split].
  - intros fuel path H. apply VoxelCasting_Some in H.
    destruct H as [[He ->] | [Hne [n [Hn ->]]]].
    + split; auto.
    + split; [| intros E; contradiction].
      destruct (neg_ray T ray_start ray_end step_size) eqn:Hneg.
      * cbn [length]. rewrite trace_length. discriminate.
      * rewrite trace_length. intros Hl. assert (n = 0%nat) by lia. subst n.
        change (current_voxel (cast_start T ray_start ray_end step_size)
                = VoxelIndex T ray_end step_size) in Hn.
        rewrite current_cast_start in Hn by exact Hneg. contradiction.
  - intros path H. rewrite VoxelCastingBresenham_eq in H.
    apply bresenham_from_Returned in H. destruct H as [_ [-> He]].
    rewrite trace_length. split.
    + intros Hl.
      assert (Hn : Z.to_nat (dm (bres_env (VoxelIndexLround T ray_start step_size)
                                          (VoxelIndexLround T ray_end step_size)))
                   = 0%nat) by lia.
      rewrite Hn in He. simpl in He. rewrite <- He.
      unfold bres_pos, bres_init. cbn [x0 y0 z0]. rewrite Vector3i_eta.
      reflexivity.
    + intros E. rewrite <- E, bres_env_diag. reflexivity.
  - intros path H. rewrite VoxelCastingDDA_eq in H.
    apply dda_from_Returned in H. destruct H as [_ [-> He]].
    rewrite trace_length. split.
    + intros Hl.
      assert (Hn : Z.to_nat (max_delta (dda_env (VoxelIndexLround T ray_start step_size)
                                                (VoxelIndexLround T ray_end step_size)))
                   = 0%nat) by lia.
      rewrite Hn in He. simpl in He. exact He.
    + intros E. rewrite <- E, dda_env_diag. reflexivity.
Qed.

Lemma one_element_path_iff_witness :
  (length [mkVector3i 0 0 0; mkVector3i 1 0 0; mkVector3i 1 1 0; mkVector3i 2 1 0]
   = 1%nat <-> mkVector3i 0 0 0 = mkVector3i 2 1 0) /\
  (length [mkVector3i 0 0 0; mkVector3i 1 0 0; mkVector3i 2 1 0] = 1%nat <->
   mkVector3i 0 0 0 = mkVector3i 2 1 0) /\
  (length [mkVector3i 0 0 0; mkVector3i 1 1 0; mkVector3i 2 1 0] = 1%nat <->
   mkVector3i 0 0 0 = mkVector3i 2 1 0).
Proof.
  destruct (one_element_path_iff x86_64 (vec 0 0 0) (vec 2 1 0) one)
    as [H1 [H2 H3]].
  split; [| split].
  - apply (H1 4%nat). vm_compute. reflexivity.
  - apply H2. vm_compute. reflexivity.
  - apply H3. vm_compute. reflexivity.
Defined.

(** ** Connectivity of the path of [VoxelCasting] *)

Lemma cast_step_face_step T rs re st s :
  face_step (current_voxel s) (current_voxel (cast_step (cast_env T rs re st) s)).
Proof.
  destruct (cast_step_moves (cast_env T rs re st) s) as [a [Ha Hb]].
  exists a, (cast_step_of a (cast_env T rs re st)).
  split; [apply cast_env_unit |]. split; [exact Ha | exact Hb].
Qed.

Lemma cast_step_shares_face T rs re st s :
  interior (current_voxel s) ->
  shares_face (current_voxel s)
              (current_voxel (cast_step (cast_env T rs re st) s)).
Proof.
  intros Hi.
  destruct (cast_step_moves (cast_env T rs re st) s) as [a [Ha Hb]].
  exists a. split; [| exact Hb].
  rewrite Ha. unfold Int32.add. specialize (Hi a).
  destruct (cast_env_unit T a rs re st) as [-> | ->];
    rewrite wrap_small by lia; lia.
Qed.

(** X6.  When no axis is corrected before the loop (no axis on which the
    indices differ has a negative ray component), any two consecutive
    elements of the path [VoxelCasting] returns differ on exactly one axis,
    by plus or minus one in [int] arithmetic; when no coordinate of the
    first of the two is [INT_MIN] or [INT_MAX], so that nothing wraps
    around, they differ by one in absolute value: the voxels share a
    face. *)
Theorem VoxelCasting_face_connected T fuel ray_start ray_end step_size path :
  neg_ray T ray_start ray_end step_size = false ->
  VoxelCasting T fuel ray_start ray_end step_size = Some path ->
  adjacent (fun u v => face_step u v /\ (interior u -> shares_face u v)) path.
Proof.
  intros Hneg H. apply VoxelCasting_Some in H.
  destruct H as [[_ ->] | [_ [n [_ ->]]]]; [exact I |].
  rewrite Hneg.
  apply (trace_adjacent _ _ (fun _ => True)); [| exact I].
  intros s _. split; [exact I |].
  split; [apply cast_step_face_step | apply cast_step_shares_face].
Qed.

Lemma VoxelCasting_face_connected_witness :
  adjacent (fun u v => face_step u v /\ (interior u -> shares_face u v))
    [mkVector3i 0 0 0; mkVector3i 1 0 0; mkVector3i 1 1 0; mkVector3i 2 1 0].
Proof.
  apply (VoxelCasting_face_connected x86_64 4 (vec 0 0 0) (vec 2 1 0) one);
    vm_compute; reflexivity.
Defined.

Lemma cast_diff_coord T rs re st a :
  coord a (cast_diff T rs re st) =
  diff_of (coord a (VoxelIndex T rs st)) (coord a (VoxelIndex T re st))
          (fcoord a (Vector3f_sub re rs)).
Proof. destruct a; reflexivity. Qed.

Lemma Vector3i_add_coord a u v :
  coord a (Vector3i_add u v) = Int32.add (coord a u) (coord a v).
Proof. destruct a; reflexivity. Qed.

(** X7.  When on every axis the end index is the start index, or one below
    it with a negative ray component, the correction before the loop moves
    all these axes at once and lands on the end index: [VoxelCasting] returns
    the two indices only, whatever the fuel, also when they are diagonal
    neighbours. *)
Theorem VoxelCasting_correction_jump T fuel ray_start ray_end step_size :
  let sv := VoxelIndex T ray_start step_size in
  let ev := VoxelIndex T ray_end step_size in
  sv <> ev ->
  (forall a,
      coord a ev = coord a sv \/
      (coord a ev = coord a sv - 1 /\
       Float32.ltb (fcoord a (Vector3f_sub ray_end ray_start)) Float32.zero
       = true)) ->
  VoxelCasting T fuel ray_start ray_end step_size = Some [sv; ev].
Proof.
  intros sv ev Hne Hax.
  assert (Hadd : Vector3i_add sv (cast_diff T ray_start ray_end step_size) = ev).
  { apply coord_ext. intros a.
    rewrite Vector3i_add_coord, cast_diff_coord. fold sv ev.
    pose proof (VoxelIndex_range T ray_start step_size a) as Hr. fold sv in Hr.
    pose proof (VoxelIndex_range T ray_end step_size a) as Hr'. fold ev in Hr'.
    unfold diff_of, Int32.add, Int32.sub.
    destruct (Hax a) as [E | [E Hlt]].
    - rewrite E, Z.eqb_refl. cbn [negb andb]. rewrite Z.add_0_r.
      apply wrap_small, Hr.
    - rewrite Hlt.
      destruct (coord a sv =? coord a ev) eqn:Heq;
        [apply Z.eqb_eq in Heq; lia |].
      cbn [negb andb]. change (Int32.wrap (0 - 1)) with (-1).
      rewrite E. apply wrap_small. lia. }
  assert (Hneg : neg_ray T ray_start ray_end step_size = true).
  { destruct (neg_ray T ray_start ray_end step_size) eqn:Hn; [reflexivity |].
    exfalso. apply Hne. rewrite <- Hadd. unfold neg_ray in Hn.
    apply negb_false_iff in Hn. rewrite !andb_true_iff, !Z.eqb_eq in Hn.
    destruct Hn as [[Hx Hy] Hz]. apply coord_ext. intros a.
    rewrite Vector3i_add_coord.
    pose proof (VoxelIndex_range T ray_start step_size a) as Hr. fold sv in Hr.
    assert (H0 : coord a (cast_diff T ray_start ray_end step_size) = 0)
      by (destruct a; assumption).
    rewrite H0. unfold Int32.add. rewrite Z.add_0_r, wrap_small by exact Hr.
    reflexivity. }
  unfold VoxelCasting. fold sv ev.
  rewrite (Vector3i_eqb_false _ _ Hne), Hneg, Hadd.
  assert (Hl : forall E s, current_voxel s = end_voxel E ->
                           cast_loop fuel E s = Some []).
  { intros E s Hs. destruct fuel; simpl; rewrite Hs, Vector3i_eqb_refl;
      reflexivity. }
  rewrite Hl; reflexivity.
Qed.

Lemma VoxelCasting_correction_jump_witness :
  VoxelCasting x86_64 0 (vec 0 0 0) (vec (-1) (-1) 0) one
  = Some [mkVector3i 0 0 0; mkVector3i (-1) (-1) 0].
Proof.
  apply (VoxelCasting_correction_jump x86_64 0 (vec 0 0 0) (vec (-1) (-1) 0) one).
  - vm_compute. intros H. discriminate H.
  - intros a. destruct a.
    + right. split; vm_compute; reflexivity.
    + right. split; vm_compute; reflexivity.
    + left. vm_compute. reflexivity.
Defined.

(** ** Moving both indices *)

Lemma add_add_swap c t s :
  Int32.add (Int32.add c t) s = Int32.add (Int32.add c s) t.
Proof.
  unfold Int32.add. rewrite !wrap_wrap_add. f_equal. lia.
Qed.

Lemma sub_shift a b t :
  Int32.sub (Int32.add a t) (Int32.add b t) = Int32.sub a b.
Proof.
  unfold Int32.sub, Int32.add.
  destruct (wrap_eqm (a + t)) as [i Hi]. destruct (wrap_eqm (b + t)) as [j Hj].
  destruct (wrap_eqm (a - b)) as [k Hk].
  apply wrap_unique with (k := k - i + j); [apply wrap_range | lia].
Qed.

Lemma add_cancel a b t :
  Int32.min_int <= a <= Int32.max_int -> Int32.min_int <= b <= Int32.max_int ->
  Int32.add a t = Int32.add b t -> a = b.
Proof.
  unfold Int32.add, Int32.min_int, Int32.max_int. intros Ha Hb H.
  destruct (wrap_eqm (a + t)) as [i Hi]. destruct (wrap_eqm (b + t)) as [j Hj].
  lia.
Qed.

Lemma shift_eqb t u v :
  in_int u -> in_int v ->
  Vector3i_eqb (shift t u) (shift t v) = Vector3i_eqb u v.
Proof.
  intros Hu Hv. destruct (Vector3i_eqb u v) eqn:E.
  - apply Vector3i_eqb_eq in E. subst. apply Vector3i_eqb_refl.
  - apply Vector3i_eqb_false. intros H. 
    assert (u = v); [| subst; rewrite Vector3i_eqb_refl in E; discriminate].
    apply coord_ext. intros a. apply (add_cancel _ _ (coord a t) (Hu a) (Hv a)).
    unfold shift in H. rewrite <- !Vector3i_add_coord, H. reflexivity.
Qed.

Lemma dda_env_shift t sv ev : dda_env (shift t sv) (shift t ev) = dda_env sv ev.
Proof.
  unfold dda_env, shift, Vector3i_sub, Vector3i_add. cbn [ix iy iz].
  rewrite !sub_shift. reflexivity.
Qed.

Lemma dda_axis_shift m d s c e t :
  dda_axis m d s (Int32.add c t) e =
  (Int32.add (fst (dda_axis m d s c e)) t, snd (dda_axis m d s c e)).
Proof.
  unfold dda_axis. destruct (m <=? Int32.shl1 (Int32.add e d)); cbn [fst snd].
  - rewrite add_add_swap. reflexivity.
  - reflexivity.
Qed.

Lemma dda_step_shift E t s :
  dda_step E (shift_dda t s) = shift_dda t (dda_step E s).
Proof.
  unfold dda_step, shift_dda, shift, Vector3i_add. cbn [current error ix iy iz].
  rewrite !dda_axis_shift.
  destruct (dda_axis (max_delta E) (ix (delta E)) (ix (step E))
                     (ix (current s)) (ix (error s))) as [cx ex].
  destruct (dda_axis (max_delta E) (iy (delta E)) (iy (step E))
                     (iy (current s)) (iy (error s))) as [cy ey].
  destruct (dda_axis (max_delta E) (iz (delta E)) (iz (step E))
                     (iz (current s)) (iz (error s))) as [cz ez].
  reflexivity.
Qed.

Lemma iter_commute {S : Type} (f g : S -> S) (h : S -> S) n s :
  (forall x, f (h x) = h (g x)) -> Nat.iter n f (h s) = h (Nat.iter n g s).
Proof.
  intros H. induction n as [| n IH]; [reflexivity |].
  simpl. rewrite IH. apply H.
Qed.

Lemma trace_commute {S A : Type} (pos : S -> A) (f g h : S -> S) (k : A -> A) n s :
  (forall x, f (h x) = h (g x)) -> (forall x, pos (h x) = k (pos x)) ->
  trace pos f n (h s) = map k (trace pos g n s).
Proof.
  intros Hf Hp. rewrite !trace_map_seq, map_map. apply map_ext. intros j.
  rewrite (iter_commute f g h j s Hf). apply Hp.
Qed.

Lemma dda_step_in_int E s : in_int (current s) -> in_int (current (dda_step E s)).
Proof.
  intros H a. rewrite (proj1 (dda_step_coord a E s)). unfold dda_axis.
  destruct (max_delta E <=? _); cbn [fst]; [apply wrap_range | apply H].
Qed.

Lemma dda_iter_in_int E n s :
  in_int (current s) -> in_int (current (Nat.iter n (dda_step E) s)).
Proof.
  intros H. induction n as [| n IH]; [exact H |].
  simpl. apply dda_step_in_int, IH.
Qed.

Lemma dda_from_trace sv ev :
  dda_from sv ev =
  let E := dda_env sv ev in
  let n := Z.to_nat (max_delta E) in
  if Int32.add (max_delta E) 1 <? 0 then LengthError
  else if Vector3i_eqb (current (Nat.iter n (dda_step E) (dda_init sv))) ev
       then Returned (trace current (dda_step E) n (dda_init sv))
       else CheckFailed.
Proof.
  unfold dda_from. fold (dda_init sv). cbv zeta.
  destruct (Int32.add _ 1 <? 0); [reflexivity |].
  destruct (dda_loop_trace (Z.to_nat (max_delta (dda_env sv ev)))
              (dda_env sv ev) (dda_init sv)) as [H1 H2].
  destruct (dda_loop _ _ _) as [l s']. cbn [fst snd] in H1, H2.
  rewrite H1, H2. reflexivity.
Qed.

Lemma bresenham_from_trace sv ev :
  bresenham_from sv ev =
  let E := bres_env sv ev in
  let n := Z.to_nat (dm E) in
  if Int32.add (dm E) 1 <? 0 then LengthError
  else if Vector3i_eqb (bres_pos (Nat.iter n (bres_step E) (bres_init sv E))) ev
       then Returned (trace bres_pos (bres_step E) n (bres_init sv E))
       else CheckFailed.
Proof.
  unfold bresenham_from. fold (bres_init sv (bres_env sv ev)). cbv zeta.
  destruct (Int32.add _ 1 <? 0); [reflexivity |].
  rewrite bres_loop_trace. reflexivity.
Qed.

Lemma bres_axis_shift m d s e c t :
  bres_axis m d s e (Int32.add c t) =
  (fst (bres_axis m d s e c), Int32.add (snd (bres_axis m d s e c)) t).
Proof.
  unfold bres_axis. destruct (Int32.sub e d <? 0); cbn [fst snd].
  - rewrite add_add_swap. reflexivity.
  - reflexivity.
Qed.

Lemma bres_step_shift E t s :
  bres_step E (shift_bres t s) = shift_bres t (bres_step E s).
Proof.
  unfold bres_step, shift_bres. cbn [x0 y0 z0 x1 y1 z1].
  rewrite !bres_axis_shift.
  destruct (bres_axis (dm E) (dx E) (sx E) (x1 s) (x0 s)) as [ex cx].
  destruct (bres_axis (dm E) (dy E) (sy E) (y1 s) (y0 s)) as [ey cy].
  destruct (bres_axis (dm E) (dz E) (sz E) (z1 s) (z0 s)) as [ez cz].
  reflexivity.
Qed.

Lemma bres_step_in_int E s :
  in_int (bres_pos s) -> in_int (bres_pos (bres_step E s)).
Proof.
  intros H a. rewrite (proj1 (bres_step_coord a E s)). unfold bres_axis.
  destruct (Int32.sub _ _ <? 0); cbn [snd]; [apply wrap_range | apply H].
Qed.

Lemma bres_iter_in_int E n s :
  in_int (bres_pos s) -> in_int (bres_pos (Nat.iter n (bres_step E) s)).
Proof.
  intros H. induction n as [| n IH]; [exact H |].
  simpl. apply bres_step_in_int, IH.
Qed.

Lemma bres_env_shift t sv ev :
  (forall a, Int32.min_int <= coord a sv + coord a t <= Int32.max_int /\
             Int32.min_int <= coord a ev + coord a t <= Int32.max_int) ->
  bres_env (shift t sv) (shift t ev) = bres_env sv ev.
Proof.
  intros H. unfold bres_env, shift, Vector3i_add. cbn [ix iy iz].
  rewrite !sub_shift.
  assert (G : forall a, (Int32.add (coord a sv) (coord a t)
                         <? Int32.add (coord a ev) (coord a t))
                        = (coord a sv <? coord a ev)).
  { intros a. destruct (H a) as [H1 H2]. unfold Int32.add.
    rewrite !wrap_small by assumption.
    destruct (coord a sv <? coord a ev) eqn:E;
      [apply Z.ltb_lt in E; apply Z.ltb_lt | apply Z.ltb_ge in E; apply Z.ltb_ge];
      lia. }
  pose proof (G AxisX) as Gx. pose proof (G AxisY) as Gy.
  pose proof (G AxisZ) as Gz. cbn [coord] in Gx, Gy, Gz.
  rewrite Gx, Gy, Gz. reflexivity.
Qed.

(** X8.  The path depends on the difference of the two indices only: moving
    both indices by the same offset [t] moves every element of the path by
    [t].  For the loop of [VoxelCastingDDA] this holds in 32-bit arithmetic
    for every offset, for the loop of [VoxelCastingBresenham], which compares
    the two indices, for offsets that do not make them wrap around. *)
Theorem translation_of_indices t sv ev :
  in_int sv -> in_int ev ->
  dda_from (shift t sv) (shift t ev) = map_outcome (shift t) (dda_from sv ev) /\
  ((forall a, Int32.min_int <= coord a sv + coord a t <= Int32.max_int /\
              Int32.min_int <= coord a ev + coord a t <= Int32.max_int) ->
   bresenham_from (shift t sv) (shift t ev)
   = map_outcome (shift t) (bresenham_from sv ev)).
Proof.
  intros Hsv Hev. split.
  - rewrite !dda_from_trace, dda_env_shift. cbv zeta.
    destruct (Int32.add _ 1 <? 0); [reflexivity |].
    change (dda_init (shift t sv)) with (shift_dda t (dda_init sv)).
    rewrite (iter_commute _ _ (shift_dda t) _ _ (dda_step_shift _ t)).
    change (current (shift_dda t ?x)) with (shift t (current x)).
    rewrite shift_eqb; [| apply dda_iter_in_int; exact Hsv | exact Hev].
    destruct (Vector3i_eqb _ ev); [| reflexivity].
    cbn [map_outcome]. f_equal.
    apply trace_commute; [apply dda_step_shift | reflexivity].
  - intros Hw. rewrite !bresenham_from_trace, (bres_env_shift t sv ev Hw).
    cbv zeta. destruct (Int32.add _ 1 <? 0); [reflexivity |].
    change (bres_init (shift t sv) (bres_env sv ev))
      with (shift_bres t (bres_init sv (bres_env sv ev))).
    rewrite (iter_commute _ _ (shift_bres t) _ _ (bres_step_shift _ t)).
    change (bres_pos (shift_bres t ?x)) with (shift t (bres_pos x)).
    rewrite shift_eqb; [| apply bres_iter_in_int | exact Hev].
    + destruct (Vector3i_eqb _ ev); [| reflexivity].
      cbn [map_outcome]. f_equal.
      apply trace_commute; [apply bres_step_shift | reflexivity].
    + intros a. destruct a;
        [apply (Hsv AxisX) | apply (Hsv AxisY) | apply (Hsv AxisZ)].
Qed.

Lemma translation_of_indices_witness :
  dda_from (mkVector3i 5 (-7) 2147483647) (mkVector3i 7 (-6) 2147483647)
  = Returned [mkVector3i 5 (-7) 2147483647; mkVector3i 6 (-6) 2147483647;
              mkVector3i 7 (-6) 2147483647] /\
  bresenham_from (mkVector3i 5 (-7) 9) (mkVector3i 7 (-6) 9)
  = Returned [mkVector3i 5 (-7) 9; mkVector3i 6 (-7) 9; mkVector3i 7 (-6) 9].
Proof.
  assert (Hsv : in_int (mkVector3i 0 0 0)) by (intros []; vm_compute; split; discriminate).
  assert (Hev : in_int (mkVector3i 2 1 0)) by (intros []; vm_compute; split; discriminate).
  split.
  - exact (proj1 (translation_of_indices (mkVector3i 5 (-7) 2147483647) _ _ Hsv Hev)).
  - refine (proj2 (translation_of_indices (mkVector3i 5 (-7) 9) _ _ Hsv Hev) _).
    intros []; vm_compute; repeat split; discriminate.
Defined.

(** ** The two conversions of the floored quotient *)

Lemma shr_exp_le mrs e n : e <= snd (shr mrs e n).
Proof. destruct n; simpl; lia. Qed.

Lemma binary_round_aux_exp sgn m e l b :
  b <= snd (shr_fexp 24 128 m e l) ->
  match binary_round_aux 24 128 sgn m e l with
  | S754_finite _ _ e'' => b <= e''
  | _ => True
  end.
Proof.
  intros Hb. unfold binary_round_aux.
  destruct (shr_fexp 24 128 m e l) as [mrs' e'] eqn:H1. cbn [snd] in Hb.
  destruct (shr_fexp 24 128 _ e' loc_Exact) as [mrs'' e''] eqn:H2.
  assert (He : e' <= e'').
  { unfold shr_fexp in H2.
    pose proof (shr_exp_le (shr_record_of_loc
                              (round_nearest_even (shr_m mrs')
                                                  (loc_of_shr_record mrs'))
                              loc_Exact) e'
                  (fexp 24 128 (Zdigits2 (round_nearest_even (shr_m mrs')
                                            (loc_of_shr_record mrs')) + e') - e'))
      as Hs.
    rewrite H2 in Hs. exact Hs. }
  destruct (shr_m mrs''); try exact I.
  destruct (e'' <=? 128 - 24); [lia | exact I].
Qed.

Lemma binary_round_large sgn P :
  2 ^ 24 <= Zpos P ->
  match binary_round 24 128 sgn P 0 with
  | S754_finite _ _ e => 1 <= e
  | _ => True
  end.
Proof.
  intros HP.
  assert (Hd : 25 <= Zpos (digits2_pos P)).
  { change (Zpos (digits2_pos P)) with (Zdigits2 (Zpos P)).
    rewrite Zdigits2_log2.
    pose proof (Z.log2_le_mono (2 ^ 24) (Zpos P) HP) as Hl.
    rewrite Z.log2_pow2 in Hl by lia. lia. }
  unfold binary_round.
  assert (Hf : fexp 24 128 (Zpos (digits2_pos P) + 0)
               = Zpos (digits2_pos P) - 24) by (unfold fexp, emin; lia).
  rewrite Hf.
  assert (Hsh : shl_align P 0 (Zpos (digits2_pos P) - 24) = (P, 0)).
  { unfold shl_align.
    destruct (Zpos (digits2_pos P) - 24 - 0) eqn:E; try reflexivity. lia. }
  rewrite Hsh. apply binary_round_aux_exp.
  unfold shr_fexp. cbn [Zdigits2 shr_record_of_loc]. rewrite Hf.
  destruct (Zpos (digits2_pos P) - 24 - 0) eqn:E; try lia.
  cbn [shr snd]. lia.
Qed.

Lemma binary_round_small sgn P :
  Zpos P < 2 ^ 24 ->
  exists Q L, binary_round 24 128 sgn P 0 = S754_finite sgn Q (L - 23) /\
              0 <= L <= 23 /\ Zpos Q = Zpos P * 2 ^ (23 - L).
Proof.
  intros HP. destruct (log2_bounds (Zpos P) ltac:(lia)) as [HL [Hlo Hhi]].
  set (L := Z.log2 (Zpos P)) in *.
  assert (Hd : Zpos (digits2_pos P) = L + 1).
  { change (Zpos (digits2_pos P)) with (Zdigits2 (Zpos P)).
    rewrite Zdigits2_log2. reflexivity. }
  unfold binary_round. rewrite Hd.
  assert (Hf : fexp 24 128 (L + 1 + 0) = L - 23) by (unfold fexp, emin; lia).
  rewrite Hf.
  pose proof (shl_align_value P 0 (L - 23) ltac:(lia)) as Hv.
  assert (Hs : snd (shl_align P 0 (L - 23)) = L - 23).
  { unfold shl_align. destruct (L - 23 - 0) eqn:E; cbn [snd]; lia. }
  destruct (shl_align P 0 (L - 23)) as [Q ez]. cbn [fst snd] in Hv, Hs. subst ez.
  replace (0 - (L - 23)) with (23 - L) in Hv by lia.
  assert (Hlog : Z.log2 (Zpos Q) = 23).
  { rewrite Hv, Z.log2_mul_pow2 by lia. fold L. lia. }
  assert (Hd' : Zpos (digits2_pos Q) = 24).
  { change (Zpos (digits2_pos Q)) with (Zdigits2 (Zpos Q)).
    rewrite Zdigits2_log2, Hlog. reflexivity. }
  exists Q, L. split; [| split; [lia | exact Hv]].
  unfold binary_round_aux, shr_fexp. cbn [Zdigits2 shr_record_of_loc].
  rewrite Hd'.
  replace (fexp 24 128 (24 + (L - 23)) - (L - 23)) with 0
    by (unfold fexp, emin; lia).
  cbn [shr shr_m loc_of_shr_record round_nearest_even Zdigits2
       shr_record_of_loc].
  rewrite Hd'.
  replace (fexp 24 128 (24 + (L - 23)) - (L - 23)) with 0
    by (unfold fexp, emin; lia).
  cbn [shr shr_m].
  replace (L - 23 <=? 128 - 24) with true by (symmetry; apply Z.leb_le; lia).
  reflexivity.
Qed.

Lemma round_away_trunc_exact sgn Q L N :
  0 <= L <= 23 -> 0 < N -> Zpos Q = N * 2 ^ (23 - L) ->
  Float32.round_away (S754_finite sgn Q (L - 23)) = Some (cond_Zopp sgn N) /\
  Float32.trunc (S754_finite sgn Q (L - 23)) = Some (cond_Zopp sgn N).
Proof.
  intros HL HN HQ. unfold Float32.round_away, Float32.trunc.
  destruct (0 <=? L - 23) eqn:E; [apply Z.leb_le in E | apply Z.leb_gt in E].
  - assert (L = 23) by lia. subst L. change (23 - 23) with 0 in *.
    rewrite Z.shiftl_mul_pow2 by lia. rewrite HQ.
    replace (23 - 23) with 0 by lia. rewrite !Z.mul_1_r.
    replace (N * 2 ^ 0) with N by (simpl; lia). auto.
  - replace (- (L - 23)) with (23 - L) by lia.
    rewrite !Z.shiftr_div_pow2 by lia. rewrite Z.shiftl_mul_pow2 by lia.
    rewrite HQ, Z.mul_1_l.
    assert (Hp : 0 < 2 ^ (23 - L)) by (apply Z.pow_pos_nonneg; lia).
    rewrite Z.div_add_l by lia. rewrite Z.div_mul by lia.
    rewrite Z.div_small; [rewrite Z.add_0_r; auto |].
    split; [apply Z.pow_nonneg; lia | apply Z.pow_lt_mono_r; lia].
Qed.

Lemma round_away_trunc_normalize sgn P :
  Float32.round_away (binary_round 24 128 sgn P 0) =
  Float32.trunc (binary_round 24 128 sgn P 0).
Proof.
  destruct (Z.lt_ge_cases (Zpos P) (2 ^ 24)) as [Hs | Hl].
  - destruct (binary_round_small sgn P Hs) as [Q [L [-> [HL HQ]]]].
    destruct (round_away_trunc_exact sgn Q L (Zpos P) HL ltac:(lia) HQ)
      as [-> ->]. reflexivity.
  - pose proof (binary_round_large sgn P Hl) as H.
    destruct (binary_round 24 128 sgn P 0) as [| | | s m e]; try reflexivity.
    unfold Float32.round_away, Float32.trunc.
    destruct (0 <=? e) eqn:E; [reflexivity | apply Z.leb_gt in E; lia].
Qed.

(** What [std::floor] returns is an integer: rounding it and truncating it
    give the same. *)
Lemma floor_integral q :
  Float32.round_away (Float32.floor q) = Float32.trunc (Float32.floor q).
Proof.
  destruct q as [s | s | | s m e]; try reflexivity.
  unfold Float32.floor. destruct (0 <=? e) eqn:E.
  - unfold Float32.round_away, Float32.trunc. rewrite E. reflexivity.
  - destruct (Z.shiftr (cond_Zopp s (Zpos m)) (- e)) as [| P | P];
      [reflexivity | |]; apply round_away_trunc_normalize.
Qed.

(** X9.  The integer routines convert the floored quotient with
    [std::lround], [VoxelCasting] converts it directly.  Whenever the three
    floored quotients are finite and fit an [int], both give the same index:
    the three routines agree on the voxel of a point. *)
Theorem the_two_indices_agree T p step_size :
  (forall a, exists z,
      Float32.trunc (Float32.floor (Float32.div (fcoord a p) step_size)) = Some z /\
      Int32.in_range z = true) ->
  VoxelIndexLround T p step_size = VoxelIndex T p step_size.
Proof.
  intros H.
  assert (G : forall c,
             (exists z, Float32.trunc (Float32.floor (Float32.div c step_size))
                        = Some z /\ Int32.in_range z = true) ->
             lround_index T c step_size
             = float_to_int T (Float32.floor (Float32.div c step_size))).
  { intros c [z [Hz Hr]]. unfold lround_index, lround, long_to_int, float_to_int.
    rewrite floor_integral, Hz, Hr.
    apply in_range_spec in Hr. unfold Int32.min_int, Int32.max_int in Hr.
    replace ((- 2 ^ 63 <=? z) && (z <=? 2 ^ 63 - 1)) with true
      by (symmetry; apply andb_true_iff; split; apply Z.leb_le; lia).
    apply wrap_small. unfold Int32.min_int, Int32.max_int. lia. }
  pose proof (G _ (H AxisX)) as Gx. pose proof (G _ (H AxisY)) as Gy.
  pose proof (G _ (H AxisZ)) as Gz. cbn [fcoord] in Gx, Gy, Gz.
  unfold VoxelIndexLround, VoxelIndex. rewrite Gx, Gy, Gz. reflexivity.
Qed.

Lemma the_two_indices_agree_witness :
  VoxelIndexLround x86_64 (mkVector3f (S754_finite true 12582912 (-23))
                                      (S754_finite false 8388608 (-24))
                                      (Float32.of_int 1000000)) one
  = mkVector3i (-2) 0 1000000.
Proof.
  apply (the_two_indices_agree x86_64
           (mkVector3f (S754_finite true 12582912 (-23))
                       (S754_finite false 8388608 (-24))
                       (Float32.of_int 1000000)) one).
  intros a. destruct a.
  - exists (-2). split; vm_compute; reflexivity.
  - exists 0. split; vm_compute; reflexivity.
  - exists 1000000. split; vm_compute; reflexivity.
Defined.

(** ** A step size that is zero or NaN *)

Lemma degenerate_quotient c step_size :
  degenerate step_size = true ->
  Float32.trunc (Float32.floor (Float32.div c step_size)) = None /\
  Float32.round_away (Float32.floor (Float32.div c step_size)) = None.
Proof.
  destruct step_size as [s | s | | s m e]; try discriminate; intros _;
    destruct c as [sc | sc | | sc mc ec]; split; reflexivity.
Qed.

(** X10.  The step size is not checked.  When it is zero or NaN no quotient
    is a number that can be converted, every index is the value the platform
    gives an unrepresentable conversion, the two indices of any ray coincide,
    and each routine returns a one-element path, whatever the ray. *)
Theorem degenerate_step_size T fuel ray_start ray_end step_size :
  degenerate step_size = true ->
  let c := Int32.wrap (cast_invalid T) in
  let c' := Int32.wrap (lround_invalid T) in
  VoxelCasting T fuel ray_start ray_end step_size = Some [mkVector3i c c c] /\
  VoxelCastingBresenham T ray_start ray_end step_size
  = Returned [mkVector3i c' c' c'] /\
  VoxelCastingDDA T ray_start ray_end step_size = Returned [mkVector3i c' c' c'].
Proof.
  intros Hd c c'.
  assert (H1 : forall p, VoxelIndex T p step_size = mkVector3i c c c).
  { intros p. unfold VoxelIndex, float_to_int.
    rewrite !(proj1 (degenerate_quotient _ _ Hd)). reflexivity. }
  assert (H2 : forall p, VoxelIndexLround T p step_size = mkVector3i c' c' c').
  { intros p. unfold VoxelIndexLround, lround_index, lround, long_to_int.
    rewrite !(proj2 (degenerate_quotient _ _ Hd)). reflexivity. }
  split; [| split].
  - unfold VoxelCasting. rewrite !H1, Vector3i_eqb_refl. reflexivity.
  - rewrite VoxelCastingBresenham_eq, !H2. apply bresenham_from_diag.
  - rewrite VoxelCastingDDA_eq, !H2. apply dda_from_diag.
Qed.

Lemma degenerate_step_size_witness :
  VoxelCasting x86_64 0 (vec 0 0 0) (vec 3 0 0) Float32.zero
  = Some [mkVector3i (-2147483648) (-2147483648) (-2147483648)] /\
  VoxelCastingBresenham x86_64 (vec 0 0 0) (vec 3 0 0) Float32.zero
  = Returned [mkVector3i 0 0 0] /\
  VoxelCastingDDA x86_64 (vec 0 0 0) (vec 3 0 0) Float32.zero
  = Returned [mkVector3i 0 0 0].
Proof.
  exact (degenerate_step_size x86_64 0 (vec 0 0 0) (vec 3 0 0) Float32.zero
           eq_refl).
Defined.

(** ** When [VoxelCastingBresenham] returns *)

Lemma bres_count a E :
  unit (bres_s a E) ->
  forall n s,
    Int32.min_int <= coord a (bres_pos s) <= Int32.max_int ->
    exists k,
      0 <= k <= Z.of_nat n /\
      coord a (bres_pos (Nat.iter n (bres_step E) s)) =
        Int32.wrap (coord a (bres_pos s) + bres_s a E * k).
Proof.
  intros Hu. induction n as [| n IH]; intros s Hs.
  - exists 0. split; [lia |].
    simpl. rewrite Z.mul_0_r, Z.add_0_r, wrap_small by exact Hs. reflexivity.
  - rewrite Nat.iter_succ_r.
    pose proof (proj1 (bres_step_coord a E s)) as Hc.
    unfold bres_axis in Hc.
    destruct (Int32.sub _ _ <? 0) in Hc; cbn [snd] in Hc.
    + assert (Hs' : Int32.min_int <= coord a (bres_pos (bres_step E s))
                    <= Int32.max_int) by (rewrite Hc; apply wrap_range).
      destruct (IH _ Hs') as [k [Hk Hfin]].
      exists (k + 1). split; [lia |].
      rewrite Hfin, Hc. unfold Int32.add. rewrite wrap_wrap_add.
      f_equal. lia.
    + assert (Hs' : Int32.min_int <= coord a (bres_pos (bres_step E s))
                    <= Int32.max_int) by (rewrite Hc; exact Hs).
      destruct (IH _ Hs') as [k [Hk Hfin]].
      exists k. split; [lia |]. rewrite Hfin, Hc. reflexivity.
Qed.

Lemma max_abs_delta_attained sv ev :
  exists a, Z.abs (coord a ev - coord a sv) = max_abs_delta sv ev.
Proof.
  unfold max_abs_delta.
  destruct (Z.max_spec (Z.abs (iy ev - iy sv)) (Z.abs (iz ev - iz sv)))
    as [[_ H1] | [_ H1]];
    destruct (Z.max_spec (Z.abs (ix ev - ix sv))
                (Z.max (Z.abs (iy ev - iy sv)) (Z.abs (iz ev - iz sv))))
      as [[_ H2] | [_ H2]]; rewrite H2; rewrite ?H1;
    first [ now exists AxisX | now exists AxisY | now exists AxisZ ].
Qed.

Lemma bresenham_from_Returned_moderate sv ev path :
  in_int sv -> in_int ev -> bresenham_from sv ev = Returned path ->
  max_abs_delta sv ev <= 2147483646.
Proof.
  intros Hsv Hev H.
  apply bresenham_from_Returned in H. destruct H as [Hadd [_ Hfin]].
  destruct (bres_env_dm sv ev Hadd) as [Hdm _].
  destruct (max_abs_delta_attained sv ev) as [a Ha]. rewrite <- Ha.
  assert (Hi : coord a (bres_pos (bres_init sv (bres_env sv ev))) = coord a sv)
    by (destruct a; reflexivity).
  destruct (bres_count a (bres_env sv ev) (bres_env_unit a sv ev)
              (Z.to_nat (dm (bres_env sv ev)))
              (bres_init sv (bres_env sv ev))
              ltac:(rewrite Hi; apply Hsv)) as [k [Hk Hc]].
  rewrite Hfin, Hi in Hc. rewrite Z2Nat.id in Hk by lia.
  assert (Hs : bres_s a (bres_env sv ev)
               = if coord a sv <? coord a ev then 1 else -1)
    by (destruct a; reflexivity).
  rewrite Hs in Hc.
  destruct (wrap_eqm (coord a sv
                      + (if coord a sv <? coord a ev then 1 else -1) * k))
    as [i Hi'].
  pose proof (Hsv a) as Ra. pose proof (Hev a) as Rb.
  unfold Int32.min_int, Int32.max_int in *.
  destruct (coord a sv <? coord a ev) eqn:E;
    [apply Z.ltb_lt in E | apply Z.ltb_ge in E]; lia.
Qed.

(** X11.  [VoxelCastingBresenham] returns a path exactly when the two indices
    are at most 2147483646 apart on every axis; on any longer ray it fails its
    [CHECK_EQ] or its [reserve]. *)
Theorem bresenham_returns_iff T ray_start ray_end step_size :
  (exists path,
      VoxelCastingBresenham T ray_start ray_end step_size = Returned path) <->
  max_abs_delta (VoxelIndexLround T ray_start step_size)
                (VoxelIndexLround T ray_end step_size) <= 2147483646.
Proof.
  set (sv := VoxelIndexLround T ray_start step_size).
  set (ev := VoxelIndexLround T ray_end step_size).
  assert (Hsv : in_int sv) by (intros b; apply VoxelIndexLround_range).
  assert (Hev : in_int ev) by (intros b; apply VoxelIndexLround_range).
  split.
  - intros [path H]. rewrite VoxelCastingBresenham_eq in H. fold sv ev in H.
    exact (bresenham_from_Returned_moderate sv ev path Hsv Hev H).
  - intros Hb. eexists. rewrite VoxelCastingBresenham_eq. fold sv ev.
    apply (bresenham_from_in_range sv ev Hsv Hev Hb).
Qed.

Lemma bresenham_returns_iff_witness :
  ~ exists path,
      VoxelCastingBresenham x86_64 (vec 0 (-2147483520) 0)
                            (vec 0 2147483520 0) one = Returned path.
Proof.
  intros H.
  apply (proj1 (bresenham_returns_iff x86_64 (vec 0 (-2147483520) 0)
                  (vec 0 2147483520 0) one)) in H.
  revert H. vm_compute. intros H. apply H. reflexivity.
Defined.

(** ** The length of a returned path *)

Lemma dda_no_min_int sv ev a :
  in_int sv -> in_int ev ->
  0 <= Int32.add (max_delta (dda_env sv ev)) 1 ->
  current (Nat.iter (Z.to_nat (max_delta (dda_env sv ev)))
                    (dda_step (dda_env sv ev)) (dda_init sv)) = ev ->
  Int32.sub (coord a ev) (coord a sv) <> Int32.min_int.
Proof.
  intros Hsv Hev Hadd Hfin Hw.
  destruct (dda_env_max_delta sv ev Hadd) as [Hm _].
  set (E := dda_env sv ev) in *.
  destruct (dda_count a E (dda_env_unit a sv ev) (Z.to_nat (max_delta E))
              (dda_init sv) (Hsv a)) as [k [Hk [Hc _]]].
  rewrite Hfin in Hc. change (coord a (current (dda_init sv))) with (coord a sv) in Hc.
  rewrite Z2Nat.id in Hk by lia.
  assert (Hs : coord a (step E)
               = if 0 <=? Int32.sub (coord a ev) (coord a sv) then 1 else -1)
    by (destruct a; reflexivity).
  rewrite Hs, Hw in Hc. change (0 <=? Int32.min_int) with false in Hc.
  unfold Int32.sub in Hw.
  destruct (wrap_eqm (coord a ev - coord a sv)) as [i Hi].
  destruct (wrap_eqm (coord a sv + -1 * k)) as [j Hj].
  pose proof (Hsv a) as Ra. pose proof (Hev a) as Rb.
  unfold Int32.min_int, Int32.max_int in *. lia.
Qed.

Lemma abs_of_abs w :
  Int32.min_int < w <= Int32.max_int -> abs_of w = Z.abs w.
Proof.
  unfold abs_of, Int32.neg, Int32.min_int, Int32.max_int. intros H.
  destruct (w <? 0) eqn:E; [apply Z.ltb_lt in E | apply Z.ltb_ge in E].
  - rewrite wrap_small by (unfold Int32.min_int, Int32.max_int; lia). lia.
  - lia.
Qed.

Lemma sub_range a b : Int32.min_int <= Int32.sub a b <= Int32.max_int.
Proof. apply wrap_range. Qed.

Lemma bresenham_from_length sv ev path :
  in_int sv -> in_int ev -> bresenham_from sv ev = Returned path ->
  Z.of_nat (length path) = max_abs_int_delta sv ev + 1.
Proof.
  intros Hsv Hev H.
  pose proof (bresenham_from_Returned_moderate sv ev path Hsv Hev H) as Hb.
  rewrite (bresenham_from_in_range sv ev Hsv Hev Hb) in H.
  injection H as <-.
  pose proof (max_abs_delta_nonneg sv ev) as H0.
  rewrite trace_length, Nat2Z.inj_succ, Z2Nat.id by lia.
  unfold Z.succ. f_equal.
  unfold max_abs_int_delta, max_abs_delta, Int32.sub.
  pose proof (max_abs_delta_coord AxisX sv ev) as Hx.
  pose proof (max_abs_delta_coord AxisY sv ev) as Hy.
  pose proof (max_abs_delta_coord AxisZ sv ev) as Hz. cbn [coord] in Hx, Hy, Hz.
  rewrite !wrap_small by (unfold Int32.min_int, Int32.max_int; lia).
  reflexivity.
Qed.

Lemma dda_from_length sv ev path :
  in_int sv -> in_int ev -> dda_from sv ev = Returned path ->
  Z.of_nat (length path) = max_abs_int_delta sv ev + 1.
Proof.
  intros Hsv Hev H.
  apply dda_from_Returned in H. destruct H as [Hadd [-> Hfin]].
  destruct (dda_env_max_delta sv ev Hadd) as [Hm _].
  rewrite trace_length, Nat2Z.inj_succ, Z2Nat.id by lia.
  unfold Z.succ. f_equal.
  assert (G : forall a, coord a (delta (dda_env sv ev))
                        = Z.abs (Int32.sub (coord a ev) (coord a sv))).
  { intros a.
    assert (Hd : coord a (delta (dda_env sv ev))
                 = abs_of (Int32.sub (coord a ev) (coord a sv)))
      by (destruct a; reflexivity).
    rewrite Hd. apply abs_of_abs.
    pose proof (sub_range (coord a ev) (coord a sv)) as Hr.
    pose proof (dda_no_min_int sv ev a Hsv Hev Hadd Hfin) as Hn. lia. }
  assert (Hmax : max_delta (dda_env sv ev) =
                 Z.max (coord AxisX (delta (dda_env sv ev)))
                       (Z.max (coord AxisY (delta (dda_env sv ev)))
                              (coord AxisZ (delta (dda_env sv ev))))).
  { unfold dda_env. cbn [max_delta delta coord ix iy iz]. apply if_max. }
  rewrite Hmax, (G AxisX), (G AxisY), (G AxisZ). reflexivity.
Qed.

(** X12.  Whenever an integer routine returns, its path has one element more
    than the largest of the three differences of the two indices as computed
    in [int] arithmetic: 257 elements for indices 4294967040 apart, whose
    difference wraps around to -256. *)
Theorem returned_path_length T ray_start ray_end step_size :
  let sv := VoxelIndexLround T ray_start step_size in
  let ev := VoxelIndexLround T ray_end step_size in
  (forall path,
      VoxelCastingBresenham T ray_start ray_end step_size = Returned path ->
      Z.of_nat (length path) = max_abs_int_delta sv ev + 1) /\
  (forall path,
      VoxelCastingDDA T ray_start ray_end step_size = Returned path ->
      Z.of_nat (length path) = max_abs_int_delta sv ev + 1).
Proof.
  intros sv ev.
  assert (Hsv : in_int sv) by (intros b; apply VoxelIndexLround_range).
  assert (Hev : in_int ev) by (intros b; apply VoxelIndexLround_range).
  split; intros path H.
  - rewrite VoxelCastingBresenham_eq in H.
    exact (bresenham_from_length sv ev path Hsv Hev H).
  - rewrite VoxelCastingDDA_eq in H.
    exact (dda_from_length sv ev path Hsv Hev H).
Qed.

Lemma returned_path_length_witness :
  exists path,
    VoxelCastingDDA x86_64 (vec 0 (-2147483520) 0) (vec 0 2147483520 0) one
    = Returned path /\
    Z.of_nat (length path) = 257.
Proof.
  assert (H : exists path,
             VoxelCastingDDA x86_64 (vec 0 (-2147483520) 0)
                             (vec 0 2147483520 0) one = Returned path)
    by (eexists; vm_compute; reflexivity).
  destruct H as [path H]. exists path. split; [exact H |].
  rewrite (proj2 (returned_path_length x86_64 (vec 0 (-2147483520) 0)
                    (vec 0 2147483520 0) one) path H).
  vm_compute. reflexivity.
Defined.

(** * The indices of the specification and the indices of the code *)

(** ** The result of a division has a mantissa of at most 24 bits *)

Lemma shr_1_half mrs : 0 <= shr_m mrs -> shr_m (shr_1 mrs) = shr_m mrs / 2.
Proof.
  destruct mrs as [m r s]. cbn [shr_m]. intros H.
  destruct m as [| [p | p |] | p]; try lia; cbn [shr_1 shr_m].
  - reflexivity.
  - rewrite Pos2Z.inj_xI. apply Z.div_unique with (r := 1); lia.
  - rewrite Pos2Z.inj_xO. apply Z.div_unique with (r := 0); lia.
  - reflexivity.
Qed.

Lemma shr_nat_div k : forall mrs,
  0 <= shr_m mrs ->
  shr_m (Nat.iter k shr_1 mrs) = shr_m mrs / 2 ^ Z.of_nat k.
Proof.
  induction k as [| k IH]; intros mrs H.
  - simpl. rewrite Z.div_1_r. reflexivity.
  - rewrite Nat.iter_succ_r, IH by (apply shr_1_nonneg, H).
    rewrite shr_1_half by exact H.
    rewrite Nat2Z.inj_succ, Z.pow_succ_r by lia.
    rewrite Z.div_div by (try lia; apply Z.pow_pos_nonneg; lia). reflexivity.
Qed.

Lemma shr_div mrs e n :
  0 <= shr_m mrs -> 0 <= n -> shr_m (fst (shr mrs e n)) = shr_m mrs / 2 ^ n.
Proof.
  intros H Hn. destruct n as [| p | p]; try lia.
  - simpl. rewrite Z.div_1_r. reflexivity.
  - unfold shr. cbn [fst]. rewrite iter_pos_nat, shr_nat_div by exact H.
    rewrite positive_nat_Z. reflexivity.
Qed.

Lemma Zdigits2_bound m : 0 <= m -> m < 2 ^ Zdigits2 m.
Proof.
  intros H. destruct m as [| p | p]; try lia.
  - simpl. lia.
  - rewrite Zdigits2_log2. apply Z.log2_spec. lia.
Qed.

Lemma Zdigits2_nonneg m : 0 <= Zdigits2 m.
Proof. destruct m; simpl; lia. Qed.

Lemma shr_record_of_loc_m m l : shr_m (shr_record_of_loc m l) = m.
Proof. destruct l as [| []]; reflexivity. Qed.

Lemma shr_fexp_bound m e l :
  0 <= m -> 0 <= shr_m (fst (shr_fexp 24 128 m e l)) < 2 ^ 24.
Proof.
  intros H. split; [apply shr_fexp_nonneg, H |].
  unfold shr_fexp.
  pose proof (Zdigits2_bound m H) as Hd. pose proof (Zdigits2_nonneg m) as Hd0.
  set (d := Zdigits2 m) in *.
  set (n := fexp 24 128 (d + e) - e).
  assert (Hn : d - 24 <= n) by (unfold n, fexp, emin; lia).
  destruct (Z.le_gt_cases n 0) as [Hle | Hgt].
  - assert (Hs : shr (shr_record_of_loc m l) e n = (shr_record_of_loc m l, e))
      by (unfold shr; destruct n; try reflexivity; lia).
    rewrite Hs. cbn [fst]. rewrite shr_record_of_loc_m.
    assert (2 ^ d <= 2 ^ 24) by (apply Z.pow_le_mono_r; lia). lia.
  - rewrite shr_div by (try rewrite shr_record_of_loc_m; lia).
    rewrite shr_record_of_loc_m.
    apply Z.div_lt_upper_bound; [apply Z.pow_pos_nonneg; lia |].
    rewrite <- Z.pow_add_r by lia.
    assert (2 ^ d <= 2 ^ (n + 24)) by (apply Z.pow_le_mono_r; lia). lia.
Qed.

Lemma binary_round_aux_bounded s m e l :
  0 <= m ->
  match binary_round_aux 24 128 s m e l with
  | S754_finite _ m' _ => Zpos m' < 2 ^ 24
  | _ => True
  end.
Proof.
  intros H. unfold binary_round_aux.
  pose proof (shr_fexp_bound m e l H) as H1.
  destruct (shr_fexp 24 128 m e l) as [mrs' e']. cbn [fst] in H1.
  pose proof (shr_fexp_bound _ e' loc_Exact
                (round_nearest_even_nonneg _ (loc_of_shr_record mrs') (proj1 H1)))
    as H2.
  destruct (shr_fexp 24 128 _ e' loc_Exact) as [mrs'' e'']. cbn [fst] in H2.
  destruct (shr_m mrs'') as [| p | p]; try exact I.
  destruct (e'' <=? 128 - 24); [lia | exact I].
Qed.

Lemma div_canonical x y : canonical (Float32.div x y).
Proof.
  unfold canonical, Float32.div, SFdiv.
  destruct x as [sx | sx | | sx mx ex], y as [sy | sy | | sy my ey]; try exact I.
  unfold SFdiv_core_binary.
  set (s := ex - ey - _).
  set (m' := match s with Z.pos _ => _ | 0 => _ | Z.neg _ => _ end).
  assert (Hm : 0 <= m').
  { unfold m'. destruct s; try lia. apply Z.shiftl_nonneg. lia. }
  pose proof (Z_div_mod m' (Zpos my) ltac:(lia)) as Hdm.
  destruct (Z.div_eucl m' (Zpos my)) as [q r].
  apply binary_round_aux_bounded. nia.
Qed.

(** ** [std::floor], the conversions, and the floor *)

Lemma cond_Zopp_mul s a b : cond_Zopp s a * b = cond_Zopp s (a * b).
Proof. destruct s; simpl; lia. Qed.

Lemma floor_div_bound a k :
  0 < a -> 0 < k -> - a <= (- a) / k <= 0 /\ 0 <= a / k <= a.
Proof.
  intros Ha Hk. split.
  - split.
    + apply Z.div_le_lower_bound; [lia | nia].
    + apply Z.div_le_upper_bound; [lia | nia].
  - split.
    + apply Z.div_pos; lia.
    + apply Z.div_le_upper_bound; [lia | nia].
Qed.

Lemma trunc_normalize_small z s :
  Z.abs z < 2 ^ 24 -> (z = 0 \/ (0 < z <-> s = false)) ->
  Float32.trunc (binary_normalize 24 128 z 0 s) = Some z.
Proof.
  intros Hz Hs. destruct z as [| P | P].
  - reflexivity.
  - cbn [binary_normalize].
    destruct (binary_round_small false P ltac:(lia)) as [Q [L [-> [HL HQ]]]].
    exact (proj2 (round_away_trunc_exact false Q L (Zpos P) HL ltac:(lia) HQ)).
  - cbn [binary_normalize].
    destruct (binary_round_small true P ltac:(lia)) as [Q [L [-> [HL HQ]]]].
    exact (proj2 (round_away_trunc_exact true Q L (Zpos P) HL ltac:(lia) HQ)).
Qed.

(** The integer part of what [std::floor] returns is the floor of its
    argument. *)
Lemma trunc_floor_floorZ q :
  canonical q -> Float32.trunc (Float32.floor q) = floorZ q.
Proof.
  destruct q as [s | s | | s m e]; try reflexivity.
  cbn [canonical]. intros Hm. unfold Float32.floor, floorZ.
  destruct (0 <=? e) eqn:E; [apply Z.leb_le in E | apply Z.leb_gt in E].
  - unfold Float32.trunc. replace (0 <=? e) with true by (symmetry; apply Z.leb_le; lia).
    rewrite Z.shiftl_mul_pow2 by lia. rewrite cond_Zopp_mul. reflexivity.
  - rewrite Z.shiftr_div_pow2 by lia.
    assert (Hp : 0 < 2 ^ (- e)) by (apply Z.pow_pos_nonneg; lia).
    destruct (floor_div_bound (Zpos m) (2 ^ (- e)) ltac:(lia) Hp) as [Hn Hq].
    apply trunc_normalize_small.
    + destruct s; cbn [cond_Zopp]; lia.
    + destruct s; cbn [cond_Zopp].
      * destruct (Z.eq_dec (- Zpos m / 2 ^ (- e)) 0); [auto | right].
        split; [lia | discriminate].
      * destruct (Z.eq_dec (Zpos m / 2 ^ (- e)) 0); [auto | right].
        split; [reflexivity | lia].
Qed.

(** [floorZ] is the floor: the largest integer not above the number. *)
Lemma floorZ_is_floor s m e z :
  floorZ (S754_finite s m e) = Some z ->
  if 0 <=? e then z = cond_Zopp s (Zpos m) * 2 ^ e
  else z * 2 ^ (- e) <= cond_Zopp s (Zpos m) < (z + 1) * 2 ^ (- e).
Proof.
  unfold floorZ. intros [= <-].
  destruct (0 <=? e) eqn:E; [reflexivity | apply Z.leb_gt in E].
  assert (Hp : 0 < 2 ^ (- e)) by (apply Z.pow_pos_nonneg; lia).
  pose proof (Z.div_mod (cond_Zopp s (Zpos m)) (2 ^ (- e)) ltac:(lia)) as Hd.
  pose proof (Z.mod_pos_bound (cond_Zopp s (Zpos m)) (2 ^ (- e)) Hp) as Hr.
  nia.
Qed.

Lemma index_of_floor T c step_size z :
  floorZ (Float32.div c step_size) = Some z -> Int32.in_range z = true ->
  float_to_int T (Float32.floor (Float32.div c step_size)) = z /\
  lround_index T c step_size = z.
Proof.
  intros Hz Hr.
  pose proof (trunc_floor_floorZ _ (div_canonical c step_size)) as Ht.
  rewrite Hz in Ht.
  unfold lround_index, lround, long_to_int, float_to_int.
  rewrite floor_integral, Ht, Hr. split; [reflexivity |].
  apply in_range_spec in Hr. unfold Int32.min_int, Int32.max_int in Hr.
  replace ((- 2 ^ 63 <=? z) && (z <=? 2 ^ 63 - 1)) with true
    by (symmetry; apply andb_true_iff; split; apply Z.leb_le; lia).
  apply wrap_small. unfold Int32.min_int, Int32.max_int. lia.
Qed.

(** The quotient is a [float]: the point of coordinate 3 + 2^-22 lies below
    three times the step size 1 + 2^-23, and its quotient by that step size
    is rounded to 3. *)
Example quotient_is_rounded :
  let c := S754_finite false 12582913 (-22) in
  let step_size := S754_finite false 8388609 (-23) in
  12582913 * 2 < 3 * 8388609 /\
  Float32.div c step_size = Float32.of_int 3 /\
  floorZ (Float32.div c step_size) = Some 3 /\
  forall T, float_to_int T (Float32.floor (Float32.div c step_size)) = 3.
Proof.
  cbv zeta. split; [lia |]. split; [vm_compute; reflexivity |].
  split; [vm_compute; reflexivity |]. intros T. vm_compute. reflexivity.
Qed.

Lemma SpecVoxelIndex_coord p step_size v a :
  SpecVoxelIndex p step_size = Some v ->
  floorZ (Float32.div (fcoord a p) step_size) = Some (coord a v).
Proof.
  unfold SpecVoxelIndex.
  destruct (floorZ (Float32.div (fx p) step_size)) as [x |] eqn:Hx;
    [| discriminate].
  destruct (floorZ (Float32.div (fy p) step_size)) as [y |] eqn:Hy;
    [| discriminate].
  destruct (floorZ (Float32.div (fz p) step_size)) as [z |] eqn:Hz;
    [| discriminate].
  intros [= <-]. destruct a; assumption.
Qed.

Lemma VoxelIndex_of_spec T p step_size v :
  voxel_of p step_size v ->
  VoxelIndex T p step_size = v /\ VoxelIndexLround T p step_size = v.
Proof.
  intros [Hv [Hx [Hy Hz]]].
  destruct (index_of_floor T _ _ _ (SpecVoxelIndex_coord _ _ _ AxisX Hv) Hx)
    as [X1 X2].
  destruct (index_of_floor T _ _ _ (SpecVoxelIndex_coord _ _ _ AxisY Hv) Hy)
    as [Y1 Y2].
  destruct (index_of_floor T _ _ _ (SpecVoxelIndex_coord _ _ _ AxisZ Hv) Hz)
    as [Z1 Z2].
  cbn [fcoord coord] in *. unfold VoxelIndex, VoxelIndexLround.
  rewrite X1, X2, Y1, Y2, Z1, Z2. destruct v; auto.
Qed.

(** ** First and last element *)

(** C1.  Whenever one of the three routines returns a path, the first element
    of the path is the voxel index of [ray_start] (per axis, the floor of the
    coordinate divided by the step size) provided that index fits an [int] on
    every axis, and the last element is the voxel index of [ray_end] provided
    that index fits an [int] on every axis. *)
Theorem returned_path_endpoints T ray_start ray_end step_size :
  (forall fuel path d,
      VoxelCasting T fuel ray_start ray_end step_size = Some path ->
      (forall sv, voxel_of ray_start step_size sv -> hd_error path = Some sv) /\
      (forall ev, voxel_of ray_end step_size ev -> last path d = ev)) /\
  (forall path d,
      VoxelCastingBresenham T ray_start ray_end step_size = Returned path ->
      (forall sv, voxel_of ray_start step_size sv -> hd_error path = Some sv) /\
      (forall ev, voxel_of ray_end step_size ev -> last path d = ev)) /\
  (forall path d,
      VoxelCastingDDA T ray_start ray_end step_size = Returned path ->
      (forall sv, voxel_of ray_start step_size sv -> hd_error path = Some sv) /\
      (forall ev, voxel_of ray_end step_size ev -> last path d = ev)).
Proof.
  destruct (returned_path_code_endpoints T ray_start ray_end step_size)
    as [H1 [H2 H3]].
  split; [| split].
  - intros fuel path d H. destruct (H1 fuel path d H) as [Hh Hl].
    split; intros v Hv; destruct (VoxelIndex_of_spec T _ _ _ Hv) as [<- _];
      assumption.
  - intros path d H. destruct (H2 path d H) as [Hh Hl].
    split; intros v Hv; destruct (VoxelIndex_of_spec T _ _ _ Hv) as [_ <-];
      assumption.
  - intros path d H. destruct (H3 path d H) as [Hh Hl].
    split; intros v Hv; destruct (VoxelIndex_of_spec T _ _ _ Hv) as [_ <-];
      assumption.
Qed.

(** The ray from (-1.5, 0.5, 0.5) to (1.5, 0.5, 0.5): the floor of -1.5 is -2. *)
Lemma returned_path_endpoints_witness :
  let half := S754_finite false 8388608 (-24) in
  let ray_start := mkVector3f (S754_finite true 12582912 (-23)) half half in
  let ray_end := mkVector3f (S754_finite false 12582912 (-23)) half half in
  exists p q r,
    VoxelCasting x86_64 3 ray_start ray_end one = Some p /\
    VoxelCastingBresenham x86_64 ray_start ray_end one = Returned q /\
    VoxelCastingDDA x86_64 ray_start ray_end one = Returned r /\
    (hd_error p = Some (mkVector3i (-2) 0 0) /\
     last p (mkVector3i 0 0 0) = mkVector3i 1 0 0) /\
    (hd_error q = Some (mkVector3i (-2) 0 0) /\
     last q (mkVector3i 0 0 0) = mkVector3i 1 0 0) /\
    (hd_error r = Some (mkVector3i (-2) 0 0) /\
     last r (mkVector3i 0 0 0) = mkVector3i 1 0 0).
Proof.
  intros half ray_start ray_end.
  destruct (returned_path_endpoints x86_64 ray_start ray_end one)
    as [H1 [H2 H3]].
  assert (Vs : voxel_of ray_start one (mkVector3i (-2) 0 0))
    by (split; [vm_compute; reflexivity | vm_compute; auto]).
  assert (Ve : voxel_of ray_end one (mkVector3i 1 0 0))
    by (split; [vm_compute; reflexivity | vm_compute; auto]).
  eexists. eexists. eexists.
  assert (E1 : VoxelCasting x86_64 3 ray_start ray_end one
               = Some [mkVector3i (-2) 0 0; mkVector3i (-1) 0 0;
                       mkVector3i 0 0 0; mkVector3i 1 0 0])
    by (vm_compute; reflexivity).
  assert (E2 : VoxelCastingBresenham x86_64 ray_start ray_end one
               = Returned [mkVector3i (-2) 0 0; mkVector3i (-1) 0 0;
                           mkVector3i 0 0 0; mkVector3i 1 0 0])
    by (vm_compute; reflexivity).
  assert (E3 : VoxelCastingDDA x86_64 ray_start ray_end one
               = Returned [mkVector3i (-2) 0 0; mkVector3i (-1) 0 0;
                           mkVector3i 0 0 0; mkVector3i 1 0 0])
    by (vm_compute; reflexivity).
  split; [exact E1 |]. split; [exact E2 |]. split; [exact E3 |].
  destruct (H1 _ _ (mkVector3i 0 0 0) E1) as [A1 B1].
  destruct (H2 _ (mkVector3i 0 0 0) E2) as [A2 B2].
  destruct (H3 _ (mkVector3i 0 0 0) E3) as [A3 B3].
  split; [exact (conj (A1 _ Vs) (B1 _ Ve)) |].
  split; [exact (conj (A2 _ Vs) (B2 _ Ve)) | exact (conj (A3 _ Vs) (B3 _ Ve))].
Defined.

(** C1 as stated fails: on the ray from (3e9, 0, 0) to (3e9, 2, 0) with step
    size 1 the voxel index of [ray_start] is (3000000000, 0, 0), which no
    [int] holds; the path of [VoxelCasting] starts at x = -2147483648 and
    the paths of the two integer routines at x = -1294967296. *)
Lemma far_ray_endpoints :
  let ray_start := vec 3000000000 0 0 in
  let ray_end := vec 3000000000 2 0 in
  no_nan ray_start /\ no_nan ray_end /\ Float32.ltb Float32.zero one = true /\
  SpecVoxelIndex ray_start one = Some (mkVector3i 3000000000 0 0) /\
  SpecVoxelIndex ray_end one = Some (mkVector3i 3000000000 2 0) /\
  VoxelCasting x86_64 2 ray_start ray_end one
  = Some [mkVector3i (-2147483648) 0 0; mkVector3i (-2147483648) 1 0;
          mkVector3i (-2147483648) 2 0] /\
  VoxelCastingBresenham x86_64 ray_start ray_end one
  = Returned [mkVector3i (-1294967296) 0 0; mkVector3i (-1294967296) 1 0;
              mkVector3i (-1294967296) 2 0] /\
  VoxelCastingDDA x86_64 ray_start ray_end one
  = Returned [mkVector3i (-1294967296) 0 0; mkVector3i (-1294967296) 1 0;
              mkVector3i (-1294967296) 2 0].
Proof.
  cbv zeta.
  split; [vm_compute; auto |]. split; [vm_compute; auto |].
  split; [vm_compute; reflexivity |]. split; [vm_compute; reflexivity |].
  split; [vm_compute; reflexivity |]. split; [vm_compute; reflexivity |].
  split; vm_compute; reflexivity.
Qed.

(** ** Zero-length rays *)

(** C5.  When [ray_start == ray_end] (component-wise, as [float]s) and the
    voxel index of [ray_start] fits an [int] on every axis, each of the three
    routines returns the one-element path that holds that index. *)
Theorem zero_length_ray T fuel ray_start ray_end step_size sv :
  Vector3f_eqb ray_start ray_end = true ->
  voxel_of ray_start step_size sv ->
  VoxelCasting T fuel ray_start ray_end step_size = Some [sv] /\
  VoxelCastingBresenham T ray_start ray_end step_size = Returned [sv] /\
  VoxelCastingDDA T ray_start ray_end step_size = Returned [sv].
Proof.
  intros He Hv. destruct (VoxelIndex_of_spec T _ _ _ Hv) as [H1 H2].
  rewrite <- H1 at 1. rewrite <- H2. apply equal_endpoints_one_voxel, He.
Qed.

(** Scenario B, the ray from (0.5, 0.5, 0.5) to itself, and the ray from
    (-0.5, +0, 0.5) to (-0.5, -0, 0.5). *)
Lemma zero_length_ray_witness :
  let half := S754_finite false 8388608 (-24) in
  let mhalf := S754_finite true 8388608 (-24) in
  (VoxelCasting x86_64 0 (mkVector3f half half half)
                (mkVector3f half half half) one = Some [mkVector3i 0 0 0] /\
   VoxelCastingBresenham x86_64 (mkVector3f half half half)
                         (mkVector3f half half half) one
   = Returned [mkVector3i 0 0 0] /\
   VoxelCastingDDA x86_64 (mkVector3f half half half)
                   (mkVector3f half half half) one
   = Returned [mkVector3i 0 0 0]) /\
  (VoxelCasting x86_64 0 (mkVector3f mhalf (S754_zero false) half)
                (mkVector3f mhalf (S754_zero true) half) one
   = Some [mkVector3i (-1) 0 0] /\
   VoxelCastingBresenham x86_64 (mkVector3f mhalf (S754_zero false) half)
                         (mkVector3f mhalf (S754_zero true) half) one
   = Returned [mkVector3i (-1) 0 0] /\
   VoxelCastingDDA x86_64 (mkVector3f mhalf (S754_zero false) half)
                   (mkVector3f mhalf (S754_zero true) half) one
   = Returned [mkVector3i (-1) 0 0]).
Proof.
  intros half mhalf. split.
  - apply (zero_length_ray x86_64 0 (mkVector3f half half half)
             (mkVector3f half half half) one (mkVector3i 0 0 0)).
    + vm_compute. reflexivity.
    + split; [vm_compute; reflexivity | vm_compute; auto].
  - apply (zero_length_ray x86_64 0 (mkVector3f mhalf (S754_zero false) half)
             (mkVector3f mhalf (S754_zero true) half) one (mkVector3i (-1) 0 0)).
    + vm_compute. reflexivity.
    + split; [vm_compute; reflexivity | vm_compute; auto].
Defined.

(** C5 as stated fails: the zero-length ray at (3e9, 0, 0) with step size 1
    lies in voxel (3000000000, 0, 0); [VoxelCasting] returns the one voxel
    (-2147483648, 0, 0) and the two integer routines the one voxel
    (-1294967296, 0, 0). *)
Lemma far_zero_length_ray :
  let p := vec 3000000000 0 0 in
  no_nan p /\ Float32.ltb Float32.zero one = true /\
  Vector3f_eqb p p = true /\
  SpecVoxelIndex p one = Some (mkVector3i 3000000000 0 0) /\
  VoxelCasting x86_64 0 p p one = Some [mkVector3i (-2147483648) 0 0] /\
  VoxelCastingBresenham x86_64 p p one = Returned [mkVector3i (-1294967296) 0 0] /\
  VoxelCastingDDA x86_64 p p one = Returned [mkVector3i (-1294967296) 0 0].
Proof.
  cbv zeta.
  split; [vm_compute; auto |]. split; [vm_compute; reflexivity |].
  split; [vm_compute; reflexivity |]. split; [vm_compute; reflexivity |].
  split; [vm_compute; reflexivity |]. split; vm_compute; reflexivity.
Qed.

(** ** The length of a returned path, in voxel indices *)

Lemma floorZ_big_multiple q z :
  canonical q -> floorZ q = Some z -> 2 ^ 62 <= Z.abs z ->
  exists k, z = k * 2 ^ 39.
Proof.
  destruct q as [s | s | | s m e]; cbn [canonical floorZ]; intros Hm [= <-] Hz;
    try (simpl in Hz; lia).
  destruct (0 <=? e) eqn:E; [apply Z.leb_le in E | apply Z.leb_gt in E].
  - destruct (Z.lt_ge_cases e 39) as [Hlt | Hge].
    + exfalso.
      assert (Hp : 0 < 2 ^ e) by (apply Z.pow_pos_nonneg; lia).
      assert (Hq : 2 ^ e <= 2 ^ 38) by (apply Z.pow_le_mono_r; lia).
      assert (Ha : Z.abs (cond_Zopp s (Zpos m) * 2 ^ e) = Zpos m * 2 ^ e)
        by (destruct s; cbn [cond_Zopp]; lia).
      rewrite Ha in Hz.
      assert (Zpos m * 2 ^ e < 2 ^ 24 * 2 ^ 38) by nia.
      change (2 ^ 24 * 2 ^ 38) with (2 ^ 62) in *. lia.
    + exists (cond_Zopp s (Zpos m) * 2 ^ (e - 39)).
      rewrite <- Z.mul_assoc, <- Z.pow_add_r by lia. do 2 f_equal. lia.
  - exfalso.
    assert (Hp : 0 < 2 ^ (- e)) by (apply Z.pow_pos_nonneg; lia).
    destruct (floor_div_bound (Zpos m) (2 ^ (- e)) ltac:(lia) Hp) as [Hn Hq].
    destruct s; cbn [cond_Zopp] in Hz; lia.
Qed.

Lemma lround_index_of_floor T c step_size z :
  floorZ (Float32.div c step_size) = Some z ->
  lround_index T c step_size
  = Int32.wrap (if fits_long z then z else lround_invalid T).
Proof.
  intros Hz.
  pose proof (trunc_floor_floorZ _ (div_canonical c step_size)) as Ht.
  rewrite Hz in Ht.
  unfold lround_index, lround, long_to_int.
  rewrite floor_integral, Ht. reflexivity.
Qed.

Lemma wrap_sub_wrap a b : Int32.sub (Int32.wrap a) (Int32.wrap b) = Int32.wrap (a - b).
Proof.
  unfold Int32.sub.
  destruct (wrap_eqm a) as [i Hi]. destruct (wrap_eqm b) as [j Hj].
  destruct (wrap_eqm (a - b)) as [k Hk].
  apply wrap_unique with (k := k - i + j).
  - apply wrap_range.
  - lia.
Qed.

(** The difference of two stored indices, computed in [int], is the
    difference of the two floors whenever that difference fits an [int]. *)
Lemma stored_difference T c1 c2 step_size z1 z2 :
  floorZ (Float32.div c1 step_size) = Some z1 ->
  floorZ (Float32.div c2 step_size) = Some z2 ->
  Z.abs (z2 - z1) <= 2147483647 ->
  Int32.sub (lround_index T c2 step_size) (lround_index T c1 step_size)
  = z2 - z1.
Proof.
  intros H1 H2 Hd.
  rewrite (lround_index_of_floor T _ _ _ H1), (lround_index_of_floor T _ _ _ H2).
  rewrite wrap_sub_wrap.
  assert (Hsame : fits_long z1 = false \/ fits_long z2 = false -> z1 = z2).
  { intros Hout.
    assert (Hbig : 2 ^ 62 <= Z.abs z1 /\ 2 ^ 62 <= Z.abs z2).
    { unfold fits_long in Hout.
      destruct Hout as [Hout | Hout]; apply andb_false_iff in Hout;
        destruct Hout as [Hout | Hout];
        first [apply Z.leb_gt in Hout | apply Z.leb_gt in Hout]; lia. }
    destruct (floorZ_big_multiple _ _ (div_canonical c1 step_size) H1 (proj1 Hbig))
      as [k1 Hk1].
    destruct (floorZ_big_multiple _ _ (div_canonical c2 step_size) H2 (proj2 Hbig))
      as [k2 Hk2].
    assert (k1 = k2) by lia. congruence. }
  destruct (fits_long z1) eqn:F1, (fits_long z2) eqn:F2.
  - apply wrap_small. unfold Int32.min_int, Int32.max_int. lia.
  - rewrite (Hsame (or_intror eq_refl)) in *. rewrite F2 in F1. discriminate.
  - rewrite (Hsame (or_introl eq_refl)) in *. rewrite F2 in F1. discriminate.
  - rewrite (Hsame (or_introl eq_refl)). rewrite !Z.sub_diag. reflexivity.
Qed.

Lemma max_abs_int_delta_of_spec T rs re step_size sv ev :
  SpecVoxelIndex rs step_size = Some sv ->
  SpecVoxelIndex re step_size = Some ev ->
  max_abs_delta sv ev <= 2147483647 ->
  max_abs_int_delta (VoxelIndexLround T rs step_size)
                    (VoxelIndexLround T re step_size)
  = max_abs_delta sv ev.
Proof.
  intros Hs He Hb.
  assert (G : forall a,
             Int32.sub (lround_index T (fcoord a re) step_size)
                       (lround_index T (fcoord a rs) step_size)
             = coord a ev - coord a sv).
  { intros a. apply stored_difference.
    - apply SpecVoxelIndex_coord, Hs.
    - apply SpecVoxelIndex_coord, He.
    - pose proof (max_abs_delta_coord a sv ev). lia. }
  pose proof (G AxisX) as Gx. pose proof (G AxisY) as Gy.
  pose proof (G AxisZ) as Gz. cbn [fcoord coord] in Gx, Gy, Gz.
  unfold max_abs_int_delta, max_abs_delta, VoxelIndexLround. cbn [ix iy iz].
  rewrite Gx, Gy, Gz. reflexivity.
Qed.

(** C4.  When the voxel indices of [ray_start] and [ray_end] differ by at
    most 2147483647 on every axis, a path that [VoxelCastingBresenham] or
    [VoxelCastingDDA] returns has one element more than the largest of the
    three differences.  The indices themselves need not fit an [int]. *)
Theorem path_length_of_returned_paths T ray_start ray_end step_size sv ev :
  SpecVoxelIndex ray_start step_size = Some sv ->
  SpecVoxelIndex ray_end step_size = Some ev ->
  max_abs_delta sv ev <= 2147483647 ->
  (forall path,
      VoxelCastingBresenham T ray_start ray_end step_size = Returned path ->
      Z.of_nat (length path) = max_abs_delta sv ev + 1) /\
  (forall path,
      VoxelCastingDDA T ray_start ray_end step_size = Returned path ->
      Z.of_nat (length path) = max_abs_delta sv ev + 1).
Proof.
  intros Hs He Hb.
  rewrite <- (max_abs_int_delta_of_spec T _ _ _ _ _ Hs He Hb).
  split; intros path H.
  - rewrite VoxelCastingBresenham_eq in H.
    apply bresenham_from_length; [| | exact H]; intros a;
      apply VoxelIndexLround_range.
  - rewrite VoxelCastingDDA_eq in H.
    apply dda_from_length; [| | exact H]; intros a;
      apply VoxelIndexLround_range.
Qed.

(** Scenario C, the ray from (0,0,0) to (2,2,2), and the ray from
    x = 2147483520 to x = 2147483904, whose end index no [int] holds. *)
Lemma path_length_of_returned_paths_witness :
  (exists path,
      VoxelCastingBresenham x86_64 (vec 0 0 0) (vec 2 2 2) one = Returned path /\
      Z.of_nat (length path) = 3) /\
  (exists path,
      VoxelCastingDDA x86_64 (vec 0 0 0) (vec 2 2 2) one = Returned path /\
      Z.of_nat (length path) = 3) /\
  (exists path,
      VoxelCastingDDA x86_64 (vec 2147483520 0 0) (vec 2147483904 0 0) one
      = Returned path /\
      Z.of_nat (length path) = 385).
Proof.
  assert (S0 : SpecVoxelIndex (vec 0 0 0) one = Some (mkVector3i 0 0 0))
    by (vm_compute; reflexivity).
  assert (S2 : SpecVoxelIndex (vec 2 2 2) one = Some (mkVector3i 2 2 2))
    by (vm_compute; reflexivity).
  assert (Sa : SpecVoxelIndex (vec 2147483520 0 0) one
               = Some (mkVector3i 2147483520 0 0)) by (vm_compute; reflexivity).
  assert (Sb : SpecVoxelIndex (vec 2147483904 0 0) one
               = Some (mkVector3i 2147483904 0 0)) by (vm_compute; reflexivity).
  destruct (path_length_of_returned_paths x86_64 _ _ _ _ _ S0 S2
              ltac:(vm_compute; intros H; discriminate H)) as [HB HD].
  destruct (path_length_of_returned_paths x86_64 _ _ _ _ _ Sa Sb
              ltac:(vm_compute; intros H; discriminate H)) as [_ HD'].
  split; [| split].
  - eexists. split; [vm_compute; reflexivity |].
    rewrite (HB _ ltac:(vm_compute; reflexivity)). reflexivity.
  - eexists. split; [vm_compute; reflexivity |].
    rewrite (HD _ ltac:(vm_compute; reflexivity)). reflexivity.
  - eexists. split; [vm_compute; reflexivity |].
    rewrite (HD' _ ltac:(vm_compute; reflexivity)). reflexivity.
Defined.

(** C4 as stated fails.  On the ray from x = 0 to x = 2^32 the end index is
    narrowed to 0 and both routines return the one voxel (0,0,0), where the
    indices differ by 4294967296.  On the ray from y = -2147483520 to
    y = 2147483520 both indices fit an [int], their difference 4294967040
    does not and wraps around to -256, and [VoxelCastingDDA] returns 257
    elements. *)
Lemma long_ray_lengths :
  no_nan (vec 0 0 0) /\ no_nan (vec 4294967296 0 0) /\
  no_nan (vec 0 (-2147483520) 0) /\ no_nan (vec 0 2147483520 0) /\
  Float32.ltb Float32.zero one = true /\
  SpecVoxelIndex (vec 0 0 0) one = Some (mkVector3i 0 0 0) /\
  SpecVoxelIndex (vec 4294967296 0 0) one = Some (mkVector3i 4294967296 0 0) /\
  VoxelCastingBresenham x86_64 (vec 0 0 0) (vec 4294967296 0 0) one
  = Returned [mkVector3i 0 0 0] /\
  VoxelCastingDDA x86_64 (vec 0 0 0) (vec 4294967296 0 0) one
  = Returned [mkVector3i 0 0 0] /\
  SpecVoxelIndex (vec 0 (-2147483520) 0) one
  = Some (mkVector3i 0 (-2147483520) 0) /\
  SpecVoxelIndex (vec 0 2147483520 0) one = Some (mkVector3i 0 2147483520 0) /\
  exists path,
    VoxelCastingDDA x86_64 (vec 0 (-2147483520) 0) (vec 0 2147483520 0) one
    = Returned path /\
    Z.of_nat (length path) = 257.
Proof.
  split; [vm_compute; auto |]. split; [vm_compute; auto |].
  split; [vm_compute; auto |]. split; [vm_compute; auto |].
  split; [vm_compute; reflexivity |]. split; [vm_compute; reflexivity |].
  split; [vm_compute; reflexivity |]. split; [vm_compute; reflexivity |].
  split; [vm_compute; reflexivity |]. split; [vm_compute; reflexivity |].
  split; [vm_compute; reflexivity |].
  eexists. split; vm_compute; reflexivity.
Qed.

(** ** The check of the final index *)

Lemma iter_invariant {S : Type} (P : S -> Prop) (f : S -> S) :
  (forall s, P s -> P (f s)) -> forall n s, P s -> P (Nat.iter n f s).
Proof.
  intros Hf. induction n as [| n IH]; intros s Hs; [exact Hs |].
  change (Nat.iter (Datatypes.S n) f s) with (f (Nat.iter n f s)). auto.
Qed.

(** The loop of [VoxelCastingDDA] never being at the end index, the check
    after it fails. *)
Lemma dda_from_stuck sv ev :
  0 <= Int32.add (max_delta (dda_env sv ev)) 1 ->
  (forall n, current (Nat.iter n (dda_step (dda_env sv ev)) (dda_init sv)) <> ev) ->
  dda_from sv ev = CheckFailed.
Proof.
  intros Hadd Hne. unfold dda_from. fold (dda_init sv).
  destruct (Int32.add _ 1 <? 0) eqn:Hr; [apply Z.ltb_lt in Hr; lia |].
  destruct (dda_loop_trace (Z.to_nat (max_delta (dda_env sv ev)))
              (dda_env sv ev) (dda_init sv)) as [_ H2].
  destruct (dda_loop _ _ _) as [l' s']. cbn [snd] in H2. subst s'.
  rewrite Vector3i_eqb_false by apply Hne. reflexivity.
Qed.

Lemma billion_stuck_step s :
  billion_stuck s -> billion_stuck (dda_step billion_env s).
Proof.
  destruct s as [c e]. unfold billion_stuck. cbn [current error].
  intros [-> [-> | [-> | [-> | ->]]]]; vm_compute; auto.
Qed.

Lemma dda_fails_where_bresenham_returns T :
  VoxelCastingDDA T (vec 0 0 0) (vec 1073741824 0 0) one = CheckFailed /\
  exists path,
    VoxelCastingBresenham T (vec 0 0 0) (vec 1073741824 0 0) one = Returned path /\
    Z.of_nat (length path) = 1073741825 /\
    forall d, last path d = mkVector3i 1073741824 0 0.
Proof.
  assert (Hs : VoxelIndexLround T (vec 0 0 0) one = mkVector3i 0 0 0)
    by (vm_compute; reflexivity).
  assert (He : VoxelIndexLround T (vec 1073741824 0 0) one
               = mkVector3i 1073741824 0 0) by (vm_compute; reflexivity).
  split.
  - rewrite VoxelCastingDDA_eq, Hs, He.
    assert (HE : dda_env (mkVector3i 0 0 0) (mkVector3i 1073741824 0 0)
                 = billion_env) by (vm_compute; reflexivity).
    apply dda_from_stuck; rewrite HE.
    + vm_compute. discriminate.
    + intros n.
      pose proof (iter_invariant billion_stuck (dda_step billion_env)
                    billion_stuck_step n (dda_init (mkVector3i 0 0 0))) as H.
      destruct H as [-> _]; [split; [reflexivity | left; reflexivity] |].
      discriminate.
  - rewrite VoxelCastingBresenham_eq, Hs, He.
    assert (Hsv : in_int (mkVector3i 0 0 0))
      by (intros a; destruct a; vm_compute; split; discriminate).
    assert (Hev : in_int (mkVector3i 1073741824 0 0))
      by (intros a; destruct a; vm_compute; split; discriminate).
    assert (Hd : max_abs_delta (mkVector3i 0 0 0) (mkVector3i 1073741824 0 0)
                 = 1073741824) by (vm_compute; reflexivity).
    assert (Hb : max_abs_delta (mkVector3i 0 0 0) (mkVector3i 1073741824 0 0)
                 <= Int32.max_int - 1) by (rewrite Hd; vm_compute; discriminate).
    pose proof (bresenham_from_in_range _ _ Hsv Hev Hb) as H.
    eexists. split; [exact H |]. split.
    + rewrite trace_length, Nat2Z.inj_succ, Z2Nat.id by (rewrite Hd; lia).
      rewrite Hd. reflexivity.
    + intros d. exact (bresenham_from_last _ _ _ d H).
Qed.

(** C2.  The [CHECK_EQ] of the final index against the end index does fail,
    on rays with finite coordinates and step size 1.  From x = 0 to x = 2^30
    the doubled error term of [VoxelCastingDDA] overflows, x never moves and
    the check fails, where [VoxelCastingBresenham] returns the 2^30 + 1 voxels
    of the ray.  From x = -2^30 to x = 2^30 the difference of the indices
    overflows to [INT_MIN], whose absolute value is [INT_MIN] again: the
    largest difference is zero, neither routine moves, both checks fail.
    From x = 2147483520 to x = 2147483904, 384 voxels, the end index is
    narrowed to a negative [int], [VoxelCastingBresenham] walks downwards and
    its check fails. *)
Theorem check_eq_fails_on_long_rays T :
  (no_nan (vec 0 0 0) /\ no_nan (vec 1073741824 0 0) /\
   no_nan (vec (-1073741824) 0 0) /\ no_nan (vec 2147483520 0 0) /\
   no_nan (vec 2147483904 0 0) /\ Float32.ltb Float32.zero one = true) /\
  (VoxelCastingDDA T (vec 0 0 0) (vec 1073741824 0 0) one = CheckFailed /\
   exists path,
     VoxelCastingBresenham T (vec 0 0 0) (vec 1073741824 0 0) one
     = Returned path /\
     Z.of_nat (length path) = 1073741825 /\
     forall d, last path d = mkVector3i 1073741824 0 0) /\
  (VoxelCastingBresenham T (vec (-1073741824) 0 0) (vec 1073741824 0 0) one
   = CheckFailed /\
   VoxelCastingDDA T (vec (-1073741824) 0 0) (vec 1073741824 0 0) one
   = CheckFailed) /\
  VoxelCastingBresenham T (vec 2147483520 0 0) (vec 2147483904 0 0) one
  = CheckFailed.
Proof.
  split; [repeat split; vm_compute; auto |].
  split; [apply dda_fails_where_bresenham_returns |].
  split; [split; vm_compute; reflexivity | vm_compute; reflexivity].
Qed.

(** ** Unit steps in absolute value *)


Lemma unit_move_wide lo hi c c' :
  hi - lo <= 4294967294 ->
  lo <= c <= hi -> lo <= c' <= hi -> unit_move c c' -> Z.abs (c' - c) <= 1.
Proof.
  unfold unit_move, Int32.add. intros Hw Hc Hc' [-> | [-> | ->]].
  - lia.
  - destruct (wrap_eqm (c + 1)) as [k Hk]. rewrite Hk in *. lia.
  - destruct (wrap_eqm (c + -1)) as [k Hk]. rewrite Hk in *. lia.
Qed.

Lemma unit_step_in_wide_box sv ev u v :
  max_abs_delta sv ev <= 2147483647 ->
  unit_step u v -> in_box sv ev u -> in_box sv ev v -> chebyshev1 u v.
Proof.
  intros Hb Hs Hu Hv. pose proof (proj2 (unit_step_coord u v) Hs) as Hs'.
  assert (G : forall a, Z.abs (coord a v - coord a u) <= 1).
  { intros a. pose proof (max_abs_delta_coord a sv ev) as Hle.
    apply (unit_move_wide (Z.min (coord a sv) (coord a ev))
                          (Z.max (coord a sv) (coord a ev))).
    - lia.
    - specialize (Hu a). unfold between in *. lia.
    - specialize (Hv a). unfold between in *. lia.
    - apply Hs'. }
  exact (conj (G AxisX) (conj (G AxisY) (G AxisZ))).
Qed.

Lemma unit_move_interior c c' :
  Int32.min_int < c < Int32.max_int -> unit_move c c' -> Z.abs (c' - c) <= 1.
Proof.
  unfold unit_move, Int32.add. intros Hc [-> | [-> | ->]].
  - lia.
  - rewrite wrap_small by lia. lia.
  - rewrite wrap_small by lia. lia.
Qed.

Lemma unit_step_inside u v : unit_step u v -> unit_inside u v.
Proof.
  intros H a Ha. apply unit_move_interior; [exact Ha |].
  apply (proj2 (unit_step_coord u v) H).
Qed.

(** How far one axis of [VoxelCastingDDA] has walked: after [n] iterations it
    has moved [k <= n] times, and every position on the way lies at most [k]
    unit steps from the first. *)
Lemma dda_walk a E :
  unit (coord a (step E)) ->
  forall n s,
    Int32.min_int <= coord a (current s) <= Int32.max_int ->
    exists k,
      0 <= k <= Z.of_nat n /\
      coord a (current (Nat.iter n (dda_step E) s)) =
        Int32.wrap (coord a (current s) + coord a (step E) * k) /\
      Forall (fun v => exists i, 0 <= i <= k /\
                coord a v = Int32.wrap (coord a (current s) + coord a (step E) * i))
             (trace current (dda_step E) n s).
Proof.
  intros Hu. induction n as [| n IH]; intros s Hs.
  - exists 0. split; [lia |].
    assert (H0 : coord a (current s)
                 = Int32.wrap (coord a (current s) + coord a (step E) * 0))
      by (rewrite Z.mul_0_r, Z.add_0_r, wrap_small by exact Hs; reflexivity).
    split; [exact H0 |]. constructor; [| constructor]. exists 0. split; [lia | exact H0].
  - rewrite Nat.iter_succ_r.
    change (trace current (dda_step E) (Datatypes.S n) s)
      with (current s :: trace current (dda_step E) n (dda_step E s)).
    assert (H0 : coord a (current s)
                 = Int32.wrap (coord a (current s) + coord a (step E) * 0))
      by (rewrite Z.mul_0_r, Z.add_0_r, wrap_small by exact Hs; reflexivity).
    pose proof (proj1 (dda_step_coord a E s)) as Hc.
    unfold dda_axis in Hc.
    destruct (max_delta E <=? _) in Hc; cbn [fst] in Hc.
    + assert (Hs' : Int32.min_int <= coord a (current (dda_step E s))
                    <= Int32.max_int) by (rewrite Hc; apply wrap_range).
      destruct (IH _ Hs') as [k [Hk [Hfin Hall]]].
      exists (k + 1). split; [lia |]. split.
      * rewrite Hfin, Hc. unfold Int32.add. rewrite wrap_wrap_add.
        f_equal. lia.
      * constructor; [exists 0; split; [lia | exact H0] |].
        eapply Forall_impl; [| exact Hall].
        intros v [i [Hi Hv]]. exists (i + 1). split; [lia |].
        rewrite Hv, Hc. unfold Int32.add. rewrite wrap_wrap_add. f_equal. lia.
    + assert (Hs' : Int32.min_int <= coord a (current (dda_step E s))
                    <= Int32.max_int) by (rewrite Hc; exact Hs).
      destruct (IH _ Hs') as [k [Hk [Hfin Hall]]].
      exists k. split; [lia |]. split.
      * rewrite Hfin, Hc. reflexivity.
      * constructor; [exists 0; split; [lia | exact H0] |].
        eapply Forall_impl; [| exact Hall].
        intros v [i [Hi Hv]]. exists i. split; [lia |]. rewrite Hv, Hc. reflexivity.
Qed.

Lemma Forall_axes (P : axis -> Vector3i -> Prop) l :
  (forall a, Forall (P a) l) -> Forall (fun v => forall a, P a v) l.
Proof.
  intros H. induction l as [| v l IH]; [constructor |].
  constructor.
  - intros a. specialize (H a). inversion H. assumption.
  - apply IH. intros a. specialize (H a). inversion H. assumption.
Qed.

(** A run of [VoxelCastingDDA] that ends at the end index, the two indices
    being less than 2^31 apart, stays between them. *)
Lemma dda_returned_in_box sv ev :
  let E := dda_env sv ev in
  let n := Z.to_nat (max_delta E) in
  in_int sv -> in_int ev -> max_abs_delta sv ev <= 2147483647 ->
  0 <= Int32.add (max_delta E) 1 ->
  current (Nat.iter n (dda_step E) (dda_init sv)) = ev ->
  Forall (in_box sv ev) (trace current (dda_step E) n (dda_init sv)).
Proof.
  intros E n Hsv Hev Hb Hadd Hfin.
  destruct (dda_env_max_delta sv ev Hadd) as [Hm _]. fold E in Hm.
  apply (Forall_axes (fun a v => between (coord a sv) (coord a ev) (coord a v))).
  intros a.
  destruct (dda_walk a E (dda_env_unit a sv ev) n (dda_init sv) (Hsv a))
    as [k [Hk [Hc Hall]]].
  unfold n in Hk. rewrite Z2Nat.id in Hk by lia. fold n in Hk.
  rewrite Hfin in Hc.
  change (coord a (current (dda_init sv))) with (coord a sv) in Hc, Hall.
  assert (Hs : coord a (step E)
               = if 0 <=? Int32.sub (coord a ev) (coord a sv) then 1 else -1)
    by (destruct a; reflexivity).
  pose proof (max_abs_delta_coord a sv ev) as Hle.
  pose proof (Hsv a) as Ra. pose proof (Hev a) as Rb.
  assert (Hsub : Int32.sub (coord a ev) (coord a sv) = coord a ev - coord a sv).
  { apply wrap_small. unfold Int32.min_int, Int32.max_int in *. lia. }
  rewrite Hsub in Hs.
  eapply Forall_impl; [| exact Hall].
  intros v [i [Hi Hv]]. cbv beta. rewrite Hv. unfold between.
  destruct (wrap_eqm (coord a sv + coord a (step E) * k)) as [j Hj].
  rewrite Hs in *. unfold Int32.min_int, Int32.max_int in *.
  destruct (0 <=? coord a ev - coord a sv) eqn:E0;
    [apply Z.leb_le in E0 | apply Z.leb_gt in E0];
    (rewrite wrap_small by (unfold Int32.min_int, Int32.max_int; lia)); lia.
Qed.

Lemma adjacent_impl {A : Type} (R Q : A -> A -> Prop) l :
  (forall a b, R a b -> Q a b) -> adjacent R l -> adjacent Q l.
Proof.
  intros H. induction l as [| a l IH]; intros HR; [exact I |].
  destruct l as [| b l]; [exact I |].
  apply adjacent_cons_inv in HR. destruct HR as [Hab HR].
  split; [apply H, Hab | apply IH, HR].
Qed.

Lemma bresenham_from_chebyshev sv ev path :
  in_int sv -> in_int ev -> bresenham_from sv ev = Returned path ->
  adjacent chebyshev1 path.
Proof.
  intros Hsv Hev H.
  pose proof (bresenham_from_Returned_moderate sv ev path Hsv Hev H) as Hb.
  rewrite (bresenham_from_in_range sv ev Hsv Hev Hb) in H. injection H as <-.
  apply (adjacent_Forall unit_step chebyshev1 (in_box sv ev)).
  - intros u v. apply unit_step_in_box. exact Hb.
  - apply (trace_adjacent _ _ (fun _ => True)); [| exact I].
    intros s _. split; [exact I | apply bres_step_unit_step].
  - apply (bres_trace_in_box sv ev Hsv Hev). exact Hb.
Qed.

Lemma dda_from_chebyshev sv ev path :
  in_int sv -> in_int ev -> max_abs_delta sv ev <= 2147483647 ->
  dda_from sv ev = Returned path -> adjacent chebyshev1 path.
Proof.
  intros Hsv Hev Hb H.
  apply dda_from_Returned in H. destruct H as [Hadd [-> Hfin]].
  apply (adjacent_Forall unit_step chebyshev1 (in_box sv ev)).
  - intros u v. apply unit_step_in_wide_box. exact Hb.
  - apply (trace_adjacent _ _ (fun _ => True)); [| exact I].
    intros s _. split; [exact I | apply dda_step_unit_step].
  - apply dda_returned_in_box; assumption.
Qed.

(** C9.  In a path that [VoxelCastingBresenham] returns any two consecutive
    elements differ by at most one in absolute value on every axis.  In a
    path that [VoxelCastingDDA] returns they do when the two indices the
    routine has computed differ by at most 2147483647 on every axis.  In a
    path that [VoxelCasting] returns they do on every axis on which the
    coordinate of the first of the two elements is neither [INT_MIN] nor
    [INT_MAX]. *)
Theorem returned_path_unit_steps T ray_start ray_end step_size :
  (forall path,
      VoxelCastingBresenham T ray_start ray_end step_size = Returned path ->
      adjacent chebyshev1 path) /\
  (forall path,
      VoxelCastingDDA T ray_start ray_end step_size = Returned path ->
      max_abs_delta (VoxelIndexLround T ray_start step_size)
                    (VoxelIndexLround T ray_end step_size) <= 2147483647 ->
      adjacent chebyshev1 path) /\
  (forall fuel path,
      VoxelCasting T fuel ray_start ray_end step_size = Some path ->
      adjacent unit_inside path).
Proof.
  split; [| split].
  - intros path H. rewrite VoxelCastingBresenham_eq in H.
    apply (bresenham_from_chebyshev _ _ _
             ltac:(intros a; apply VoxelIndexLround_range)
             ltac:(intros a; apply VoxelIndexLround_range) H).
  - intros path H Hb. rewrite VoxelCastingDDA_eq in H.
    apply (dda_from_chebyshev _ _ _
             ltac:(intros a; apply VoxelIndexLround_range)
             ltac:(intros a; apply VoxelIndexLround_range) Hb H).
  - intros fuel path H.
    apply (adjacent_impl unit_step).
    + apply unit_step_inside.
    + exact (proj1 (returned_path_unit_moves T ray_start ray_end step_size)
               fuel path H).
Qed.

Lemma returned_path_unit_steps_witness :
  adjacent chebyshev1 [mkVector3i 0 0 0; mkVector3i 1 0 0; mkVector3i 2 1 0] /\
  adjacent chebyshev1 [mkVector3i 0 0 0; mkVector3i 1 1 0; mkVector3i 2 1 0] /\
  adjacent unit_inside
    [mkVector3i 0 0 0; mkVector3i 1 0 0; mkVector3i 1 1 0; mkVector3i 2 1 0].
Proof.
  destruct (returned_path_unit_steps x86_64 (vec 0 0 0) (vec 2 1 0) one)
    as [H1 [H2 H3]].
  split; [| split].
  - apply H1. vm_compute. reflexivity.
  - apply H2; [vm_compute; reflexivity | vm_compute; intros H; discriminate H].
  - apply (H3 4%nat). vm_compute. reflexivity.
Defined.

(** C9 as stated fails for two of the routines.  On the ray from
    x = -2147483520 to x = 2147483520 the difference of the two indices
    overflows to -256, [VoxelCastingDDA] walks 256 steps downwards, and its
    path passes from [INT_MIN] to [INT_MAX].  On the ray from x = 2147483520
    to x = 2147483648 the end index, which no [int] holds, is converted to
    [INT_MIN] on x86-64, and the path of [VoxelCasting] passes from
    [INT_MAX] to [INT_MIN]. *)
Lemma paths_wrap_around :
  no_nan (vec (-2147483520) 0 0) /\ no_nan (vec 2147483520 0 0) /\
  no_nan (vec 2147483648 0 0) /\ Float32.ltb Float32.zero one = true /\
  (exists path,
      VoxelCastingDDA x86_64 (vec (-2147483520) 0 0) (vec 2147483520 0 0) one
      = Returned path /\
      nth_error path 128 = Some (mkVector3i (-2147483648) 0 0) /\
      nth_error path 129 = Some (mkVector3i 2147483647 0 0) /\
      ~ adjacent chebyshev1 path) /\
  (exists path,
      VoxelCasting x86_64 128 (vec 2147483520 0 0) (vec 2147483648 0 0) one
      = Some path /\
      nth_error path 127 = Some (mkVector3i 2147483647 0 0) /\
      nth_error path 128 = Some (mkVector3i (-2147483648) 0 0) /\
      ~ adjacent chebyshev1 path).
Proof.
  split; [vm_compute; auto |]. split; [vm_compute; auto |].
  split; [vm_compute; auto |]. split; [vm_compute; reflexivity |].
  split.
  - eexists. split; [vm_compute; reflexivity |].
    split; [reflexivity |]. split; [reflexivity |].
    intros H.
    pose proof (adjacent_nth _ _ H 128%nat _ _ eq_refl eq_refl) as [Hx _].
    simpl in Hx. lia.
  - eexists. split; [vm_compute; reflexivity |].
    split; [reflexivity |]. split; [reflexivity |].
    intros H.
    pose proof (adjacent_nth _ _ H 127%nat _ _ eq_refl eq_refl) as [Hx _].
    simpl in Hx. lia.
Qed.
